(** * Groups of playing cards: a shallow embedding of [group.go]

    The Go package keeps a group of cards as a struct with two parallel
    slices, [cards] and [flipd].  A [Group] interface value is a pointer
    to such a struct.  The embedding has two layers:

    - module [Impl]: the body of each method of [*group] that touches
      only its receiver, as a state-passing function on the struct;
    - module [Group]: the methods as they are called through a pointer,
      over a heap of structs.  The insert methods, which also call
      methods of their argument, are written directly at this level, each
      call reading the heap as it is at that moment.

    A run-time panic (index or slice bounds out of range, a method call on
    a nil interface or pointer) is the result [None].

    In these two layers each struct holds the elements of its slices, so
    that two groups are the same group or share nothing.  This is what
    [NewStandardDeck] and the draw methods establish.  [NewGroup] keeps
    the slice of its caller, and two groups made from one backing array
    do share it; what the insert methods then write, and where, is the
    matter of a third layer:

    - module [Storage]: slice values over backing arrays at addresses,
      with length and capacity, and over them [NewGroup], [Len], [Cards],
      [FlippedArray] and the three insert methods. *)

From stdpp Require Import base option list gmap strings.
From Stdlib Require Import ZArith Lia Ascii.

Local Open Scope Z_scope.

(** ** Go slices *)

(** A slice is modelled by the list of its elements; [int] is [Z].  None of
    the additions and subtractions below can leave the 64-bit range on a
    path that does not panic, so no wrap-around is written.  The model does
    not track the capacity of the backing array: a slice expression is
    checked against the length, so that a range reaching beyond the length
    is a panic here even where Go would still find room in the array.
    The arrays and the capacities are in module [Storage] below. *)
Section GoSlice.
Context {A : Type}.
Implicit Types s dst src w : list A.

(** [len(s)] *)
Definition len s : Z := Z.of_nat (length s).

(** [s[i]] as a value *)
Definition at_ s (i : Z) : option A :=
  if 0 <=? i then s !! Z.to_nat i else None.

(** [s[i] = x] *)
Definition set_at s (i : Z) (x : A) : option (list A) :=
  if (0 <=? i) && (i <? len s) then Some (<[Z.to_nat i := x]> s) else None.

(** [s[i:j]] *)
Definition slice s (i j : Z) : option (list A) :=
  if (0 <=? i) && (i <=? j) && (j <=? len s)
  then Some (take (Z.to_nat (j - i)) (drop (Z.to_nat i) s))
  else None.

(** [s[i:]] and [s[:j]] *)
Definition slice_from s (i : Z) : option (list A) := slice s i (len s).
Definition slice_to s (j : Z) : option (list A) := slice s 0 j.

(** [make([]T, n)], with [zero] the zero value of [T] *)
Definition make (zero : A) (n : Z) : option (list A) :=
  if 0 <=? n then Some (replicate (Z.to_nat n) zero) else None.

(** [copy(dst, src)]: the first [min(len(dst), len(src))] elements of
    [dst] are overwritten. *)
Definition copy dst src : list A :=
  take (length dst) src ++ drop (length src) dst.

(** A slice expression shares the array of its operand.  [splice s i j w]
    is [s] once the window [s[i:j]] holds [w]. *)
Definition splice s (i j : Z) w : list A :=
  take (Z.to_nat i) s ++ w ++ drop (Z.to_nat j) s.

(** [copy(s[i:], src)], seen from [s] *)
Definition copy_from s (i : Z) src : option (list A) :=
  dst ← slice_from s i; Some (splice s i (len s) (copy dst src)).
End GoSlice.

(** A loop whose body may panic, run over the values of its counter. *)
Fixpoint for_each {S I : Type} (body : I → S → option S) (l : list I) (s : S)
  : option S :=
  match l with
  | [] => Some s
  | n :: l => s' ← body n s; for_each body l s'
  end.

(** [for n := i; n < j; n++] *)
Definition upto (i j : Z) : list Z := seqZ i (j - i).
(** [for p := n - 1; p >= 0; p--] *)
Definition downfrom (n : Z) : list Z := reverse (seqZ 0 n).
(** [for i := n; i > 0; i--] *)
Definition downto1 (n : Z) : list Z := reverse (seqZ 1 n).

(** ** Cards *)

(** [Suit] and [Rank] are bytes. *)
Definition Suit := Z.
Definition Rank := Z.
Definition byte_of_int (n : Z) : Z := n mod 256.

Definition Spades : Suit := 1.
Definition Hearts : Suit := 2.
Definition Diamonds : Suit := 3.
Definition Clubs : Suit := 4.

Definition Ace : Rank := 1.
Definition Two : Rank := 2.
Definition Three : Rank := 3.
Definition Four : Rank := 4.
Definition Five : Rank := 5.
Definition Six : Rank := 6.
Definition Seven : Rank := 7.
Definition Eight : Rank := 8.
Definition Nine : Rank := 9.
Definition Ten : Rank := 10.
Definition Jack : Rank := 11.
Definition Queen : Rank := 12.
Definition King : Rank := 13.

(** A [rune] of these methods is one ASCII character, and [string(r)] the
    string of that one character. *)
Definition Suit_String (s : Suit) : string :=
  if s =? Spades then "Spades"
  else if s =? Hearts then "Hearts"
  else if s =? Diamonds then "Diamonds"
  else if s =? Clubs then "Clubs"
  else "Nulls".

Definition Suit_Short (s : Suit) : ascii :=
  if s =? Clubs then "C"%char
  else if s =? Diamonds then "D"%char
  else if s =? Hearts then "H"%char
  else if s =? Spades then "S"%char
  else "?"%char.

Definition Rank_String (r : Rank) : string :=
  if r =? Ace then "Ace"
  else if r =? Two then "Two"
  else if r =? Three then "Three"
  else if r =? Four then "Four"
  else if r =? Five then "Five"
  else if r =? Six then "Six"
  else if r =? Seven then "Seven"
  else if r =? Eight then "Eight"
  else if r =? Nine then "Nine"
  else if r =? Ten then "Ten"
  else if r =? Jack then "Jack"
  else if r =? Queen then "Queen"
  else if r =? King then "King"
  else "Null".

Definition Rank_Short (r : Rank) : ascii :=
  if r =? Ace then "A"%char
  else if r =? Two then "2"%char
  else if r =? Three then "3"%char
  else if r =? Four then "4"%char
  else if r =? Five then "5"%char
  else if r =? Six then "6"%char
  else if r =? Seven then "7"%char
  else if r =? Eight then "8"%char
  else if r =? Nine then "9"%char
  else if r =? Ten then "T"%char
  else if r =? Jack then "J"%char
  else if r =? Queen then "Q"%char
  else if r =? King then "K"%char
  else "?"%char.

(** A value of the interface [Card]: a [card] struct, a [joker] struct, or
    the nil interface. *)
Inductive Card : Type :=
  | card (rank : Rank) (suit : Suit)
  | joker
  | nilCard.

Global Instance Card_eq_dec : EqDecision Card.
Proof. solve_decision. Defined.

Definition NewCard (rank : Rank) (suit : Suit) : Card := card rank suit.
Definition Joker : Card := joker.

(** The methods [Suit], [Rank] and [Joker] of [Card], under names that
    leave [Joker] to the constructor; a call on the nil interface panics. *)
Definition Card_Suit (c : Card) : option Suit :=
  match c with card _ s => Some s | joker => Some 0 | nilCard => None end.
Definition Card_Rank (c : Card) : option Rank :=
  match c with card r _ => Some r | joker => Some 0 | nilCard => None end.
Definition Card_Joker (c : Card) : option bool :=
  match c with card _ _ => Some false | joker => Some true | nilCard => None end.

(** The methods [String] and [Short] of [Card]. *)
Definition Card_String (c : Card) : option string :=
  match c with
  | card r s => Some (Rank_String r +:+ " of " +:+ Suit_String s)
  | joker => Some "Joker"
  | nilCard => None
  end.
Definition Card_Short (c : Card) : option string :=
  match c with
  | card r s =>
      Some (String (Rank_Short r) EmptyString +:+
            String (Suit_Short s) EmptyString)
  | joker => Some "JO"
  | nilCard => None
  end.

(** [strings.Join(elems, sep)] of the Go library: the elements in a row
    with [sep] between each two. *)
Fixpoint Join (elems : list string) (sep : string) : string :=
  match elems with
  | [] => ""
  | [e] => e
  | e :: elems => e +:+ sep +:+ Join elems sep
  end.

(** ** The struct *)

Record group : Type := mkgroup { cards : list Card; flipd : list bool }.

Global Instance group_eq_dec : EqDecision group.
Proof. solve_decision. Defined.

(** The invariant of the representation. *)
Definition aligned (g : group) : Prop := length (cards g) = length (flipd g).

(** What a group shows: the card of each position with its direction. *)
Definition faces (g : group) : list (Card * bool) := zip (cards g) (flipd g).

(** [a && b] with operands that may panic: [b] runs only when [a] holds. *)
Definition and_then (a b : option bool) : option bool :=
  x ← a; if (x : bool) then b else Some false.

(** ** Methods of [*group] on the receiver alone *)

Module Impl.

(** [index(&i)] gives [i] its new value. *)
Definition index (g : group) (i : Z) : Z :=
  if i <? 0 then i + len (cards g) else i.

(** [String()]; the loop fills [s], the slice of the short names. *)
Definition String (g : group) : option string :=
  s ← make "" (len (cards g));
  s ← for_each (λ i s, c ← at_ (cards g) i; sh ← Card_Short c; set_at s i sh)
        (upto 0 (len (cards g))) s;
  Some ("[ " +:+ Join s " " +:+ " ]").

Definition Len (g : group) : Z := len (cards g).

Definition Less (g : group) (i j : Z) : option bool :=
  let i := index g i in
  let j := index g j in
  ci ← at_ (cards g) i;
  cj ← at_ (cards g) j;
  b ← and_then (Card_Joker ci) (negb <$> Card_Joker cj);
  if (b : bool) then Some true
  else
    b ← and_then (negb <$> Card_Joker ci) (Card_Joker cj);
    if (b : bool) then Some false
    else
      si ← Card_Suit ci; sj ← Card_Suit cj;
      if (si : Z) =? sj then
        ri ← Card_Rank ci; rj ← Card_Rank cj; Some ((ri : Z) <? rj)
      else
        si ← Card_Suit ci; sj ← Card_Suit cj; Some ((si : Z) <? sj).

(** [s[i], s[j] = s[j], s[i]] *)
Definition exchange {A} (s : list A) (i j : Z) : option (list A) :=
  x ← at_ s j; y ← at_ s i;
  s ← set_at s i x; set_at s j y.

Definition Swap (g : group) (i j : Z) : option group :=
  let i := index g i in
  let j := index g j in
  c ← exchange (cards g) i j;
  d ← exchange (flipd g) i j;
  Some (mkgroup c d).

Definition Flipped (g : group) (i : Z) : option bool :=
  at_ (flipd g) (index g i).

Definition SetFlipped (g : group) (i : Z) (faceup : bool) : option group :=
  d ← set_at (flipd g) (index g i) faceup;
  Some (mkgroup (cards g) d).

Definition FlippedArray (g : group) : list bool :=
  copy (replicate (length (flipd g)) false) (flipd g).

(** [for i := range g.flipd { g.flipd[i] = faceup }] *)
Definition FlipEach (g : group) (faceup : bool) : option group :=
  d ← for_each (λ i d, set_at d i faceup) (upto 0 (len (flipd g))) (flipd g);
  Some (mkgroup (cards g) d).

Definition flip (g : group) (i j : Z) : option group :=
  fl ← for_each (λ n d, b ← at_ d n; set_at d n (negb b)) (upto i j) (flipd g);
  c ← slice (cards g) i j;
  d ← slice fl i j;
  '(c, d) ← for_each
    (λ p '(c, d),
       let q := len c - 1 - p in
       c ← exchange c p q;
       d ← exchange d p q;
       Some (c, d))
    (downfrom (len c ÷ 2)) (c, d);
  Some (mkgroup (splice (cards g) i j c) (splice fl i j d)).

Definition Flip (g : group) (i j : Z) : option group :=
  let i := index g i in
  let j := index g j in
  flip g i j.

Definition FlipAll (g : group) : option group :=
  flip g 0 (len (cards g)).

Definition Cards (g : group) : list Card :=
  copy (replicate (length (cards g)) nilCard) (cards g).

(** The new group comes first in the result, the receiver second. *)
Definition drawAt (g : group) (i j : Z) : option (group * group) :=
  let n := j - i in
  ngc ← make nilCard n;
  ngd ← make false n;
  w ← slice (cards g) i j;
  let ngc := copy ngc w in
  w ← slice (flipd g) i j;
  let ngd := copy ngd w in
  src ← slice_from (cards g) j;
  gc ← copy_from (cards g) i src;
  z ← make nilCard n;
  gc ← copy_from gc (len gc - n) z;
  gc ← slice_to gc (len gc - n);
  src ← slice_from (flipd g) j;
  gd ← copy_from (flipd g) i src;
  gd ← slice_to gd (len gd - n);
  Some (mkgroup ngc ngd, mkgroup gc gd).

Definition Draw (g : group) (n : Z) : option (group * group) :=
  let n := if n <? 0 then 0 else n in
  let n := if n >? len (cards g) then len (cards g) else n in
  drawAt g (len (cards g) - n) (len (cards g)).

Definition DrawBottom (g : group) (n : Z) : option (group * group) :=
  let n := if n <? 0 then 0 else n in
  let n := if n >? len (cards g) then len (cards g) else n in
  drawAt g 0 n.

Definition DrawAt (g : group) (i j : Z) : option (group * group) :=
  let i := index g i in
  let j := index g j in
  drawAt g i j.

(** [Card(i)]; the result [Some nilCard] is Go's [nil], and [None] is the
    panic of [g.cards[i]] on an index out of range.  It stands last in the
    module because its name hides the type [Card] from there on. *)
Definition Card (g : group) (i : Z) : option Card :=
  let i := index g i in
  if (i <? 0) || (i >=? len (cards g)) then Some nilCard
  else at_ (cards g) i.

End Impl.

(** ** The heap *)

(** A [Group] value is a pointer to a [group] struct. *)
Definition ptr : Type := positive.
Abbreviation heap := (gmap positive group).

(** Code that runs on the heap and may panic. *)
Definition M (A : Type) : Type := heap → option (A * heap).

Definition ret {A} (a : A) : M A := λ σ, Some (a, σ).

Definition bind {A B} (m : M A) (k : A → M B) : M B :=
  λ σ, match m σ with
       | Some (a, σ') => k a σ'
       | None => None
       end.

Definition lift {A} (o : option A) : M A :=
  λ σ, match o with
       | Some a => Some (a, σ)
       | None => None
       end.

Notation "'let*' x ':=' m 'in' k" := (bind m (λ x, k))
  (at level 10, x pattern, m at level 100, k at level 200,
   format "'[v' 'let*'  x  ':='  m  'in' '/' k ']'").

(** [&group{...}] *)
Definition alloc (G : group) : M ptr :=
  λ σ, let p := fresh (dom σ) in Some (p, <[p := G]> σ).

(** [*g], read and written; a pointer to nothing panics. *)
Definition load (g : ptr) : M group :=
  λ σ, match σ !! g with
       | Some G => Some (G, σ)
       | None => None
       end.

Definition store (g : ptr) (G : group) : M unit :=
  λ σ, match σ !! g with
       | Some _ => Some (tt, <[g := G]> σ)
       | None => None
       end.

Definition get_cards (g : ptr) : M (list Card) :=
  let* G := load g in ret (cards G).
Definition get_flipd (g : ptr) : M (list bool) :=
  let* G := load g in ret (flipd G).
Definition set_cards (g : ptr) (c : list Card) : M unit :=
  let* G := load g in store g (mkgroup c (flipd G)).
Definition set_flipd (g : ptr) (d : list bool) : M unit :=
  let* G := load g in store g (mkgroup (cards G) d).

(** A method that reads its receiver, one that changes it, and one that
    also returns a new group. *)
Definition reads {A} (g : ptr) (f : group → A) : M A :=
  let* G := load g in ret (f G).
Definition tries {A} (g : ptr) (f : group → option A) : M A :=
  let* G := load g in lift (f G).
Definition changes (g : ptr) (f : group → option group) : M unit :=
  let* G := load g in
  let* G' := lift (f G) in
  store g G'.
Definition draws (g : ptr) (f : group → option (group * group)) : M ptr :=
  let* G := load g in
  let* r := lift (f G) in
  let* ng := alloc (fst r) in
  let* _ := store g (snd r) in
  ret ng.

(** A loop on the heap. *)
Fixpoint for_heap {I : Type} (body : I → M unit) (l : list I) : M unit :=
  match l with
  | [] => ret tt
  | n :: l => let* _ := body n in for_heap body l
  end.

(** ** The methods of [Group], called through a pointer *)

Module Group.

Definition String (g : ptr) : M string := tries g Impl.String.
Definition Len (g : ptr) : M Z := reads g Impl.Len.
Definition Less (g : ptr) (i j : Z) : M bool := tries g (λ G, Impl.Less G i j).
Definition Swap (g : ptr) (i j : Z) : M unit := changes g (λ G, Impl.Swap G i j).
Definition Flipped (g : ptr) (i : Z) : M bool := tries g (λ G, Impl.Flipped G i).
Definition SetFlipped (g : ptr) (i : Z) (faceup : bool) : M unit :=
  changes g (λ G, Impl.SetFlipped G i faceup).
Definition FlippedArray (g : ptr) : M (list bool) := reads g Impl.FlippedArray.
Definition FlipEach (g : ptr) (faceup : bool) : M ptr :=
  let* _ := changes g (λ G, Impl.FlipEach G faceup) in ret g.
Definition Flip (g : ptr) (i j : Z) : M unit := changes g (λ G, Impl.Flip G i j).
Definition FlipAll (g : ptr) : M ptr :=
  let* _ := changes g Impl.FlipAll in ret g.
Definition Cards (g : ptr) : M (list Card) := reads g Impl.Cards.
Definition Draw (g : ptr) (n : Z) : M ptr := draws g (λ G, Impl.Draw G n).
Definition DrawBottom (g : ptr) (n : Z) : M ptr := draws g (λ G, Impl.DrawBottom G n).
Definition DrawAt (g : ptr) (i j : Z) : M ptr := draws g (λ G, Impl.DrawAt G i j).

Definition Insert (g ng : ptr) : M unit :=
  (* g.cards = append(g.cards, ng.Cards()...) *)
  let* c := get_cards g in
  let* src := Cards ng in
  let* _ := set_cards g (c ++ src) in
  (* g.flipd = append(g.flipd, ng.FlippedArray()...) *)
  let* d := get_flipd g in
  let* src := FlippedArray ng in
  set_flipd g (d ++ src).

Definition InsertBottom (g ng : ptr) : M unit :=
  (* c := make([]Card, len(g.cards)+ng.Len()) *)
  let* gc := get_cards g in
  let* n := Len ng in
  let* c := lift (make nilCard (len gc + n)) in
  (* copy(c, ng.Cards()) *)
  let* src := Cards ng in
  let c := copy c src in
  (* copy(c[ng.Len():], g.cards) *)
  let* n := Len ng in
  let* gc := get_cards g in
  let* c := lift (copy_from c n gc) in
  (* g.cards = c *)
  let* _ := set_cards g c in
  (* d := make([]bool, len(g.flipd)+ng.Len()) *)
  let* gd := get_flipd g in
  let* n := Len ng in
  let* d := lift (make false (len gd + n)) in
  (* copy(d, ng.FlippedArray()) *)
  let* src := FlippedArray ng in
  let d := copy d src in
  (* copy(d[ng.Len():], g.flipd) *)
  let* n := Len ng in
  let* gd := get_flipd g in
  let* d := lift (copy_from d n gd) in
  (* g.flipd = d *)
  set_flipd g d.

Definition InsertAt (g : ptr) (i : Z) (ng : ptr) : M unit :=
  let* i := reads g (λ G, Impl.index G i) in
  let* gc := get_cards g in
  let i := if i <? 0 then 0 else if i >? len gc then len gc else i in
  (* c := make([]Card, len(g.cards)+ng.Len()) *)
  let* gc := get_cards g in
  let* n := Len ng in
  let* c := lift (make nilCard (len gc + n)) in
  (* copy(c, g.cards[:i]) *)
  let* gc := get_cards g in
  let* src := lift (slice_to gc i) in
  let c := copy c src in
  (* copy(c[i:], ng.Cards()) *)
  let* src := Cards ng in
  let* c := lift (copy_from c i src) in
  (* copy(c[i+ng.Len():], g.cards[i:]) *)
  let* n := Len ng in
  let* gc := get_cards g in
  let* src := lift (slice_from gc i) in
  let* c := lift (copy_from c (i + n) src) in
  (* g.cards = c *)
  let* _ := set_cards g c in
  (* d := make([]bool, len(g.flipd)+ng.Len()) *)
  let* gd := get_flipd g in
  let* n := Len ng in
  let* d := lift (make false (len gd + n)) in
  (* copy(d, g.flipd[:i]) *)
  let* gd := get_flipd g in
  let* src := lift (slice_to gd i) in
  let d := copy d src in
  (* copy(d[i:], ng.FlippedArray()) *)
  let* src := FlippedArray ng in
  let* d := lift (copy_from d i src) in
  (* copy(d[i+ng.Len():], g.flipd[i:]) *)
  let* n := Len ng in
  let* gd := get_flipd g in
  let* src := lift (slice_from gd i) in
  let* d := lift (copy_from d (i + n) src) in
  (* g.flipd = d *)
  set_flipd g d.

(** [Card(i)] *)
Definition Card (g : ptr) (i : Z) : M Card := tries g (λ G, Impl.Card G i).

End Group.

(** ** Constructors and the shuffle *)

Definition NewGroup (cs : list Card) : M ptr :=
  let* d := lift (make false (len cs)) in
  alloc (mkgroup cs d).

Definition NewStandardDeck : M ptr :=
  let* c := lift (make nilCard 52) in
  let* d := lift (make false 52) in
  let* deck := alloc (mkgroup c d) in
  let* _ :=
    for_heap (λ suit,
      for_heap (λ rank,
        (* deck.cards[(suit-1)*13+(rank-1)] = NewCard(Rank(rank), Suit(suit)) *)
        let* c := get_cards deck in
        let* c := lift (set_at c ((suit - 1) * 13 + (rank - 1))
                          (NewCard (byte_of_int rank) (byte_of_int suit))) in
        set_cards deck c)
      (upto 1 (13 + 1)))
    (upto 1 (4 + 1)) in
  ret deck.

(** [rand_Int max] is the number that [crand.Int(crand.Reader, max)]
    returns, a value below [max]; the shuffle asks once for each [max]. *)
Definition PerfectShuffle (rand_Int : Z → Z) (g : ptr) : M unit :=
  let* n := Group.Len g in
  for_heap (λ i,
    let j := rand_Int (i + 1) in
    Group.Swap g i j)
  (downto1 (n - 1)).

(** [Reverse]: [g.Len()] is asked once for the bound of the loop and again
    in each round. *)
Definition Reverse (g : ptr) : M unit :=
  let* n := Group.Len g in
  for_heap (λ i,
    let* n := Group.Len g in
    let j := n - 1 - i in
    Group.Swap g i j)
  (downfrom (n ÷ 2)).

(** ** The insert methods over backing arrays *)

(** In module [Group] a struct holds the elements of its slices.  In Go it
    holds slice values: each points into a backing array, and two slice
    values may point into one array.  [NewGroup] keeps the slice of its
    caller, and [append] in [Insert] writes into the array of [g.cards]
    where its capacity has room.  Module [Storage] has the same code over
    arrays at addresses, for what the insert methods write and where. *)

Module Storage.

Declare Scope storage_scope.
Local Open Scope storage_scope.

(** A slice value: the address of its backing array, the position of its
    first element in that array, its length and its capacity.  A nil slice
    is a slice of length and capacity 0. *)
Record sliceval := Slice { arr : positive; off : nat; slen : nat; scap : nat }.

(** The arrays of one element type, each at its address. *)
Abbreviation mem A := (gmap positive (list A)).

(** [s[i:j]]: Go checks the bounds against the capacity. *)
Definition reslice (s : sliceval) (i j : Z) : option sliceval :=
  if (0 <=? i) && (i <=? j) && (j <=? Z.of_nat (scap s)) then
    Some (Slice (arr s) (off s + Z.to_nat i) (Z.to_nat (j - i))
                (scap s - Z.to_nat i))
  else None.

(** [s[i:]] and [s[:j]] *)
Definition reslice_from (s : sliceval) (i : Z) : option sliceval :=
  reslice s i (Z.of_nat (slen s)).
Definition reslice_to (s : sliceval) (j : Z) : option sliceval :=
  reslice s 0 j.

Section Arrays.
Context {A : Type}.
Implicit Types (m : mem A) (s t dst src : sliceval).

(** The elements of [s], read from its array. *)
Definition elems m s : option (list A) :=
  match m !! arr s with
  | Some a =>
      if (off s + slen s <=? length a)%nat
      then Some (take (slen s) (drop (off s) a))
      else None
  | None => None
  end.

(** Writing [xs] into the array at [a], from position [pos] on. *)
Definition poke m (a : positive) (pos : nat) (xs : list A) : option (mem A) :=
  match m !! a with
  | Some old =>
      if (pos + length xs <=? length old)%nat
      then Some (<[a := take pos old ++ xs ++ drop (pos + length xs) old]> m)
      else None
  | None => None
  end.

(** [make([]T, n)]: a new array of [n] zero values, and the slice of all
    of it. *)
Definition make (zero : A) (n : Z) m : option (sliceval * mem A) :=
  if 0 <=? n then
    let a := fresh (dom m) in
    Some (Slice a 0 (Z.to_nat n) (Z.to_nat n),
          <[a := replicate (Z.to_nat n) zero]> m)
  else None.

(** [copy(dst, src)]: as many elements as both slices have, read before
    any is written. *)
Definition copy dst src m : option (unit * mem A) :=
  match elems m src with
  | Some xs =>
      match poke m (arr dst) (off dst) (take (slen dst) xs) with
      | Some m' => Some (tt, m')
      | None => None
      end
  | None => None
  end.

(** [append(s, t...)]: where the capacity of [s] has room for the elements
    of [t] they are written into the array of [s], behind its length;
    otherwise a new array takes the elements of both.  [growslice old n] is
    the capacity that the run-time system gives the new array when [n]
    elements are needed; it is never less than [n]. *)
Definition append (growslice : nat → nat → nat) (zero : A) s t m :
    option (sliceval * mem A) :=
  match elems m t with
  | Some xs =>
      let n := (slen s + length xs)%nat in
      if (n <=? scap s)%nat then
        match poke m (arr s) (off s + slen s) xs with
        | Some m' => Some (Slice (arr s) (off s) n (scap s), m')
        | None => None
        end
      else
        match elems m s with
        | Some old =>
            let c := Nat.max n (growslice (scap s) n) in
            let a := fresh (dom m) in
            Some (Slice a 0 n c,
                  <[a := old ++ xs ++ replicate (c - n) zero]> m)
        | None => None
        end
  | None => None
  end.

End Arrays.

(** The struct, with its two slice values. *)
Record group := mkgroup { cards : sliceval; flipd : sliceval }.

(** The arrays of cards, the arrays of directions and the structs. *)
Record store := Store {
  cmem : mem Card;
  bmem : mem bool;
  groups : gmap positive group
}.

(** Code that runs on the store and may panic. *)
Definition M (A : Type) : Type := store → option (A * store).

Definition ret {A} (a : A) : M A := λ σ, Some (a, σ).

Definition bind {A B} (m : M A) (k : A → M B) : M B :=
  λ σ, match m σ with
       | Some (a, σ') => k a σ'
       | None => None
       end.

Definition lift {A} (o : option A) : M A :=
  λ σ, match o with
       | Some a => Some (a, σ)
       | None => None
       end.

Notation "'let*' x ':=' m 'in' k" := (bind m (λ x, k))
  (at level 10, x pattern, m at level 100, k at level 200,
   format "'[v' 'let*'  x  ':='  m  'in' '/' k ']'") : storage_scope.

(** Code on the arrays of cards, and on the arrays of directions. *)
Definition on_cards {A} (f : mem Card → option (A * mem Card)) : M A :=
  λ σ, match f (cmem σ) with
       | Some (a, m) => Some (a, Store m (bmem σ) (groups σ))
       | None => None
       end.

Definition on_flipd {A} (f : mem bool → option (A * mem bool)) : M A :=
  λ σ, match f (bmem σ) with
       | Some (a, m) => Some (a, Store (cmem σ) m (groups σ))
       | None => None
       end.

(** [&group{...}] *)
Definition alloc (G : group) : M ptr :=
  λ σ, let p := fresh (dom (groups σ)) in
       Some (p, Store (cmem σ) (bmem σ) (<[p := G]> (groups σ))).

(** [*g] *)
Definition load (g : ptr) : M group :=
  λ σ, match groups σ !! g with
       | Some G => Some (G, σ)
       | None => None
       end.

(** [g.cards = s] and [g.flipd = s] *)
Definition set_cards (g : ptr) (s : sliceval) : M unit :=
  λ σ, match groups σ !! g with
       | Some G =>
           Some (tt, Store (cmem σ) (bmem σ)
                           (<[g := mkgroup s (flipd G)]> (groups σ)))
       | None => None
       end.

Definition set_flipd (g : ptr) (s : sliceval) : M unit :=
  λ σ, match groups σ !! g with
       | Some G =>
           Some (tt, Store (cmem σ) (bmem σ)
                           (<[g := mkgroup (cards G) s]> (groups σ)))
       | None => None
       end.

(** [len(s)] *)
Definition len (s : sliceval) : Z := Z.of_nat (slen s).

(** [NewGroup(cards...)]: the struct keeps the slice that the caller
    passes. *)
Definition NewGroup (cs : sliceval) : M ptr :=
  let* d := on_flipd (make false (len cs)) in
  alloc (mkgroup cs d).

Definition index (g : ptr) (i : Z) : M Z :=
  let* G := load g in
  ret (if i <? 0 then i + len (cards G) else i).

Definition Len (g : ptr) : M Z :=
  let* G := load g in
  ret (len (cards G)).

Definition FlippedArray (g : ptr) : M sliceval :=
  (* c := make([]bool, len(g.flipd)) *)
  let* G := load g in
  let* c := on_flipd (make false (len (flipd G))) in
  (* copy(c, g.flipd) *)
  let* G := load g in
  let* _ := on_flipd (copy c (flipd G)) in
  ret c.

Definition Cards (g : ptr) : M sliceval :=
  (* c := make([]Card, len(g.cards)) *)
  let* G := load g in
  let* c := on_cards (make nilCard (len (cards G))) in
  (* copy(c, g.cards) *)
  let* G := load g in
  let* _ := on_cards (copy c (cards G)) in
  ret c.

(** [Cards()] and [FlippedArray()] assign to no struct, so that [g.cards]
    and [g.flipd] are the same read before and after the call. *)
Definition Insert (growslice : nat → nat → nat) (g ng : ptr) : M unit :=
  (* g.cards = append(g.cards, ng.Cards()...) *)
  let* G := load g in
  let* t := Cards ng in
  let* s := on_cards (append growslice nilCard (cards G) t) in
  let* _ := set_cards g s in
  (* g.flipd = append(g.flipd, ng.FlippedArray()...) *)
  let* G := load g in
  let* t := FlippedArray ng in
  let* s := on_flipd (append growslice false (flipd G) t) in
  set_flipd g s.

Definition InsertBottom (g ng : ptr) : M unit :=
  (* c := make([]Card, len(g.cards)+ng.Len()) *)
  let* G := load g in
  let* n := Len ng in
  let* c := on_cards (make nilCard (len (cards G) + n)) in
  (* copy(c, ng.Cards()) *)
  let* t := Cards ng in
  let* _ := on_cards (copy c t) in
  (* copy(c[ng.Len():], g.cards) *)
  let* n := Len ng in
  let* dst := lift (reslice_from c n) in
  let* G := load g in
  let* _ := on_cards (copy dst (cards G)) in
  (* g.cards = c *)
  let* _ := set_cards g c in
  (* d := make([]bool, len(g.flipd)+ng.Len()) *)
  let* G := load g in
  let* n := Len ng in
  let* d := on_flipd (make false (len (flipd G) + n)) in
  (* copy(d, ng.FlippedArray()) *)
  let* t := FlippedArray ng in
  let* _ := on_flipd (copy d t) in
  (* copy(d[ng.Len():], g.flipd) *)
  let* n := Len ng in
  let* dst := lift (reslice_from d n) in
  let* G := load g in
  let* _ := on_flipd (copy dst (flipd G)) in
  (* g.flipd = d *)
  set_flipd g d.

Definition InsertAt (g : ptr) (i : Z) (ng : ptr) : M unit :=
  let* i := index g i in
  let* G := load g in
  let i := if i <? 0 then 0
           else if i >? len (cards G) then len (cards G) else i in
  (* c := make([]Card, len(g.cards)+ng.Len()) *)
  let* G := load g in
  let* n := Len ng in
  let* c := on_cards (make nilCard (len (cards G) + n)) in
  (* copy(c, g.cards[:i]) *)
  let* G := load g in
  let* src := lift (reslice_to (cards G) i) in
  let* _ := on_cards (copy c src) in
  (* copy(c[i:], ng.Cards()) *)
  let* dst := lift (reslice_from c i) in
  let* t := Cards ng in
  let* _ := on_cards (copy dst t) in
  (* copy(c[i+ng.Len():], g.cards[i:]) *)
  let* n := Len ng in
  let* dst := lift (reslice_from c (i + n)) in
  let* G := load g in
  let* src := lift (reslice_from (cards G) i) in
  let* _ := on_cards (copy dst src) in
  (* g.cards = c *)
  let* _ := set_cards g c in
  (* d := make([]bool, len(g.flipd)+ng.Len()) *)
  let* G := load g in
  let* n := Len ng in
  let* d := on_flipd (make false (len (flipd G) + n)) in
  (* copy(d, g.flipd[:i]) *)
  let* G := load g in
  let* src := lift (reslice_to (flipd G) i) in
  let* _ := on_flipd (copy d src) in
  (* copy(d[i:], ng.FlippedArray()) *)
  let* dst := lift (reslice_from d i) in
  let* t := FlippedArray ng in
  let* _ := on_flipd (copy dst t) in
  (* copy(d[i+ng.Len():], g.flipd[i:]) *)
  let* n := Len ng in
  let* dst := lift (reslice_from d (i + n)) in
  let* G := load g in
  let* src := lift (reslice_from (flipd G) i) in
  let* _ := on_flipd (copy dst src) in
  (* g.flipd = d *)
  set_flipd g d.

(** What a caller sees of a group through [Cards()] and
    [FlippedArray()]: the elements of its two slices. *)
Definition shown (σ : store) (g : ptr) : option (list Card * list bool) :=
  match groups σ !! g with
  | Some G =>
      match elems (cmem σ) (cards G), elems (bmem σ) (flipd G) with
      | Some c, Some d => Some (c, d)
      | _, _ => None
      end
  | None => None
  end.

(** A slice value as Go makes them: it lies within its array. *)
Definition valid {A} (m : mem A) (s : sliceval) : Prop :=
  ∃ a, m !! arr s = Some a ∧
       (off s + scap s ≤ length a)%nat ∧ (slen s ≤ scap s)%nat.

Definition sound (σ : store) (G : group) : Prop :=
  valid (cmem σ) (cards G) ∧ valid (bmem σ) (flipd G).

(** Two slice values share storage when some place of one array lies
    within the capacity of both. *)
Definition shares (s t : sliceval) : Prop :=
  arr s = arr t ∧
  ∃ k : nat, (off s ≤ k < off s + scap s)%nat ∧
             (off t ≤ k < off t + scap t)%nat.

(** Two structs that share no storage. *)
Definition apart (G H : group) : Prop :=
  ¬ shares (cards G) (cards H) ∧ ¬ shares (flipd G) (flipd H).

(** [keeps W m m']: every array of [m] is still there in [m'], as long as
    it was, and with its former element at every place outside [W]. *)
Definition keeps {A} (W : positive → nat → Prop) (m m' : mem A) : Prop :=
  ∀ a old, m !! a = Some old →
    ∃ new, m' !! a = Some new ∧ length new = length old ∧
           ∀ k : nat, ¬ W a k → new !! k = old !! k.

(** The places of a slice, and those between its length and its
    capacity. *)
Definition window (s : sliceval) : positive → nat → Prop :=
  λ a k, a = arr s ∧ (off s ≤ k < off s + slen s)%nat.
Definition spare (s : sliceval) : positive → nat → Prop :=
  λ a k, a = arr s ∧ (off s + slen s ≤ k < off s + scap s)%nat.
Definition nowhere : positive → nat → Prop := λ _ _, False.

(** From [σ] to [σ'] the group at [h] has stayed as it was: it is the same
    struct and shows the same cards and directions; and in [σ'] it shares
    no storage with the group at [g]. *)
Definition untouched (σ σ' : store) (g h : ptr) : Prop :=
  groups σ' !! h = groups σ !! h ∧
  (∃ c d, shown σ h = Some (c, d) ∧ shown σ' h = Some (c, d)) ∧
  (∃ G' H', groups σ' !! g = Some G' ∧ groups σ' !! h = Some H' ∧
            apart G' H').

End Storage.

(** ** Vocabulary of the statements *)

(** The number of cards that [Draw(n)] and [DrawBottom(n)] take. *)
Definition clamp (g : group) (n : Z) : nat :=
  Z.to_nat (Z.min (Z.max n 0) (Impl.Len g)).

(** What a sort through [sort.Interface] leaves behind: no later position
    is [Less] than an earlier one. *)
Definition in_order (g : group) : Prop :=
  ∀ i j : Z, 0 ≤ i < j → j < Impl.Len g → Impl.Less g j i = Some false.

(** The position at which [InsertAt(i, ng)] puts the cards. *)
Definition insert_point (g : group) (i : Z) : nat :=
  Z.to_nat (Z.min (Z.max (Impl.index g i) 0) (Impl.Len g)).

(** The cards of a deck by suit, and by rank within a suit. *)
Definition suit_major : list Card :=
  concat ((λ suit, (λ rank, card rank suit) <$>
             [Ace; Two; Three; Four; Five; Six; Seven; Eight; Nine; Ten;
              Jack; Queen; King]) <$>
          [Spades; Hearts; Diamonds; Clubs]).

(** A card of the deck or a joker: a rank from Ace to King with a suit from
    Spades to Clubs, or the joker. *)
Definition proper (c : Card) : Prop :=
  match c with
  | card r s => (Ace ≤ r ≤ King) ∧ (Spades ≤ s ≤ Clubs)
  | joker => True
  | nilCard => False
  end.

(** * Properties *)

(** ** Slices *)

Ltac zbool :=
  repeat match goal with
    | |- context [?a <=? ?b] => destruct (Z.leb_spec a b)
    | |- context [?a <? ?b] => destruct (Z.ltb_spec a b)
    | |- context [?a >? ?b] => rewrite (Z.gtb_ltb a b)
    | |- context [?a >=? ?b] => rewrite (Z.geb_leb a b)
    | |- context [?a =? ?b] => destruct (Z.eqb_spec a b)
    end;
  simpl; try done; try lia.

Section GoSliceFacts.
Context {A : Type}.
Implicit Types s dst src w : list A.

Lemma len_nonneg s : 0 ≤ len s.
Proof. unfold len. lia. Qed.

Lemma at_in s (i : Z) : 0 ≤ i → at_ s i = s !! Z.to_nat i.
Proof. intros. unfold at_. zbool. Qed.

Lemma at_nat s (k : nat) : at_ s (Z.of_nat k) = s !! k.
Proof. rewrite at_in by lia. by rewrite Nat2Z.id. Qed.

Lemma set_at_in s (i : Z) x :
  0 ≤ i < len s → set_at s i x = Some (<[Z.to_nat i := x]> s).
Proof. intros. unfold set_at. zbool. Qed.

Lemma slice_in s (i j : Z) :
  0 ≤ i ≤ j → j ≤ len s →
  slice s i j = Some (take (Z.to_nat (j - i)) (drop (Z.to_nat i) s)).
Proof. intros. unfold slice. zbool. Qed.

Lemma slice_from_in s (i : Z) :
  0 ≤ i ≤ len s → slice_from s i = Some (drop (Z.to_nat i) s).
Proof.
  intros. unfold slice_from. rewrite slice_in by lia. f_equal.
  apply take_ge. rewrite length_drop. unfold len. lia.
Qed.

Lemma slice_to_in s (j : Z) :
  0 ≤ j ≤ len s → slice_to s j = Some (take (Z.to_nat j) s).
Proof.
  intros. unfold slice_to. rewrite slice_in by lia.
  by rewrite Z.sub_0_r, drop_0.
Qed.

Lemma make_in (z : A) (n : Z) :
  0 ≤ n → make z n = Some (replicate (Z.to_nat n) z).
Proof. intros. unfold make. zbool. Qed.

Lemma copy_all dst src : length dst = length src → copy dst src = src.
Proof.
  intros E. unfold copy. rewrite E, take_ge, drop_ge by lia.
  apply app_nil_r.
Qed.

Lemma copy_fresh (z : A) s : copy (replicate (length s) z) s = s.
Proof. apply copy_all. by rewrite length_replicate. Qed.

Lemma copy_prefix dst src :
  (length src ≤ length dst)%nat → copy dst src = src ++ drop (length src) dst.
Proof. intros. unfold copy. by rewrite take_ge by lia. Qed.

Lemma copy_from_in s (i : Z) src :
  0 ≤ i → i + len src ≤ len s →
  copy_from s i src =
    Some (take (Z.to_nat i) s ++ src ++ drop (Z.to_nat i + length src) s).
Proof.
  intros Hi Hs. pose proof (len_nonneg src). unfold copy_from.
  rewrite slice_from_in by lia. simpl. unfold splice. f_equal. f_equal.
  rewrite copy_prefix by (rewrite length_drop; unfold len in *; lia).
  rewrite drop_drop. unfold len. by rewrite Nat2Z.id, (drop_all s), app_nil_r.
Qed.

(** Exchanging two elements of a slice. *)
Lemma exchange_in s (p q : Z) :
  0 ≤ p < len s → 0 ≤ q < len s →
  ∃ s', Impl.exchange s p q = Some s' ∧ length s' = length s ∧
    ∀ k : nat, s' !! k =
      if decide (k = Z.to_nat q) then s !! Z.to_nat p
      else if decide (k = Z.to_nat p) then s !! Z.to_nat q
      else s !! k.
Proof.
  intros Hp Hq. unfold Impl.exchange, len in *.
  rewrite !at_in by lia.
  destruct (lookup_lt_is_Some_2 s (Z.to_nat q)) as [x Hx]; [lia|].
  destruct (lookup_lt_is_Some_2 s (Z.to_nat p)) as [y Hy]; [lia|].
  rewrite Hx, Hy. simpl.
  rewrite set_at_in by (unfold len; lia). simpl.
  rewrite set_at_in by (unfold len; rewrite length_insert; lia).
  eexists. split; [done|]. split; [by rewrite !length_insert|].
  intros k. repeat case_decide; subst.
  - by rewrite list_lookup_insert_eq by (rewrite length_insert; lia).
  - rewrite list_lookup_insert_ne by done.
    by rewrite list_lookup_insert_eq by lia.
  - by rewrite !list_lookup_insert_ne by done.
Qed.

End GoSliceFacts.

(** The loop of [flip] that reverses a window: run from [h - 1] down to [0]
    it mirrors the outer [h] positions on each side. *)
Lemma mirror_loop {A B} (h : nat) : ∀ (c : list A) (d : list B),
  length d = length c → (2 * h ≤ length c)%nat →
  ∃ c' d',
    for_each (λ p '(c, d),
                let q := len c - 1 - p in
                c ← Impl.exchange c p q;
                d ← Impl.exchange d p q;
                Some (c, d))
      (downfrom (Z.of_nat h)) (c, d) = Some (c', d') ∧
    length c' = length c ∧ length d' = length c ∧
    (∀ k : nat, c' !! k =
       if decide (k < h ∨ length c - h ≤ k < length c)%nat
       then c !! (length c - 1 - k)%nat else c !! k) ∧
    (∀ k : nat, d' !! k =
       if decide (k < h ∨ length c - h ≤ k < length c)%nat
       then d !! (length c - 1 - k)%nat else d !! k).
Proof.
  induction h as [|h IH]; intros c d Hd Hh.
  - exists c, d. repeat split; try done.
    + intros k. case_decide; [lia|done].
    + intros k. case_decide; [lia|done].
  - unfold downfrom. rewrite seqZ_S, reverse_snoc.
    simpl. rewrite Z.add_0_l.
    destruct (exchange_in c (Z.of_nat h) (len c - 1 - Z.of_nat h))
      as (c1 & -> & Lc1 & Pc1); [unfold len; lia..|].
    simpl.
    destruct (exchange_in d (Z.of_nat h) (len c - 1 - Z.of_nat h))
      as (d1 & -> & Ld1 & Pd1); [unfold len; lia..|].
    simpl.
    destruct (IH c1 d1) as (c' & d' & E & Lc' & Ld' & Pc' & Pd'); [lia..|].
    exists c', d'. split; [exact E|]. split; [lia|]. split; [lia|].
    replace (Z.to_nat (len c - 1 - Z.of_nat h)) with (length c - 1 - h)%nat
      in * by (unfold len; lia).
    rewrite Nat2Z.id in *. rewrite Lc1 in *.
    split; intros k.
    + rewrite Pc', !Pc1.
      repeat case_decide; try lia; try done; f_equal; lia.
    + rewrite Pd', !Pd1.
      repeat case_decide; try lia; try done; f_equal; lia.
Qed.

(** Run over the whole window, the loop reverses it. *)
Lemma mirror_all {A B} (c : list A) (d : list B) :
  length d = length c →
  for_each (λ p '(c, d),
              let q := len c - 1 - p in
              c ← Impl.exchange c p q;
              d ← Impl.exchange d p q;
              Some (c, d))
    (downfrom (len c ÷ 2)) (c, d) = Some (reverse c, reverse d).
Proof.
  intros Hd.
  assert (len c ÷ 2 = Z.of_nat (length c / 2)) as ->.
  { unfold len. rewrite Z.quot_div_nonneg by lia.
    by rewrite (Nat2Z.inj_div _ 2). }
  pose proof (Nat.div_mod_eq (length c) 2) as Hm.
  pose proof (Nat.mod_upper_bound (length c) 2) as Hr.
  destruct (mirror_loop (length c / 2) c d) as (c' & d' & E & Lc & Ld & Pc & Pd);
    [done|lia|].
  rewrite E. f_equal. f_equal.
  - apply list_eq. intros k. rewrite Pc.
    destruct (decide (k < length c)%nat) as [Hk|Hk].
    + rewrite reverse_lookup by done.
      case_decide; f_equal; lia.
    + rewrite (lookup_ge_None_2 (reverse c)) by (rewrite length_reverse; lia).
      case_decide; apply lookup_ge_None_2; lia.
  - apply list_eq. intros k. rewrite Pd.
    destruct (decide (k < length c)%nat) as [Hk|Hk].
    + rewrite reverse_lookup by lia.
      case_decide; f_equal; lia.
    + rewrite (lookup_ge_None_2 (reverse d)) by (rewrite length_reverse; lia).
      case_decide; apply lookup_ge_None_2; lia.
Qed.

(** The loop of [flip] that toggles the directions of [k] positions from
    position [i] on. *)
Lemma toggle_loop (k : nat) : ∀ (i : nat) (d : list bool),
  (i + k ≤ length d)%nat →
  ∃ d',
    for_each (λ n d, b ← at_ d n; set_at d n (negb b))
      (seqZ (Z.of_nat i) (Z.of_nat k)) d = Some d' ∧
    length d' = length d ∧
    ∀ p : nat, d' !! p =
      if decide (i ≤ p < i + k)%nat then negb <$> d !! p else d !! p.
Proof.
  induction k as [|k IH]; intros i d Hik.
  - exists d. repeat split; try done.
    intros p. case_decide; [lia|done].
  - rewrite seqZ_cons by lia. simpl.
    rewrite at_nat.
    destruct (lookup_lt_is_Some_2 d i) as [b Hb]; [lia|].
    rewrite Hb. simpl.
    rewrite set_at_in by (unfold len; lia). simpl.
    rewrite Nat2Z.id.
    replace (Z.succ (Z.of_nat i)) with (Z.of_nat (S i)) by lia.
    replace (Z.pred (Z.of_nat (S k))) with (Z.of_nat k) by lia.
    destruct (IH (S i) (<[i := negb b]> d)) as (d' & E & L & P).
    { rewrite length_insert. lia. }
    rewrite E. exists d'. split; [done|].
    rewrite length_insert in L. split; [done|].
    intros p. rewrite P.
    destruct (decide (p = i)) as [->|Hne].
    + rewrite list_lookup_insert_eq by lia. rewrite Hb.
      repeat case_decide; try lia; done.
    + rewrite list_lookup_insert_ne by done.
      repeat case_decide; try lia; done.
Qed.

(** Lookup in a window and in an array whose window was rewritten. *)
Lemma lookup_window {A} (s : list A) (i n q : nat) :
  (i + n ≤ length s)%nat →
  take n (drop i s) !! q = if decide (q < n)%nat then s !! (i + q)%nat else None.
Proof.
  intros. case_decide.
  - by rewrite lookup_take_lt, lookup_drop.
  - by rewrite lookup_take_ge by lia.
Qed.

Lemma lookup_splice {A} (s w : list A) (i j p : nat) :
  (i ≤ j ≤ length s)%nat → length w = (j - i)%nat →
  splice s (Z.of_nat i) (Z.of_nat j) w !! p =
    if decide (i ≤ p < j)%nat then w !! (p - i)%nat else s !! p.
Proof.
  intros Hij Hw. unfold splice. rewrite !Nat2Z.id.
  destruct (decide (p < i)%nat).
  - rewrite lookup_app_l by (rewrite length_take; lia).
    rewrite lookup_take_lt by done. case_decide; [lia|done].
  - rewrite lookup_app_r by (rewrite length_take; lia).
    rewrite length_take_le by lia.
    case_decide.
    + by rewrite lookup_app_l by lia.
    + rewrite lookup_app_r by lia. rewrite lookup_drop. f_equal. lia.
Qed.

Lemma length_splice {A} (s w : list A) (i j : nat) :
  (i ≤ j ≤ length s)%nat → length w = (j - i)%nat →
  length (splice s (Z.of_nat i) (Z.of_nat j) w) = length s.
Proof.
  intros. unfold splice.
  rewrite !length_app, length_take, length_drop, !Nat2Z.id. lia.
Qed.

(** ** What [flip] does, position by position *)

Lemma flip_spec (g : group) (i j : nat) :
  aligned g → (i ≤ j ≤ length (cards g))%nat →
  ∃ g', Impl.flip g (Z.of_nat i) (Z.of_nat j) = Some g' ∧
    length (cards g') = length (cards g) ∧
    length (flipd g') = length (flipd g) ∧
    ∀ p : nat,
      cards g' !! p =
        (if decide (i ≤ p < j)%nat then cards g !! (i + j - 1 - p)%nat
         else cards g !! p) ∧
      flipd g' !! p =
        (if decide (i ≤ p < j)%nat then negb <$> flipd g !! (i + j - 1 - p)%nat
         else flipd g !! p).
Proof.
  intros Hal Hij. unfold aligned in Hal. unfold Impl.flip, upto.
  destruct (toggle_loop (j - i) i (flipd g)) as (fl & E & Lfl & Pfl); [lia|].
  replace (Z.of_nat j - Z.of_nat i) with (Z.of_nat (j - i)) by lia.
  rewrite E. simpl.
  rewrite !slice_in by (unfold len; lia). simpl.
  replace (Z.of_nat j - Z.of_nat i) with (Z.of_nat (j - i)) by lia.
  rewrite !Nat2Z.id.
  rewrite mirror_all
    by (rewrite !length_take, !length_drop; lia).
  simpl. eexists. split; [done|]. simpl.
  assert (length (take (j - i) (drop i (cards g))) = (j - i)%nat) as Lc
    by (rewrite length_take, length_drop; lia).
  assert (length (take (j - i) (drop i fl)) = (j - i)%nat) as Ld
    by (rewrite length_take, length_drop; lia).
  split; [by rewrite length_splice by (rewrite ?length_reverse; lia)|].
  split; [by rewrite length_splice by (rewrite ?length_reverse; lia)|].
  intros p.
  rewrite !lookup_splice by (rewrite ?length_reverse; lia).
  case_decide as Hp.
  - rewrite !reverse_lookup by lia. rewrite Lc, Ld.
    rewrite !lookup_window by lia.
    rewrite !decide_True by lia. rewrite Pfl, decide_True by lia.
    split; do 2 f_equal; lia.
  - rewrite Pfl. by rewrite decide_False by lia.
Qed.

(** The same for [Flip], whose arguments go through [index] first. *)
Lemma Flip_spec (g : group) (i j : Z) :
  aligned g →
  0 ≤ Impl.index g i ≤ Impl.index g j → Impl.index g j ≤ Impl.Len g →
  ∃ g', Impl.Flip g i j = Some g' ∧
    length (cards g') = length (cards g) ∧
    length (flipd g') = length (flipd g) ∧
    ∀ p : Z, 0 ≤ p →
      at_ (cards g') p =
        (if decide (Impl.index g i ≤ p < Impl.index g j)
         then at_ (cards g) (Impl.index g i + Impl.index g j - 1 - p)
         else at_ (cards g) p) ∧
      at_ (flipd g') p =
        (if decide (Impl.index g i ≤ p < Impl.index g j)
         then negb <$> at_ (flipd g) (Impl.index g i + Impl.index g j - 1 - p)
         else at_ (flipd g) p).
Proof.
  intros Hal Hij Hj. unfold Impl.Flip, Impl.Len, len in *.
  set (i' := Impl.index g i) in *. set (j' := Impl.index g j) in *.
  destruct (flip_spec g (Z.to_nat i') (Z.to_nat j') Hal)
    as (g' & E & Lc & Ld & P); [lia|].
  rewrite !Z2Nat.id in E by lia.
  exists g'. split; [done|]. split; [done|]. split; [done|].
  intros p Hp.
  rewrite (at_in (cards g') p), (at_in (flipd g') p) by lia.
  destruct (P (Z.to_nat p)) as [-> ->].
  case_decide; case_decide; try lia.
  - rewrite !at_in by lia. split; do 2 f_equal; lia.
  - by rewrite !at_in by lia.
Qed.

(** ** C1 *)

(** C1.  [Flip(i, j)] on a range that is valid once [i] and [j] have been
    normalised, [0 <= i <= j <= Len()], does not panic and rearranges
    exactly the positions of the range: the card at position [i+k]
    afterwards is the card that was at [j-1-k], with its direction
    negated; every other position keeps its card and its direction.  On
    [2S,3S,4S], all face-down, [Flip(0,3)] gives [4S,3S,2S], all face-up,
    and on a group of one card [Flip(0,1)] toggles the direction and keeps
    the card. *)
Theorem Flip_reverses_and_toggles_range :
  (∀ (g : group) (i j : Z),
     aligned g →
     0 ≤ Impl.index g i ≤ Impl.index g j → Impl.index g j ≤ Impl.Len g →
     ∃ g', Impl.Flip g i j = Some g' ∧
       aligned g' ∧ Impl.Len g' = Impl.Len g ∧
       (∀ k : Z, 0 ≤ k < Impl.index g j - Impl.index g i →
          at_ (cards g') (Impl.index g i + k) =
            at_ (cards g) (Impl.index g j - 1 - k) ∧
          at_ (flipd g') (Impl.index g i + k) =
            negb <$> at_ (flipd g) (Impl.index g j - 1 - k)) ∧
       (∀ p : Z, 0 ≤ p → ¬ (Impl.index g i ≤ p < Impl.index g j) →
          at_ (cards g') p = at_ (cards g) p ∧
          at_ (flipd g') p = at_ (flipd g) p)) ∧
  Impl.Flip
    (mkgroup [card Two Spades; card Three Spades; card Four Spades]
             [false; false; false]) 0 3 =
    Some (mkgroup [card Four Spades; card Three Spades; card Two Spades]
                  [true; true; true]) ∧
  (∀ (c : Card) (b : bool),
     Impl.Flip (mkgroup [c] [b]) 0 1 = Some (mkgroup [c] [negb b])).
Proof.
  split; [|split; [reflexivity|intros c b; reflexivity]].
  intros g i j Hal Hij Hj.
  destruct (Flip_spec g i j Hal Hij Hj) as (g' & E & Lc & Ld & P).
  exists g'. split; [done|].
  split; [unfold aligned in *; lia|].
  split; [unfold Impl.Len, len; lia|].
  split.
  - intros k Hk.
    destruct (P (Impl.index g i + k)) as [-> ->]; [lia|].
    rewrite !decide_True by lia.
    replace (Impl.index g i + Impl.index g j - 1 - (Impl.index g i + k))
      with (Impl.index g j - 1 - k) by lia.
    done.
  - intros p Hp Hout.
    destruct (P p Hp) as [-> ->]. by rewrite !decide_False by done.
Qed.

Lemma Flip_reverses_and_toggles_range_witness :
  ∃ g', Impl.Flip (mkgroup [card Ace Hearts; joker; card King Clubs]
                           [false; true; false]) (-2) 3 = Some g' ∧
        aligned g' ∧ Impl.Len g' = 3.
Proof.
  destruct (proj1 Flip_reverses_and_toggles_range
              (mkgroup [card Ace Hearts; joker; card King Clubs]
                       [false; true; false]) (-2) 3)
    as (g' & E & Hal & Hlen & _).
  - reflexivity.
  - vm_compute. split; discriminate.
  - vm_compute. discriminate.
  - exists g'. split; [exact E|]. split; [exact Hal|exact Hlen].
Defined.

(** ** C2 *)

Lemma at_ext {A} (s w : list A) :
  (∀ p : Z, 0 ≤ p → at_ s p = at_ w p) → s = w.
Proof.
  intros H. apply list_eq. intros k.
  rewrite <- !at_nat. apply H. lia.
Qed.

Lemma index_same_len (g g' : group) (i : Z) :
  length (cards g') = length (cards g) → Impl.index g' i = Impl.index g i.
Proof. intros E. unfold Impl.index, len. by rewrite E. Qed.

Lemma FlipAll_is_Flip (g : group) :
  Impl.FlipAll g = Impl.Flip g 0 (len (cards g)).
Proof.
  unfold Impl.FlipAll, Impl.Flip, Impl.index.
  pose proof (len_nonneg (cards g)). simpl. by zbool.
Qed.

(** C2.  On a range that is valid once normalised, [Flip(i, j)] applied
    twice gives back the group as it was, cards and directions alike; so
    does [FlipAll] applied twice. *)
Theorem Flip_twice_restores :
  (∀ (g : group) (i j : Z),
     aligned g →
     0 ≤ Impl.index g i ≤ Impl.index g j → Impl.index g j ≤ Impl.Len g →
     ∃ g', Impl.Flip g i j = Some g' ∧ Impl.Flip g' i j = Some g) ∧
  (∀ g : group,
     aligned g →
     ∃ g', Impl.FlipAll g = Some g' ∧ Impl.FlipAll g' = Some g).
Proof.
  assert (∀ (g : group) (i j : Z),
     aligned g →
     0 ≤ Impl.index g i ≤ Impl.index g j → Impl.index g j ≤ Impl.Len g →
     ∃ g', Impl.Flip g i j = Some g' ∧ length (cards g') = length (cards g) ∧
           Impl.Flip g' i j = Some g) as Twice.
  { intros g i j Hal Hij Hj.
    destruct (Flip_spec g i j Hal Hij Hj) as (g' & E & Lc & Ld & P).
    exists g'. split; [done|]. split; [done|].
    pose proof (index_same_len g g' i Lc) as Ei.
    pose proof (index_same_len g g' j Lc) as Ej.
    destruct (Flip_spec g' i j) as (g'' & E' & Lc' & Ld' & P').
    { unfold aligned in *. lia. }
    { by rewrite Ei, Ej. }
    { rewrite Ej. unfold Impl.Len, len in *. lia. }
    rewrite E'. f_equal.
    rewrite Ei, Ej in P'.
    remember (Impl.index g i) as a eqn:Ha.
    remember (Impl.index g j) as b eqn:Hb.
    clear Ha Hb Ei Ej E E'.
    destruct g as [c d], g'' as [c'' d'']. simpl in *. f_equal.
    - apply at_ext. intros p Hp.
      rewrite (proj1 (P' p Hp)). case_decide.
      + rewrite (proj1 (P (a + b - 1 - p) ltac:(lia))), decide_True by lia.
        f_equal. lia.
      + by rewrite (proj1 (P p Hp)), decide_False by done.
    - apply at_ext. intros p Hp.
      rewrite (proj2 (P' p Hp)). case_decide.
      + rewrite (proj2 (P (a + b - 1 - p) ltac:(lia))), decide_True by lia.
        replace (a + b - 1 - (a + b - 1 - p)) with p by lia.
        destruct (at_ d p) as [[]|]; done.
      + by rewrite (proj2 (P p Hp)), decide_False by done. }
  split.
  - intros g i j Hal Hij Hj.
    destruct (Twice g i j Hal Hij Hj) as (g' & E & _ & E'). by exists g'.
  - intros g Hal. pose proof (len_nonneg (cards g)) as Hn.
    destruct (Twice g 0 (len (cards g)) Hal) as (g' & E & L & E').
    { unfold Impl.index. by zbool. }
    { unfold Impl.index, Impl.Len. by zbool. }
    exists g'. rewrite !FlipAll_is_Flip.
    split; [done|]. unfold len. by rewrite L.
Qed.

Lemma Flip_twice_restores_witness :
  ∃ g', Impl.Flip (mkgroup [card Ace Hearts; joker; card King Clubs]
                           [false; true; false]) (-2) 3 = Some g' ∧
        Impl.Flip g' (-2) 3 =
          Some (mkgroup [card Ace Hearts; joker; card King Clubs]
                        [false; true; false]).
Proof.
  apply (proj1 Flip_twice_restores
           (mkgroup [card Ace Hearts; joker; card King Clubs]
                    [false; true; false]) (-2) 3).
  - reflexivity.
  - vm_compute. split; discriminate.
  - vm_compute. discriminate.
Defined.

(** ** Drawing *)

Lemma remove_window {A} (s : list A) (i j : nat) :
  (i ≤ j ≤ length s)%nat →
  take (length s - (j - i))
    (take i s ++ drop j s ++ drop (i + length (drop j s)) s) =
  take i s ++ drop j s.
Proof.
  intros H. rewrite app_assoc. apply take_app_length'.
  rewrite length_app, length_take, length_drop. lia.
Qed.

(** [drawAt] on a valid range: the new group holds the window, the
    receiver what is left, closed up. *)
Lemma drawAt_spec (g : group) (i j : nat) :
  aligned g → (i ≤ j ≤ length (cards g))%nat →
  Impl.drawAt g (Z.of_nat i) (Z.of_nat j) =
    Some (mkgroup (take (j - i) (drop i (cards g)))
                  (take (j - i) (drop i (flipd g))),
          mkgroup (take i (cards g) ++ drop j (cards g))
                  (take i (flipd g) ++ drop j (flipd g))).
Proof.
  intros Hal Hij. unfold aligned in Hal. unfold Impl.drawAt.
  replace (Z.of_nat j - Z.of_nat i) with (Z.of_nat (j - i)) by lia.
  rewrite !make_in by lia. simpl.
  rewrite !slice_in by (unfold len; lia). simpl.
  replace (Z.of_nat j - Z.of_nat i) with (Z.of_nat (j - i)) by lia.
  rewrite !Nat2Z.id.
  rewrite !copy_all
    by (rewrite length_replicate, length_take, length_drop; lia).
  rewrite !slice_from_in by (unfold len; lia). simpl.
  rewrite !copy_from_in by (unfold len; rewrite ?length_drop; lia). simpl.
  rewrite !Nat2Z.id.
  set (gc := take i (cards g) ++ drop j (cards g) ++
             drop (i + length (drop j (cards g))) (cards g)).
  set (gd := take i (flipd g) ++ drop j (flipd g) ++
             drop (i + length (drop j (flipd g))) (flipd g)).
  assert (length gc = length (cards g)) as Lgc.
  { unfold gc. rewrite !length_app, length_take, !length_drop. lia. }
  assert (length gd = length (flipd g)) as Lgd.
  { unfold gd. rewrite !length_app, length_take, !length_drop. lia. }
  rewrite copy_from_in
    by (unfold len; rewrite ?length_replicate, ?Lgc; lia).
  simpl.
  rewrite (slice_to_in gd) by (unfold len; rewrite Lgd; lia).
  rewrite slice_to_in; cycle 1.
  { unfold len. rewrite !length_app, length_take, length_replicate,
      length_drop, Lgc. lia. }
  simpl. do 3 f_equal.
  - replace (Z.to_nat (len _ - Z.of_nat (j - i)))
      with (length (take (Z.to_nat (len gc - Z.of_nat (j - i))) gc)).
    + rewrite take_app_length. unfold len. rewrite Lgc.
      replace (Z.to_nat (Z.of_nat (length (cards g)) - Z.of_nat (j - i)))
        with (length (cards g) - (j - i))%nat by lia.
      by apply remove_window.
    + unfold len. rewrite !length_app, !length_take, length_replicate,
        length_drop, Lgc. lia.
  - unfold len. rewrite Lgd.
    replace (Z.to_nat (Z.of_nat (length (flipd g)) - Z.of_nat (j - i)))
      with (length (flipd g) - (j - i))%nat by lia.
    apply remove_window. lia.
Qed.

Lemma clamp_le (g : group) (n : Z) : (clamp g n ≤ length (cards g))%nat.
Proof. unfold clamp, Impl.Len, len. lia. Qed.

Lemma Draw_spec (g : group) (n : Z) :
  aligned g →
  Impl.Draw g n =
    Some (mkgroup (drop (length (cards g) - clamp g n) (cards g))
                  (drop (length (cards g) - clamp g n) (flipd g)),
          mkgroup (take (length (cards g) - clamp g n) (cards g))
                  (take (length (cards g) - clamp g n) (flipd g))).
Proof.
  intros Hal. pose proof (clamp_le g n) as Hle. unfold Impl.Draw.
  set (m := if _ >? _ then _ else _).
  assert (m = Z.of_nat (clamp g n)) as ->.
  { unfold m, clamp, Impl.Len, len. zbool; zbool. }
  replace (len (cards g) - Z.of_nat (clamp g n))
    with (Z.of_nat (length (cards g) - clamp g n)) by (unfold len; lia).
  unfold len. rewrite drawAt_spec by (done || lia).
  unfold aligned in Hal.
  rewrite !take_ge by (rewrite length_drop; lia).
  rewrite (drop_all (cards g)), Hal, (drop_all (flipd g)).
  by rewrite !app_nil_r.
Qed.

Lemma DrawBottom_spec (g : group) (n : Z) :
  aligned g →
  Impl.DrawBottom g n =
    Some (mkgroup (take (clamp g n) (cards g)) (take (clamp g n) (flipd g)),
          mkgroup (drop (clamp g n) (cards g)) (drop (clamp g n) (flipd g))).
Proof.
  intros Hal. pose proof (clamp_le g n) as Hle. unfold Impl.DrawBottom.
  set (m := if _ >? _ then _ else _).
  assert (m = Z.of_nat (clamp g n)) as ->.
  { unfold m, clamp, Impl.Len, len. zbool; zbool. }
  change 0 with (Z.of_nat 0).
  rewrite drawAt_spec by (done || lia).
  by rewrite Nat.sub_0_r, !drop_0.
Qed.

(** ** C5 *)

(** C5.  [Draw(n)] and [DrawBottom(n)] never panic on a group that keeps
    the invariant.  With [m = min(max(n, 0), Len())], [Draw] splits the
    group into what stays below and the [m] cards drawn from the top,
    [DrawBottom] into the [m] cards drawn from the bottom and what stays
    above, cards and directions in their former order; the receiver is
    left with [Len() - m] cards and the new group has [m]. *)
Theorem Draw_DrawBottom_clamp (g : group) (n : Z) :
  aligned g →
  (∃ ng g',
     Impl.Draw g n = Some (ng, g') ∧
     Impl.Len ng = Z.min (Z.max n 0) (Impl.Len g) ∧
     Impl.Len g' = Impl.Len g - Z.min (Z.max n 0) (Impl.Len g) ∧
     aligned ng ∧ aligned g' ∧
     cards g = cards g' ++ cards ng ∧
     flipd g = flipd g' ++ flipd ng) ∧
  (∃ ng g',
     Impl.DrawBottom g n = Some (ng, g') ∧
     Impl.Len ng = Z.min (Z.max n 0) (Impl.Len g) ∧
     Impl.Len g' = Impl.Len g - Z.min (Z.max n 0) (Impl.Len g) ∧
     aligned ng ∧ aligned g' ∧
     cards g = cards ng ++ cards g' ∧
     flipd g = flipd ng ++ flipd g').
Proof.
  intros Hal. pose proof (clamp_le g n) as Hle.
  assert (Z.min (Z.max n 0) (Impl.Len g) = Z.of_nat (clamp g n)) as ->.
  { unfold clamp, Impl.Len, len. lia. }
  unfold aligned in *. split.
  - rewrite (Draw_spec g n Hal). eexists _, _. split; [done|].
    unfold Impl.Len, len. simpl.
    rewrite !length_drop, !length_take, !take_drop.
    repeat split; lia.
  - rewrite (DrawBottom_spec g n Hal). eexists _, _. split; [done|].
    unfold Impl.Len, len. simpl.
    rewrite !length_drop, !length_take, !take_drop.
    repeat split; lia.
Qed.

Lemma Draw_DrawBottom_clamp_witness :
  (∃ ng g',
     Impl.Draw (mkgroup [card Ace Hearts; joker; card King Clubs]
                        [false; true; false]) 7 = Some (ng, g') ∧
     Impl.Len ng = 3 ∧ Impl.Len g' = 0) ∧
  (∃ ng g',
     Impl.DrawBottom (mkgroup [card Ace Hearts; joker; card King Clubs]
                              [false; true; false]) (-1) = Some (ng, g') ∧
     Impl.Len ng = 0 ∧ Impl.Len g' = 3).
Proof.
  split.
  - destruct (Draw_DrawBottom_clamp
                (mkgroup [card Ace Hearts; joker; card King Clubs]
                         [false; true; false]) 7)
      as [(ng & g' & E & L1 & L2 & _) _]; [reflexivity|].
    exists ng, g'. split; [exact E|]. split; [exact L1|exact L2].
  - destruct (Draw_DrawBottom_clamp
                (mkgroup [card Ace Hearts; joker; card King Clubs]
                         [false; true; false]) (-1))
      as [_ (ng & g' & E & L1 & L2 & _)]; [reflexivity|].
    exists ng, g'. split; [exact E|]. split; [exact L1|exact L2].
Defined.

(** ** C6 *)

(** C6.  [Card(i)] turns a negative [i] into [i + Len()] and then returns
    the card at that position; when the position is still outside
    [0 .. Len()-1] it returns nil.  It returns for every group and every
    index: in no case does it panic.  On a group that is not empty
    [Card(-1)] is [Card(Len()-1)]; on the empty group every index gives
    nil. *)
Theorem Card_normalises_then_checks (g : group) (i : Z) :
  let i' := if i <? 0 then i + Impl.Len g else i in
  (0 ≤ i' < Impl.Len g →
     ∃ c, at_ (cards g) i' = Some c ∧ Impl.Card g i = Some c) ∧
  (¬ (0 ≤ i' < Impl.Len g) → Impl.Card g i = Some nilCard) ∧
  (0 < Impl.Len g →
     ∃ c, Impl.Card g (-1) = Some c ∧ Impl.Card g (Impl.Len g - 1) = Some c) ∧
  Impl.Card (mkgroup [] []) i = Some nilCard.
Proof.
  assert (∀ k, 0 ≤ k < Impl.Len g → ∃ c, at_ (cards g) k = Some c) as In.
  { intros k Hk. unfold Impl.Len, len in Hk. rewrite at_in by lia.
    apply lookup_lt_is_Some_2. lia. }
  intros i'. unfold Impl.Card, Impl.index. fold (Impl.Len g). fold i'.
  repeat split.
  - intros Hi. destruct (In i' Hi) as [c Hc]. exists c. split; [done|].
    by zbool.
  - intros Hi. by zbool.
  - intros Hn. destruct (In (Impl.Len g - 1)) as [c Hc]; [lia|].
    exists c. simpl. fold (Impl.Len g).
    destruct (Z.ltb_spec (Impl.Len g - 1) 0); [lia|].
    replace (-1 + Impl.Len g) with (Impl.Len g - 1) by lia.
    split; zbool.
  - cbn [cards]. change (len (@nil Card)) with 0. zbool.
Qed.

Lemma Card_normalises_then_checks_witness :
  (∃ c, at_ [card Ace Hearts; joker; card King Clubs] (-2 + 3) = Some c ∧
        Impl.Card (mkgroup [card Ace Hearts; joker; card King Clubs]
                           [false; true; false]) (-2) = Some c) ∧
  Impl.Card (mkgroup [card Ace Hearts; joker; card King Clubs]
                     [false; true; false]) (-4) = Some nilCard ∧
  (∃ c, Impl.Card (mkgroup [card Ace Hearts; joker; card King Clubs]
                           [false; true; false]) (-1) = Some c ∧
        Impl.Card (mkgroup [card Ace Hearts; joker; card King Clubs]
                           [false; true; false]) 2 = Some c).
Proof.
  split; [|split].
  - refine (proj1 (Card_normalises_then_checks
             (mkgroup [card Ace Hearts; joker; card King Clubs]
                      [false; true; false]) (-2)) _).
    vm_compute. split; [discriminate|reflexivity].
  - refine (proj1 (proj2 (Card_normalises_then_checks
             (mkgroup [card Ace Hearts; joker; card King Clubs]
                      [false; true; false]) (-4))) _).
    intros [H _]. exact (H eq_refl).
  - refine (proj1 (proj2 (proj2 (Card_normalises_then_checks
             (mkgroup [card Ace Hearts; joker; card King Clubs]
                      [false; true; false]) 0))) _).
    reflexivity.
Defined.

(** ** C8 *)

Lemma Less_cases (g : group) (i j : Z) (ci cj : Card) :
  at_ (cards g) (Impl.index g i) = Some ci →
  at_ (cards g) (Impl.index g j) = Some cj →
  Impl.Less g i j =
    match ci, cj with
    | joker, card _ _ => Some true
    | card _ _, joker => Some false
    | joker, joker => Some false
    | card ri si, card rj sj =>
        Some (if si =? sj then ri <? rj else si <? sj)
    | _, _ => None
    end.
Proof.
  intros Hi Hj. unfold Impl.Less. rewrite Hi, Hj. simpl.
  destruct ci as [ri si| |], cj as [rj sj| |]; simpl; try done.
  by destruct (si =? sj).
Qed.

(** C8.  On positions that hold cards, [Less(i, j)] is true for a joker
    against a card that is not one, false for a card that is not a joker
    against a joker and for two jokers, and for two cards that are not
    jokers it compares the suits, Spades=1 < Hearts=2 < Diamonds=3 <
    Clubs=4, and within one suit the ranks.  Hence in a group that a sort
    with this comparator has put in order every joker lies below every
    other card, and the other cards ascend by suit and then by rank. *)
Theorem Less_jokers_then_suit_then_rank :
  (∀ (g : group) (i j : Z) (ci cj : Card),
     at_ (cards g) (Impl.index g i) = Some ci →
     at_ (cards g) (Impl.index g j) = Some cj →
     (∀ r s, ci = joker → cj = card r s → Impl.Less g i j = Some true) ∧
     (∀ r s, ci = card r s → cj = joker → Impl.Less g i j = Some false) ∧
     (ci = joker → cj = joker → Impl.Less g i j = Some false) ∧
     (∀ ri si rj sj, ci = card ri si → cj = card rj sj →
        Impl.Less g i j = Some (if si =? sj then ri <? rj else si <? sj))) ∧
  (Spades = 1 ∧ Hearts = 2 ∧ Diamonds = 3 ∧ Clubs = 4) ∧
  (∀ (g : group) (i j : Z) (ci cj : Card),
     in_order g →
     0 ≤ i < j →
     at_ (cards g) i = Some ci → at_ (cards g) j = Some cj →
     (cj = joker → ci = joker) ∧
     (∀ ri si rj sj, ci = card ri si → cj = card rj sj →
        si < sj ∨ (si = sj ∧ ri ≤ rj))).
Proof.
  split; [|split; [done|]].
  - intros g i j ci cj Hi Hj.
    rewrite (Less_cases g i j ci cj Hi Hj).
    repeat split; intros; by subst.
  - intros g i j ci cj Hord Hij Hi Hj.
    assert (j < Impl.Len g) as Hlen.
    { rewrite at_in in Hj by lia. apply lookup_lt_Some in Hj.
      unfold Impl.Len, len. lia. }
    pose proof (Hord i j Hij Hlen) as HL.
    rewrite (Less_cases g j i cj ci) in HL;
      [|unfold Impl.index; by zbool..].
    split.
    + intros ->. by destruct ci.
    + intros ri si rj sj -> ->.
      destruct (Z.eqb_spec sj si); simplify_eq; lia.
Qed.

Lemma Less_jokers_then_suit_then_rank_witness :
  Impl.Less (mkgroup [joker; card King Spades; card Ace Hearts]
                     [false; false; false]) (-2) 2 = Some true ∧
  (Spades < Hearts ∨ (Spades = Hearts ∧ King ≤ Ace)).
Proof.
  split.
  - destruct (proj1 Less_jokers_then_suit_then_rank
                (mkgroup [joker; card King Spades; card Ace Hearts]
                         [false; false; false]) (-2) 2
                (card King Spades) (card Ace Hearts))
      as (_ & _ & _ & H); [reflexivity|reflexivity|].
    exact (H King Spades Ace Hearts eq_refl eq_refl).
  - destruct (proj2 (proj2 Less_jokers_then_suit_then_rank)
                (mkgroup [card King Spades; card Ace Hearts] [false; false])
                0 1 (card King Spades) (card Ace Hearts))
      as [_ H].
    + intros i j Hij Hj. unfold Impl.Len, len in Hj. simpl in Hj.
      assert (i = 0) as -> by lia. assert (j = 1) as -> by lia.
      reflexivity.
    + lia.
    + reflexivity.
    + reflexivity.
    + exact (H King Spades Ace Hearts eq_refl eq_refl).
Defined.

(** ** Running code on the heap *)

Lemma run_bind {A B} (m : M A) (k : A → M B) (σ σ' : heap) (a : A) :
  m σ = Some (a, σ') → bind m k σ = k a σ'.
Proof. intros E. unfold bind. by rewrite E. Qed.

Lemma run_load (g : ptr) (G : group) (σ : heap) :
  σ !! g = Some G → load g σ = Some (G, σ).
Proof. intros E. unfold load. by rewrite E. Qed.

Lemma run_store (g : ptr) (G G' : group) (σ : heap) :
  σ !! g = Some G → store g G' σ = Some (tt, <[g := G']> σ).
Proof. intros E. unfold store. by rewrite E. Qed.

Lemma run_reads {A} (g : ptr) (f : group → A) (G : group) (σ : heap) :
  σ !! g = Some G → reads g f σ = Some (f G, σ).
Proof. intros E. unfold reads. by rewrite (run_bind _ _ _ _ _ (run_load _ _ _ E)). Qed.

Lemma run_get_cards (g : ptr) (G : group) (σ : heap) :
  σ !! g = Some G → get_cards g σ = Some (cards G, σ).
Proof. apply (run_reads g cards). Qed.

Lemma run_get_flipd (g : ptr) (G : group) (σ : heap) :
  σ !! g = Some G → get_flipd g σ = Some (flipd G, σ).
Proof. apply (run_reads g flipd). Qed.

Lemma run_set_cards (g : ptr) (G : group) (c : list Card) (σ : heap) :
  σ !! g = Some G →
  set_cards g c σ = Some (tt, <[g := mkgroup c (flipd G)]> σ).
Proof.
  intros E. unfold set_cards.
  rewrite (run_bind _ _ _ _ _ (run_load _ _ _ E)).
  by apply run_store with G.
Qed.

Lemma run_set_flipd (g : ptr) (G : group) (d : list bool) (σ : heap) :
  σ !! g = Some G →
  set_flipd g d σ = Some (tt, <[g := mkgroup (cards G) d]> σ).
Proof.
  intros E. unfold set_flipd.
  rewrite (run_bind _ _ _ _ _ (run_load _ _ _ E)).
  by apply run_store with G.
Qed.

Lemma run_lift {A} (o : option A) (a : A) (σ : heap) :
  o = Some a → lift o σ = Some (a, σ).
Proof. by intros ->. Qed.

Lemma run_changes (g : ptr) (f : group → option group) (G G' : group) (σ : heap) :
  σ !! g = Some G → f G = Some G' →
  changes g f σ = Some (tt, <[g := G']> σ).
Proof.
  intros E F. unfold changes.
  rewrite (run_bind _ _ _ _ _ (run_load _ _ _ E)).
  rewrite (run_bind _ _ _ _ _ (run_lift _ _ _ F)).
  by apply run_store with G.
Qed.

Lemma run_draws (g : ptr) (f : group → option (group * group))
    (G NG G' : group) (σ : heap) :
  σ !! g = Some G → f G = Some (NG, G') →
  draws g f σ =
    Some (fresh (dom σ), <[g := G']> (<[fresh (dom σ) := NG]> σ)).
Proof.
  intros E F. unfold draws.
  rewrite (run_bind _ _ _ _ _ (run_load _ _ _ E)).
  rewrite (run_bind _ _ _ _ _ (run_lift _ _ _ F)).
  unfold bind at 1, alloc. simpl.
  assert (g ≠ fresh (dom σ)) as Hne.
  { intros ->. apply (is_fresh (dom σ)). apply elem_of_dom. by exists G. }
  erewrite run_bind; [done|].
  apply run_store with G. by rewrite lookup_insert_ne.
Qed.

(** A pointer that [alloc] returns is new. *)
Lemma fresh_ptr (σ : heap) : σ !! fresh (dom σ) = None.
Proof. apply not_elem_of_dom. apply is_fresh. Qed.

(** ** Inserting *)

Lemma Cards_copy (g : group) : Impl.Cards g = cards g.
Proof. apply copy_fresh. Qed.

Lemma FlippedArray_copy (g : group) : Impl.FlippedArray g = flipd g.
Proof. apply copy_fresh. Qed.

(** Filling an array that still holds zero values behind a prefix. *)
Lemma copy_from_app {A} (p f src : list A) (k : Z) :
  k = len p → (length src ≤ length f)%nat →
  copy_from (p ++ f) k src = Some (p ++ src ++ drop (length src) f).
Proof.
  intros -> Hle. rewrite copy_from_in.
  - unfold len. rewrite Nat2Z.id, take_app_length.
    by rewrite drop_app_add.
  - apply len_nonneg.
  - unfold len. rewrite length_app. lia.
Qed.

Lemma copy_zeros {A} (z : A) (n : nat) (src : list A) :
  (length src ≤ n)%nat →
  copy (replicate n z) src = src ++ replicate (n - length src) z.
Proof.
  intros. rewrite copy_prefix by (rewrite length_replicate; lia).
  by rewrite drop_replicate.
Qed.

(** The [copy] calls of [InsertAt], on one of the two slices. *)
Lemma build_at_1 {A} (z : A) (s w : list A) (k : nat) :
  (k ≤ length s)%nat →
  copy_from (copy (replicate (length s + length w) z) (take k s))
    (Z.of_nat k) w =
  Some (take k s ++ w ++ replicate (length s - k) z).
Proof.
  intros Hk.
  rewrite copy_zeros by (rewrite length_take; lia).
  rewrite length_take_le by lia.
  rewrite copy_from_app;
    [|unfold len; rewrite length_take; lia|rewrite length_replicate; lia].
  rewrite drop_replicate. do 4 f_equal. lia.
Qed.

Lemma build_at_2 {A} (z : A) (s w : list A) (k : nat) :
  (k ≤ length s)%nat →
  copy_from (take k s ++ w ++ replicate (length s - k) z)
    (Z.of_nat k + len w) (drop k s) =
  Some (take k s ++ w ++ drop k s).
Proof.
  intros Hk. rewrite !app_assoc. rewrite copy_from_app.
  - rewrite (drop_ge (replicate _ _)); [by rewrite app_nil_r|].
    rewrite length_replicate, length_drop. lia.
  - unfold len. rewrite length_app, length_take. lia.
  - rewrite length_replicate, length_drop. lia.
Qed.

(** The two [copy] calls of [InsertBottom]. *)
Lemma build_bottom {A} (z : A) (s w : list A) :
  copy_from (copy (replicate (length s + length w) z) w) (len w) s =
  Some (w ++ s).
Proof.
  rewrite copy_zeros by lia.
  rewrite copy_from_app; [|done|rewrite length_replicate; lia].
  rewrite (drop_ge (replicate _ _)); [by rewrite app_nil_r|].
  rewrite length_replicate. lia.
Qed.

Ltac heap_lookup :=
  repeat (rewrite lookup_insert_eq || rewrite lookup_insert_ne by done);
  first [reflexivity | eassumption].

Ltac run_read :=
  first [ eapply run_get_cards; heap_lookup
        | eapply run_get_flipd; heap_lookup
        | eapply run_set_cards; heap_lookup
        | eapply run_set_flipd; heap_lookup
        | eapply run_reads; heap_lookup ].

Ltac run :=
  repeat (erewrite run_bind; [|run_read]; cbv beta zeta; cbn [cards flipd]).

Ltac run_lifted E :=
  erewrite run_bind; [|apply run_lift; apply E]; cbv beta zeta.

Ltac run_make :=
  erewrite run_bind;
    [|apply run_lift; apply make_in; unfold Impl.Len, len; lia];
  cbv beta zeta.

(** [Insert] appends the cards and the directions of its argument; this
    also holds when the argument is the receiver. *)
Lemma Insert_spec (g ng : ptr) (G NG : group) (σ : heap) :
  σ !! g = Some G → σ !! ng = Some NG →
  Group.Insert g ng σ =
    Some (tt, <[g := mkgroup (cards G ++ cards NG) (flipd G ++ flipd NG)]> σ).
Proof.
  intros Hg Hng. unfold Group.Insert, Group.Cards, Group.FlippedArray.
  destruct (decide (g = ng)) as [->|Hne].
  - assert (G = NG) as -> by congruence.
    run. erewrite run_set_flipd by heap_lookup. simpl.
    by rewrite insert_insert_eq, Cards_copy, FlippedArray_copy.
  - run. erewrite run_set_flipd by heap_lookup. simpl.
    by rewrite insert_insert_eq, Cards_copy, FlippedArray_copy.
Qed.

(** [InsertBottom] with an argument other than the receiver. *)
Lemma InsertBottom_spec (g ng : ptr) (G NG : group) (σ : heap) :
  σ !! g = Some G → σ !! ng = Some NG → g ≠ ng → aligned NG →
  Group.InsertBottom g ng σ =
    Some (tt, <[g := mkgroup (cards NG ++ cards G) (flipd NG ++ flipd G)]> σ).
Proof.
  intros Hg Hng Hne Hal. unfold aligned in Hal.
  unfold Group.InsertBottom, Group.Cards, Group.FlippedArray, Group.Len.
  pose proof (len_nonneg (cards G)). pose proof (len_nonneg (cards NG)).
  pose proof (len_nonneg (flipd G)).
  run. run_make. run. rewrite Cards_copy.
  replace (Z.to_nat (len (cards G) + Impl.Len NG))
    with (length (cards G) + length (cards NG))%nat
    by (unfold Impl.Len, len; lia).
  run_lifted (build_bottom nilCard (cards G) (cards NG)).
  run. run_make. run. rewrite FlippedArray_copy.
  replace (Z.to_nat (len (flipd G) + Impl.Len NG))
    with (length (flipd G) + length (flipd NG))%nat
    by (unfold Impl.Len, len; lia).
  replace (Impl.Len NG) with (len (flipd NG))
    by (unfold Impl.Len, len; lia).
  run_lifted (build_bottom false (flipd G) (flipd NG)).
  erewrite run_set_flipd by heap_lookup. simpl.
  by rewrite insert_insert_eq.
Qed.

Ltac run_slice :=
  erewrite run_bind;
    [|apply run_lift;
      first [apply slice_to_in | apply slice_from_in];
      unfold Impl.Len, len in *; lia];
  cbv beta zeta.

Lemma insert_point_le (g : group) (i : Z) :
  (insert_point g i ≤ length (cards g))%nat.
Proof. unfold insert_point, Impl.Len, len. lia. Qed.

Lemma insert_point_0 (g : group) : insert_point g 0 = 0%nat.
Proof. unfold insert_point, Impl.index, Impl.Len, len. simpl. lia. Qed.

(** [InsertAt] with an argument other than the receiver. *)
Lemma InsertAt_spec (g ng : ptr) (i : Z) (G NG : group) (σ : heap) :
  σ !! g = Some G → σ !! ng = Some NG → g ≠ ng →
  aligned G → aligned NG →
  Group.InsertAt g i ng σ =
    Some (tt,
      <[g := mkgroup
          (take (insert_point G i) (cards G) ++ cards NG ++
             drop (insert_point G i) (cards G))
          (take (insert_point G i) (flipd G) ++ flipd NG ++
             drop (insert_point G i) (flipd G))]> σ).
Proof.
  intros Hg Hng Hne HG HNG. unfold aligned in HG, HNG.
  pose proof (insert_point_le G i) as Hk.
  unfold Group.InsertAt, Group.Cards, Group.FlippedArray, Group.Len.
  run.
  assert ((if Impl.index G i <? 0 then 0
           else if Impl.index G i >? len (cards G) then len (cards G)
                else Impl.index G i) = Z.of_nat (insert_point G i)) as ->.
  { unfold insert_point, Impl.Len, len. zbool; zbool. }
  run_make. run. run_slice. run. rewrite Cards_copy, Nat2Z.id.
  replace (Z.to_nat (len (cards G) + Impl.Len NG))
    with (length (cards G) + length (cards NG))%nat
    by (unfold Impl.Len, len; lia).
  run_lifted (build_at_1 nilCard (cards G) (cards NG) (insert_point G i) Hk).
  run. run_slice. rewrite Nat2Z.id.
  run_lifted (build_at_2 nilCard (cards G) (cards NG) (insert_point G i) Hk).
  run. run_make. run. run_slice. run. rewrite FlippedArray_copy, Nat2Z.id.
  replace (Z.to_nat (len (flipd G) + Impl.Len NG))
    with (length (flipd G) + length (flipd NG))%nat
    by (unfold Impl.Len, len; lia).
  run_lifted (build_at_1 false (flipd G) (flipd NG) (insert_point G i)
                ltac:(lia)).
  run. run_slice. rewrite Nat2Z.id.
  replace (Impl.Len NG) with (len (flipd NG))
    by (unfold Impl.Len, len; lia).
  run_lifted (build_at_2 false (flipd G) (flipd NG) (insert_point G i)
                ltac:(lia)).
  erewrite run_set_flipd by heap_lookup. simpl.
  by rewrite insert_insert_eq.
Qed.

(** ** C3 *)

Lemma fresh_ne (σ : heap) (g : ptr) (G : group) :
  σ !! g = Some G → g ≠ fresh (dom σ).
Proof. intros Hg ->. by rewrite fresh_ptr in Hg. Qed.

(** C3.  On a group that keeps the invariant, drawing and putting back what
    was drawn gives the group as it was, cards and directions alike:
    [Draw(n)] then [Insert], and [DrawBottom(n)] then [InsertBottom], for
    every [n]; [DrawAt(0, k)] then [InsertAt(0, _)] for [0 <= k <= Len()].
    None of these calls panics. *)
Theorem draw_then_insert_restores (σ : heap) (g : ptr) (G : group) :
  σ !! g = Some G → aligned G →
  (∀ n : Z, ∃ h σ1 σ2,
     Group.Draw g n σ = Some (h, σ1) ∧
     Group.Insert g h σ1 = Some (tt, σ2) ∧
     σ2 !! g = Some G) ∧
  (∀ n : Z, ∃ h σ1 σ2,
     Group.DrawBottom g n σ = Some (h, σ1) ∧
     Group.InsertBottom g h σ1 = Some (tt, σ2) ∧
     σ2 !! g = Some G) ∧
  (∀ k : Z, 0 ≤ k ≤ Impl.Len G → ∃ h σ1 σ2,
     Group.DrawAt g 0 k σ = Some (h, σ1) ∧
     Group.InsertAt g 0 h σ1 = Some (tt, σ2) ∧
     σ2 !! g = Some G).
Proof.
  intros Hg Hal. pose proof (fresh_ne σ g G Hg) as Hne.
  unfold aligned in Hal. destruct G as [c d]. simpl in Hal.
  split; [|split].
  - intros n. eexists _, _, _. split; [|split].
    + unfold Group.Draw. eapply run_draws; [done|]. by apply Draw_spec.
    + apply Insert_spec; heap_lookup.
    + rewrite lookup_insert_eq. simpl. by rewrite !take_drop.
  - intros n. pose proof (clamp_le (mkgroup c d) n) as Hle. simpl in Hle.
    eexists _, _, _. split; [|split].
    + unfold Group.DrawBottom. eapply run_draws; [done|].
      by apply DrawBottom_spec.
    + apply InsertBottom_spec; [heap_lookup|heap_lookup|done|].
      unfold aligned. simpl. rewrite !length_take. lia.
    + rewrite lookup_insert_eq. simpl. by rewrite !take_drop.
  - intros k Hk. unfold Impl.Len, len in Hk. simpl in Hk.
    assert (k = Z.of_nat (Z.to_nat k)) as -> by lia.
    assert (Z.to_nat k ≤ length c)%nat as Hm by lia.
    clear Hk. generalize dependent (Z.to_nat k). intros m Hm.
    eexists _, _, _. split; [|split].
    + unfold Group.DrawAt. eapply run_draws; [done|].
      unfold Impl.DrawAt, Impl.index.
      destruct (Z.ltb_spec (Z.of_nat m) 0); [lia|]. simpl.
      apply (drawAt_spec (mkgroup c d) 0 m); [done|simpl; lia].
    + apply InsertAt_spec; [heap_lookup|heap_lookup|done|..].
      * unfold aligned. simpl. rewrite !length_drop. lia.
      * unfold aligned. simpl. rewrite !length_take, !length_drop. lia.
    + rewrite lookup_insert_eq. simpl.
      rewrite insert_point_0, Nat.sub_0_r, !drop_0. simpl.
      by rewrite !take_drop.
Qed.

Lemma draw_then_insert_restores_witness :
  ∃ h σ1 σ2,
    Group.DrawAt 1%positive 0 2
      {[ 1%positive := mkgroup [card Ace Hearts; joker; card King Clubs]
                               [false; true; false] ]} = Some (h, σ1) ∧
    Group.InsertAt 1%positive 0 h σ1 = Some (tt, σ2) ∧
    σ2 !! 1%positive =
      Some (mkgroup [card Ace Hearts; joker; card King Clubs]
                    [false; true; false]).
Proof.
  apply (draw_then_insert_restores
           {[ 1%positive := mkgroup [card Ace Hearts; joker; card King Clubs]
                                    [false; true; false] ]}
           1%positive
           (mkgroup [card Ace Hearts; joker; card King Clubs]
                    [false; true; false])).
  - reflexivity.
  - reflexivity.
  - vm_compute. split; discriminate.
Defined.

(** ** Loops on the heap that work on one struct *)

Lemma changes_run (g : ptr) (f : group → option group) (G : group) (σ : heap) :
  σ !! g = Some G →
  changes g f σ = (G' ← f G; Some (tt, <[g := G']> σ)).
Proof.
  intros Hg. destruct (f G) as [G'|] eqn:E; simpl.
  - by apply run_changes with G.
  - unfold changes. rewrite (run_bind _ _ _ _ _ (run_load _ _ _ Hg)).
    unfold bind, lift. by rewrite E.
Qed.

Lemma for_heap_changes {I} (p : ptr) (f : I → group → option group)
    (body : I → M unit) :
  (∀ n σ G, σ !! p = Some G →
     body n σ = (G' ← f n G; Some (tt, <[p := G']> σ))) →
  ∀ l σ G, σ !! p = Some G →
    for_heap body l σ = (G' ← for_each f l G; Some (tt, <[p := G']> σ)).
Proof.
  intros Hbody l. induction l as [|n l IH]; intros σ G Hp; simpl.
  - unfold ret. by rewrite insert_id.
  - unfold bind. rewrite (Hbody n σ G Hp).
    destruct (f n G) as [G1|]; simpl; [|done].
    rewrite (IH _ G1) by apply lookup_insert_eq.
    destruct (for_each f l G1) as [G2|]; simpl; [|done].
    by rewrite insert_insert_eq.
Qed.

(** ** C9 *)

Lemma index_nonneg (g : group) (i : Z) : 0 ≤ i → Impl.index g i = i.
Proof. intros. unfold Impl.index. by zbool. Qed.

(** [Swap] on two positions of the group permutes what the group shows. *)
Lemma Swap_spec (g : group) (i j : Z) :
  aligned g → 0 ≤ i < Impl.Len g → 0 ≤ j < Impl.Len g →
  ∃ g', Impl.Swap g i j = Some g' ∧ aligned g' ∧
        length (cards g') = length (cards g) ∧ faces g' ≡ₚ faces g.
Proof.
  intros Hal Hi Hj. unfold aligned, Impl.Len in *. unfold Impl.Swap.
  rewrite !index_nonneg by lia.
  destruct (exchange_in (cards g) i j) as (c & -> & Lc & Pc); [done..|].
  destruct (exchange_in (flipd g) i j) as (d & -> & Ld & Pd);
    [unfold len in *; lia..|].
  simpl. eexists. split; [done|]. unfold aligned, faces. simpl.
  split; [lia|]. split; [done|].
  apply Permutation_inj. split.
  { rewrite !length_zip_with. lia. }
  exists (λ k, if decide (k = Z.to_nat j) then Z.to_nat i
               else if decide (k = Z.to_nat i) then Z.to_nat j else k).
  split.
  - intros a b. repeat case_decide; lia.
  - intros k. rewrite !lookup_zip_with, Pc, Pd.
    repeat case_decide; done.
Qed.

(** A run of swaps, each on two positions of the group. *)
Lemma swaps_permute (rand_Int : Z → Z) (l : list Z) : ∀ g : group,
  aligned g →
  Forall (λ i, 0 ≤ i < Impl.Len g ∧ 0 ≤ rand_Int (i + 1) < Impl.Len g) l →
  ∃ g', for_each (λ i G, Impl.Swap G i (rand_Int (i + 1))) l g = Some g' ∧
        aligned g' ∧ length (cards g') = length (cards g) ∧
        faces g' ≡ₚ faces g.
Proof.
  induction l as [|i l IH]; intros g Hal Hl.
  - by exists g.
  - apply Forall_cons in Hl as [[Hi Hj] Hl]. simpl.
    destruct (Swap_spec g i (rand_Int (i + 1)) Hal Hi Hj)
      as (g1 & -> & Hal1 & L1 & P1).
    simpl.
    destruct (IH g1 Hal1) as (g' & E & Hal' & L' & P').
    { unfold Impl.Len, len in *. by rewrite L1. }
    exists g'. split; [done|]. split; [done|]. split; [lia|].
    by rewrite P'.
Qed.



(** ** C7 *)

(** The assignment in the loops of [NewStandardDeck], on the struct. *)
Lemma deck_assign (deck : ptr) (idx : Z) (x : Card) (σ : heap) (G : group) :
  σ !! deck = Some G →
  (let* c := get_cards deck in
   let* c := lift (set_at c idx x) in
   set_cards deck c) σ =
  (G' ← (c ← set_at (cards G) idx x; Some (mkgroup c (flipd G)));
   Some (tt, <[deck := G']> σ)).
Proof.
  intros Hd. run.
  destruct (set_at (cards G) idx x) as [c|] eqn:E; simpl.
  - erewrite run_bind; [|reflexivity].
    by erewrite run_set_cards by heap_lookup.
  - done.
Qed.

(** C7.  [NewStandardDeck] returns a new group of exactly 52 cards, none of
    them a joker, all face-down, by suit and within a suit by rank, bottom
    to top: positions 0..12 hold Spades Ace..King, 13..25 Hearts Ace..King,
    26..38 Diamonds Ace..King and 39..51 Clubs Ace..King. *)
Theorem NewStandardDeck_is_52_in_order (σ : heap) :
  ∃ (deck : ptr) (G : group),
    NewStandardDeck σ = Some (deck, <[deck := G]> σ) ∧
    σ !! deck = None ∧
    Impl.Len G = 52 ∧
    Forall (λ c, Card_Joker c = Some false) (cards G) ∧
    flipd G = replicate 52 false ∧
    cards G = suit_major ∧
    (∀ r : Z, 1 ≤ r ≤ 13 →
       at_ (cards G) (r - 1) = Some (card r Spades) ∧
       at_ (cards G) (13 + (r - 1)) = Some (card r Hearts) ∧
       at_ (cards G) (26 + (r - 1)) = Some (card r Diamonds) ∧
       at_ (cards G) (39 + (r - 1)) = Some (card r Clubs)).
Proof.
  exists (fresh (dom σ)), (mkgroup suit_major (replicate 52 false)).
  split; [|split; [apply fresh_ptr|]].
  - unfold NewStandardDeck.
    run_make. run_make.
    unfold bind at 1, alloc. cbv beta zeta iota.
    set (deck := fresh (dom σ)).
    set (G0 := mkgroup (replicate (Z.to_nat 52) nilCard)
                       (replicate (Z.to_nat 52) false)).
    erewrite run_bind; [reflexivity|].
    erewrite (for_heap_changes deck
      (λ suit G,
         for_each (λ rank G,
           c ← set_at (cards G) ((suit - 1) * 13 + (rank - 1))
                 (NewCard (byte_of_int rank) (byte_of_int suit));
           Some (mkgroup c (flipd G)))
         (upto 1 (13 + 1)) G)); [|..|apply lookup_insert_eq].
    + set (loops := for_each _ _ _).
      assert (loops = Some (mkgroup suit_major (replicate 52 false))) as ->
        by (vm_compute; reflexivity).
      simpl. by rewrite insert_insert_eq.
    + intros suit σ' G Hd.
      apply (for_heap_changes deck
        (λ rank G,
           c ← set_at (cards G) ((suit - 1) * 13 + (rank - 1))
                 (NewCard (byte_of_int rank) (byte_of_int suit));
           Some (mkgroup c (flipd G)))); [|done].
      intros rank σ'' G'' Hd''. by apply deck_assign.
  - split; [reflexivity|].
    split; [by repeat constructor|].
    split; [reflexivity|]. split; [reflexivity|].
    intros r Hr.
    assert (r = 1 ∨ r = 2 ∨ r = 3 ∨ r = 4 ∨ r = 5 ∨ r = 6 ∨ r = 7 ∨
            r = 8 ∨ r = 9 ∨ r = 10 ∨ r = 11 ∨ r = 12 ∨ r = 13) as Hc by lia.
    repeat destruct Hc as [->|Hc]; try subst r; by repeat split.
Qed.

Lemma NewStandardDeck_is_52_in_order_witness :
  ∃ (deck : ptr) (G : group),
    NewStandardDeck ∅ = Some (deck, <[deck := G]> ∅) ∧
    at_ (cards G) 17 = Some (card Five Hearts).
Proof.
  destruct (NewStandardDeck_is_52_in_order ∅)
    as (deck & G & E & _ & _ & _ & _ & _ & H).
  exists deck, G. split; [exact E|].
  apply (H 5). lia.
Defined.

(** ** Backing arrays *)

Module StorageFacts.
Import Storage.

Section Arrays.
Context {A : Type}.
Implicit Types (m : mem A) (s t dst src : sliceval).
Implicit Types (W : positive → nat → Prop).

Lemma keeps_refl W m : keeps W m m.
Proof. intros a old E. by exists old. Qed.

Lemma keeps_weaken W W' m m' :
  keeps W m m' → (∀ a k, W a k → W' a k) → keeps W' m m'.
Proof.
  intros K Sub a old E. destruct (K a old E) as (new & E' & L & Same).
  exists new. split; [done|]. split; [done|].
  intros k Hk. apply Same. naive_solver.
Qed.

(** A step that writes only into arrays that [m0] does not have, or at
    places in [W]. *)
Lemma keeps_step W W1 m0 m m' :
  keeps W m0 m → keeps W1 m m' →
  (∀ a k, W1 a k → m0 !! a = None ∨ W a k) →
  keeps W m0 m'.
Proof.
  intros K K1 Sub a old E.
  destruct (K a old E) as (mid & E1 & L1 & Same1).
  destruct (K1 a mid E1) as (new & E2 & L2 & Same2).
  exists new. split; [done|]. split; [congruence|].
  intros k Hk. rewrite <- Same1 by done. apply Same2.
  intros HW. destruct (Sub a k HW); [congruence|done].
Qed.

Lemma keeps_fresh W m m' a : keeps W m m' → m' !! a = None → m !! a = None.
Proof.
  intros K E. destruct (m !! a) as [old|] eqn:E0; [|done].
  destruct (K a old E0) as (new & E' & _). congruence.
Qed.

Lemma valid_keeps W m m' s : keeps W m m' → valid m s → valid m' s.
Proof.
  intros K (a & E & L1 & L2). destruct (K _ a E) as (new & E' & L & _).
  exists new. split; [done|]. split; [lia|done].
Qed.

Lemma elems_valid m s :
  valid m s → ∃ xs, elems m s = Some xs ∧ length xs = slen s.
Proof.
  intros (a & E & L1 & L2). unfold elems. rewrite E.
  destruct (Nat.leb_spec (off s + slen s) (length a)); [|lia].
  eexists. split; [done|]. rewrite length_take, length_drop. lia.
Qed.

Lemma elems_keeps W m m' s :
  keeps W m m' → valid m s → (∀ k, ¬ (window s (arr s) k ∧ W (arr s) k)) →
  elems m' s = elems m s.
Proof.
  intros K (a & E & L1 & L2) Out. destruct (K _ a E) as (new & E' & L & Same).
  unfold elems. rewrite E, E', L.
  destruct (Nat.leb_spec (off s + slen s) (length a)); [|lia].
  f_equal. apply list_eq. intros k.
  destruct (decide (k < slen s)%nat) as [Hk|Hk].
  - rewrite !lookup_take_lt, !lookup_drop by done. apply Same.
    intros HW. apply (Out (off s + k)%nat). split; [|done].
    split; [done|lia].
  - by rewrite !lookup_take_ge by lia.
Qed.

Lemma poke_keeps m a old pos xs :
  m !! a = Some old → (pos + length xs ≤ length old)%nat →
  ∃ m', poke m a pos xs = Some m' ∧
        keeps (λ b k, b = a ∧ (pos ≤ k < pos + length xs)%nat) m m'.
Proof.
  intros E L. unfold poke. rewrite E.
  destruct (Nat.leb_spec (pos + length xs) (length old)); [|lia].
  eexists. split; [done|]. intros b old' E'.
  destruct (decide (b = a)) as [->|Hb].
  - rewrite lookup_insert_eq. eexists. split; [done|].
    assert (old' = old) as -> by congruence. split.
    + rewrite !length_app, length_take, length_drop. lia.
    + intros k Hk.
      destruct (decide (k < pos)%nat).
      { rewrite lookup_app_l by (rewrite length_take; lia).
        by rewrite lookup_take_lt. }
      assert (pos + length xs ≤ k)%nat by (apply Nat.nlt_ge; intros ?; apply Hk; lia).
      rewrite lookup_app_r by (rewrite length_take; lia).
      rewrite lookup_app_r by (rewrite length_take; lia).
      rewrite lookup_drop, length_take. f_equal. lia.
  - rewrite lookup_insert_ne by done. by exists old'.
Qed.

Lemma make_keeps (zero : A) (n : Z) m :
  0 ≤ n →
  ∃ s m', make zero n m = Some (s, m') ∧
          m !! arr s = None ∧ valid m' s ∧
          slen s = Z.to_nat n ∧ scap s = Z.to_nat n ∧
          keeps nowhere m m'.
Proof.
  intros Hn. unfold make. destruct (Z.leb_spec 0 n); [|lia].
  assert (m !! fresh (dom m) = None) as F.
  { apply not_elem_of_dom. apply is_fresh. }
  eexists _, _. split; [done|]. cbn [arr off slen scap].
  split; [done|]. split; [|split; [done|split; [done|]]].
  - eexists. rewrite lookup_insert_eq. split; [done|].
    cbn [arr off slen scap]. rewrite length_replicate. lia.
  - intros a old E. exists old. rewrite lookup_insert_ne by congruence.
    done.
Qed.

Lemma copy_keeps dst src m :
  valid m dst → valid m src →
  ∃ m', copy dst src m = Some (tt, m') ∧ keeps (window dst) m m'.
Proof.
  intros (a & E & L1 & L2) Vs. destruct (elems_valid m src Vs) as (xs & Ex & Lx).
  unfold copy. rewrite Ex.
  destruct (poke_keeps m (arr dst) a (off dst) (take (slen dst) xs) E)
    as (m' & Ep & K).
  { rewrite length_take. lia. }
  rewrite Ep. exists m'. split; [done|].
  apply (keeps_weaken _ _ _ _ K). intros b k [-> Hk]. split; [done|].
  rewrite length_take in Hk. lia.
Qed.

Lemma append_keeps (growslice : nat → nat → nat) (zero : A) s t m :
  valid m s → valid m t →
  ∃ s' m', append growslice zero s t m = Some (s', m') ∧
           keeps (spare s) m m' ∧ valid m' s' ∧
           (arr s' = arr s ∧ off s' = off s ∧ scap s' = scap s ∨
            m !! arr s' = None).
Proof.
  intros Vs Vt. destruct (elems_valid m t Vt) as (xs & Ex & Lx).
  destruct (elems_valid m s Vs) as (old & Eo & Lo).
  destruct Vs as (a & E & L1 & L2).
  unfold append. rewrite Ex. cbv zeta.
  destruct (Nat.leb_spec (slen s + length xs) (scap s)) as [Fit|Grow].
  - destruct (poke_keeps m (arr s) a (off s + slen s) xs E) as (m' & Ep & K);
      [lia|].
    rewrite Ep. eexists _, _. split; [done|]. split; [|split].
    + apply (keeps_weaken _ _ _ _ K). intros b k [-> Hk]. split; [done|lia].
    + destruct (K _ a E) as (new & E' & L & _). exists new.
      cbn [arr off slen scap]. split; [done|lia].
    + left. done.
  - rewrite Eo.
    assert (m !! fresh (dom m) = None) as F.
    { apply not_elem_of_dom. apply is_fresh. }
    eexists _, _. split; [done|]. cbn [arr off slen scap]. split; [|split].
    + intros b old' E'. exists old'. rewrite lookup_insert_ne by congruence.
      done.
    + eexists. rewrite lookup_insert_eq. split; [done|].
      cbn [arr off slen scap]. rewrite !length_app, length_replicate. lia.
    + by right.
Qed.

(** What [copy] and [append] leave in the slice written. *)
Lemma copy_elems dst src m m' (xs : list A) :
  valid m dst → elems m src = Some xs → length xs = slen dst →
  copy dst src m = Some (tt, m') → elems m' dst = Some xs.
Proof.
  intros (a & E & L1 & L2) Ex Lx Ec. unfold copy, poke in Ec.
  rewrite Ex, E, take_ge in Ec by lia.
  destruct (Nat.leb_spec (off dst + length xs) (length a)); [|lia].
  simplify_eq. unfold elems. rewrite lookup_insert_eq.
  rewrite !length_app, length_take, length_drop.
  match goal with
  | |- context [(?x <=? ?y)%nat] => destruct (Nat.leb_spec x y); [|lia]
  end.
  f_equal. rewrite drop_app_length' by (rewrite length_take; lia).
  by rewrite take_app_length'.
Qed.

Lemma append_elems (growslice : nat → nat → nat) (zero : A) s t m s' m'
    (old xs : list A) :
  elems m s = Some old → elems m t = Some xs →
  append growslice zero s t m = Some (s', m') →
  elems m' s' = Some (old ++ xs).
Proof.
  intros Eo Ex Ea. unfold append in Ea. rewrite Ex in Ea. cbv zeta in Ea.
  assert (∃ a, m !! arr s = Some a ∧ (off s + slen s ≤ length a)%nat ∧
               old = take (slen s) (drop (off s) a)) as (a & E & L & ->).
  { unfold elems in Eo. destruct (m !! arr s) as [a|]; [|done].
    destruct (Nat.leb_spec (off s + slen s) (length a)); [|done].
    exists a. by simplify_eq. }
  destruct (Nat.leb_spec (slen s + length xs) (scap s)) as [Fit|Grow].
  - unfold poke in Ea. rewrite E in Ea.
    destruct (Nat.leb_spec (off s + slen s + length xs) (length a));
      [|done].
    simplify_eq. unfold elems. cbn [arr off slen scap].
    rewrite lookup_insert_eq.
    rewrite !length_app, length_take, length_drop.
    match goal with
    | |- context [(?x <=? ?y)%nat] => destruct (Nat.leb_spec x y); [|lia]
    end.
    f_equal. rewrite drop_app_le by (rewrite length_take; lia).
    rewrite <- take_drop_commute, app_assoc.
    apply take_app_length'. rewrite length_app, length_take, length_drop. lia.
  - rewrite Eo in Ea. simplify_eq. unfold elems. cbn [arr off slen scap].
    rewrite lookup_insert_eq.
    rewrite !length_app, length_take, length_drop, length_replicate.
    match goal with
    | |- context [(?x <=? ?y)%nat] => destruct (Nat.leb_spec x y); [|lia]
    end.
    f_equal. rewrite drop_0, app_assoc.
    apply take_app_length'. rewrite length_app, length_take, length_drop. lia.
Qed.

Lemma reslice_valid m s (i j : Z) :
  valid m s → 0 ≤ i ≤ j → j ≤ Z.of_nat (scap s) →
  ∃ s', reslice s i j = Some s' ∧ valid m s' ∧ arr s' = arr s ∧
        off s' = (off s + Z.to_nat i)%nat ∧ slen s' = Z.to_nat (j - i).
Proof.
  intros (a & E & L1 & L2) Hi Hj. unfold reslice.
  destruct (Z.leb_spec 0 i); [|lia]. destruct (Z.leb_spec i j); [|lia].
  destruct (Z.leb_spec j (Z.of_nat (scap s))); [|lia].
  eexists. split; [done|]. cbn [arr off slen scap].
  split; [|split; [done|split; done]].
  exists a. split; [done|]. cbn [arr off slen scap]. lia.
Qed.

Lemma reslice_from_valid m s (i : Z) :
  valid m s → 0 ≤ i ≤ len s →
  ∃ s', reslice_from s i = Some s' ∧ valid m s' ∧ arr s' = arr s.
Proof.
  intros V Hi. unfold len in Hi.
  destruct (reslice_valid m s i (Z.of_nat (slen s)) V) as (s' & E & V' & Ar & _).
  - lia.
  - destruct V as (a & _ & _ & L). lia.
  - by exists s'.
Qed.

Lemma reslice_cases m s (i j : Z) :
  valid m s →
  reslice s i j = None ∧ ¬ (0 ≤ i ≤ j ∧ j ≤ Z.of_nat (scap s)) ∨
  ∃ s', reslice s i j = Some s' ∧ valid m s' ∧ arr s' = arr s.
Proof.
  intros V.
  destruct (decide (0 ≤ i ≤ j ∧ j ≤ Z.of_nat (scap s))) as [[Hi Hj]|N].
  - right. destruct (reslice_valid m s i j V Hi Hj) as (s' & E & V' & Ar & _).
    by exists s'.
  - left. split; [|done]. unfold reslice.
    destruct (Z.leb_spec 0 i), (Z.leb_spec i j),
      (Z.leb_spec j (Z.of_nat (scap s))); try done; lia.
Qed.

Lemma reslice_from_cases m s (i : Z) :
  valid m s →
  reslice_from s i = None ∧ ¬ (0 ≤ i ≤ len s) ∨
  ∃ s', reslice_from s i = Some s' ∧ valid m s' ∧ arr s' = arr s.
Proof.
  intros V. destruct (reslice_cases m s i (len s) V) as [[E N]|R].
  - left. split; [done|]. intros Hi. apply N. split; [done|].
    destruct V as (a & _ & _ & L). unfold len. lia.
  - by right.
Qed.

Lemma reslice_to_cases m s (j : Z) :
  valid m s →
  reslice_to s j = None ∧ ¬ (0 ≤ j ≤ Z.of_nat (scap s)) ∨
  ∃ s', reslice_to s j = Some s' ∧ valid m s' ∧ arr s' = arr s.
Proof.
  intros V. destruct (reslice_cases m s 0 j V) as [[E N]|R].
  - left. split; [done|]. intros Hj. apply N. lia.
  - by right.
Qed.

Lemma window_spare s t m :
  valid m t → ¬ shares s t →
  ∀ k, ¬ (window t (arr t) k ∧ spare s (arr t) k).
Proof.
  intros (a & _ & _ & L) N k [[_ Hw] [Ar Hs]]. apply N. split; [done|].
  exists k. lia.
Qed.

Lemma fresh_apart s t m :
  valid m t → m !! arr s = None → ¬ shares s t.
Proof. intros (a & E & _) F [Ar _]. congruence. Qed.

Lemma same_place_apart s s' t :
  arr s' = arr s ∧ off s' = off s ∧ scap s' = scap s →
  ¬ shares s t → ¬ shares s' t.
Proof.
  intros (Ar & Of & Ca) N [Ar' (k & Hk & Hk')]. apply N.
  split; [congruence|]. exists k. lia.
Qed.

End Arrays.

(** *** Running code on the store *)

Lemma bind_run {A B} (m : M A) (k : A → M B) (σ σ' : store) (a : A) :
  m σ = Some (a, σ') → bind m k σ = k a σ'.
Proof. intros E. unfold bind. by rewrite E. Qed.

Lemma lift_run {A} (o : option A) (a : A) (σ : store) :
  o = Some a → lift o σ = Some (a, σ).
Proof. by intros ->. Qed.

Lemma run_panic {A B} (o : option A) (k : A → M B) (σ : store) :
  o = None → bind (lift o) k σ = None.
Proof. by intros ->. Qed.

Section Run.
Context (C : mem Card) (B : mem bool) (Gs : gmap positive group).

Lemma on_cards_run {A} (f : mem Card → option (A * mem Card)) a C' :
  f C = Some (a, C') → on_cards f (Store C B Gs) = Some (a, Store C' B Gs).
Proof. intros E. unfold on_cards. simpl. by rewrite E. Qed.

Lemma on_flipd_run {A} (f : mem bool → option (A * mem bool)) a B' :
  f B = Some (a, B') → on_flipd f (Store C B Gs) = Some (a, Store C B' Gs).
Proof. intros E. unfold on_flipd. simpl. by rewrite E. Qed.

Lemma load_run (g : ptr) (G : group) :
  Gs !! g = Some G → load g (Store C B Gs) = Some (G, Store C B Gs).
Proof. intros E. unfold load. simpl. by rewrite E. Qed.

Lemma set_cards_run (g : ptr) (s : sliceval) (G : group) :
  Gs !! g = Some G →
  set_cards g s (Store C B Gs) =
    Some (tt, Store C B (<[g := mkgroup s (flipd G)]> Gs)).
Proof. intros E. unfold set_cards. simpl. by rewrite E. Qed.

Lemma set_flipd_run (g : ptr) (s : sliceval) (G : group) :
  Gs !! g = Some G →
  set_flipd g s (Store C B Gs) =
    Some (tt, Store C B (<[g := mkgroup (cards G) s]> Gs)).
Proof. intros E. unfold set_flipd. simpl. by rewrite E. Qed.

Lemma Len_run (g : ptr) (G : group) :
  Gs !! g = Some G →
  Len g (Store C B Gs) = Some (len (cards G), Store C B Gs).
Proof. intros E. unfold Len. by rewrite (bind_run _ _ _ _ _ (load_run g G E)). Qed.

Lemma index_run (g : ptr) (i : Z) (G : group) :
  Gs !! g = Some G →
  index g i (Store C B Gs) =
    Some (if i <? 0 then i + len (cards G) else i, Store C B Gs).
Proof.
  intros E. unfold index. by rewrite (bind_run _ _ _ _ _ (load_run g G E)).
Qed.

End Run.

Ltac lookup_solve :=
  first [ eassumption
        | rewrite lookup_insert_eq; reflexivity
        | rewrite lookup_insert_ne by done; eassumption ].

Ltac run1 :=
  erewrite bind_run;
    [| first [ eassumption
             | apply load_run; lookup_solve
             | apply Len_run; lookup_solve
             | apply index_run; lookup_solve
             | apply on_cards_run; eassumption
             | apply on_flipd_run; eassumption
             | apply lift_run; eassumption
             | apply set_cards_run; lookup_solve ] ];
  cbn [cards flipd].

Ltac advance K :=
  match type of K with
  | keeps _ ?m _ =>
      repeat match goal with
        | V : valid m _ |- _ => apply (valid_keeps _ _ _ _ K) in V
        end
  end.

(** [Cards()] and [FlippedArray()] return a slice of a new array and write
    nowhere else. *)
Lemma Cards_run (g : ptr) (C : mem Card) (B : mem bool) Gs (G : group) :
  Gs !! g = Some G → valid C (cards G) →
  ∃ t C', Cards g (Store C B Gs) = Some (t, Store C' B Gs) ∧
          keeps nowhere C C' ∧ valid C' t ∧ C !! arr t = None ∧
          elems C' t = elems C (cards G).
Proof.
  intros Hg V.
  destruct (elems_valid C (cards G) V) as (xs & Ex & Lx).
  destruct (make_keeps nilCard (len (cards G)) C)
    as (c & C1 & E1 & F & Vc & Lc & _ & K1); [unfold len; lia|].
  assert (elems C1 (cards G) = Some xs) as Ex1.
  { rewrite (elems_keeps nowhere C C1); [done..|]. by intros k [_ []]. }
  advance K1.
  destruct (copy_keeps c (cards G) C1 Vc V) as (C2 & E2 & K2).
  assert (elems C2 c = Some xs) as Ec.
  { apply (copy_elems c (cards G) C1); [done..| |done].
    unfold len in Lc. lia. }
  advance K2.
  exists c, C2. split; [|split; [|split; [done|split; [done|congruence]]]].
  - unfold Cards. do 4 run1. done.
  - apply (keeps_step _ _ _ _ _ K1 K2). intros a k [-> _]. by left.
Qed.

Lemma FlippedArray_run (g : ptr) (C : mem Card) (B : mem bool) Gs (G : group) :
  Gs !! g = Some G → valid B (flipd G) →
  ∃ t B', FlippedArray g (Store C B Gs) = Some (t, Store C B' Gs) ∧
          keeps nowhere B B' ∧ valid B' t ∧ B !! arr t = None ∧
          elems B' t = elems B (flipd G).
Proof.
  intros Hg V.
  destruct (elems_valid B (flipd G) V) as (xs & Ex & Lx).
  destruct (make_keeps false (len (flipd G)) B)
    as (c & B1 & E1 & F & Vc & Lc & _ & K1); [unfold len; lia|].
  assert (elems B1 (flipd G) = Some xs) as Ex1.
  { rewrite (elems_keeps nowhere B B1); [done..|]. by intros k [_ []]. }
  advance K1.
  destruct (copy_keeps c (flipd G) B1 Vc V) as (B2 & E2 & K2).
  assert (elems B2 c = Some xs) as Ec.
  { apply (copy_elems c (flipd G) B1); [done..| |done].
    unfold len in Lc. lia. }
  advance K2.
  exists c, B2. split; [|split; [|split; [done|split; [done|congruence]]]].
  - unfold FlippedArray. do 4 run1. done.
  - apply (keeps_step _ _ _ _ _ K1 K2). intros a k [-> _]. by left.
Qed.

(** *** The insert methods *)

Section Inserts.
Context (g h : ptr) (C : mem Card) (B : mem bool) (Gs : gmap positive group).
Context (G H : group).
Hypothesis (Hg : Gs !! g = Some G) (Hh : Gs !! h = Some H) (Hne : g ≠ h).
Hypothesis (VGc : valid C (cards G)) (VGd : valid B (flipd G)).
Hypothesis (VHc : valid C (cards H)) (VHd : valid B (flipd H)).

(** [Insert] writes between the length and the capacity of the slices of
    the receiver, or into new arrays. *)
Lemma Insert_run (growslice : nat → nat → nat) :
  ∃ c d C' B',
    Insert growslice g h (Store C B Gs) =
      Some (tt, Store C' B' (<[g := mkgroup c d]>
                               (<[g := mkgroup c (flipd G)]> Gs))) ∧
    keeps (spare (cards G)) C C' ∧ keeps (spare (flipd G)) B B' ∧
    (arr c = arr (cards G) ∧ off c = off (cards G) ∧
       scap c = scap (cards G) ∨ C !! arr c = None) ∧
    (arr d = arr (flipd G) ∧ off d = off (flipd G) ∧
       scap d = scap (flipd G) ∨ B !! arr d = None) ∧
    (∀ gc hc, elems C (cards G) = Some gc → elems C (cards H) = Some hc →
       elems C' c = Some (gc ++ hc)) ∧
    (∀ gd hd, elems B (flipd G) = Some gd → elems B (flipd H) = Some hd →
       elems B' d = Some (gd ++ hd)).
Proof.
  pose proof VGc as V1. pose proof VHc as V2.
  pose proof VGd as V3. pose proof VHd as V4.
  destruct (Cards_run h C B Gs H Hh V2) as (t & C1 & E1 & K1 & Vt & Ft & Ct).
  assert (elems C1 (cards G) = elems C (cards G)) as Cg.
  { apply (elems_keeps nowhere); [done..|]. by intros k [_ []]. }
  advance K1.
  destruct (append_keeps growslice nilCard (cards G) t C1 V1 Vt)
    as (c & C2 & E2 & K2 & Vc & Sc).
  pose (Gs1 := <[g := mkgroup c (flipd G)]> Gs).
  assert (Gs1 !! h = Some H) as Hh1 by (unfold Gs1; lookup_solve).
  unfold Gs1 in *. clear Gs1.
  destruct (FlippedArray_run h C2 B _ H Hh1 V4)
    as (u & B1 & E3 & K3 & Vu & Fu & Cu).
  assert (elems B1 (flipd G) = elems B (flipd G)) as Cg'.
  { apply (elems_keeps nowhere); [done..|]. by intros k [_ []]. }
  advance K3.
  destruct (append_keeps growslice false (flipd G) u B1 V3 Vu)
    as (d & B2 & E4 & K4 & Vd & Sd).
  exists c, d, C2, B2.
  split; [|split; [|split; [|split; [|split; [|split]]]]].
  - unfold Insert. do 7 run1.
    erewrite set_flipd_run by lookup_solve. done.
  - apply (keeps_step _ _ _ _ _ (keeps_weaken _ (spare (cards G)) _ _ K1
             ltac:(by intros ? ? [])) K2). by right.
  - apply (keeps_step _ _ _ _ _ (keeps_weaken _ (spare (flipd G)) _ _ K3
             ltac:(by intros ? ? [])) K4). by right.
  - destruct Sc as [Sc|Sc]; [by left|right]. by apply (keeps_fresh _ _ _ _ K1).
  - destruct Sd as [Sd|Sd]; [by left|right]. by apply (keeps_fresh _ _ _ _ K3).
  - intros gc hc Eg Eh. rewrite Eg in Cg. rewrite Eh in Ct.
    by apply (append_elems growslice nilCard (cards G) t C1 c C2).
  - intros gd hd Eg Eh. rewrite Eg in Cg'. rewrite Eh in Cu.
    by apply (append_elems growslice false (flipd G) u B1 d B2).
Qed.

(** [InsertBottom] writes into new arrays only. *)
Lemma InsertBottom_run :
  ∃ c d C' B',
    InsertBottom g h (Store C B Gs) =
      Some (tt, Store C' B' (<[g := mkgroup c d]>
                               (<[g := mkgroup c (flipd G)]> Gs))) ∧
    keeps nowhere C C' ∧ keeps nowhere B B' ∧
    C !! arr c = None ∧ B !! arr d = None.
Proof.
  pose proof VGc as V1. pose proof VHc as V2.
  pose proof VGd as V3. pose proof VHd as V4.
  (* the cards *)
  destruct (make_keeps nilCard (len (cards G) + len (cards H)) C)
    as (c & C1 & E1 & Fc & Vc & Lc & _ & K1); [unfold len; lia|].
  advance K1.
  destruct (Cards_run h C1 B Gs H Hh V2) as (t & C2 & E2 & K2 & Vt & Ft & Ct).
  advance K2.
  destruct (copy_keeps c t C2 Vc Vt) as (C3 & E3 & K3).
  advance K3.
  destruct (reslice_from_valid C3 c (len (cards H)) Vc)
    as (dst & E4 & Vdst & Adst); [unfold len in *; lia|].
  destruct (copy_keeps dst (cards G) C3 Vdst V1) as (C4 & E5 & K5).
  pose (Gs1 := <[g := mkgroup c (flipd G)]> Gs).
  assert (Gs1 !! h = Some H) as Hh1 by (unfold Gs1; lookup_solve).
  unfold Gs1 in *. clear Gs1.
  (* the directions *)
  destruct (make_keeps false (len (flipd G) + len (cards H)) B)
    as (d & B1 & E6 & Fd & Vd & Ld & _ & K6); [unfold len; lia|].
  advance K6.
  destruct (FlippedArray_run h C4 B1 _ H Hh1 V4) as (u & B2 & E7 & K7 & Vu & Fu & Cu).
  advance K7.
  destruct (copy_keeps d u B2 Vd Vu) as (B3 & E8 & K8).
  advance K8.
  destruct (reslice_from_valid B3 d (len (cards H)) Vd)
    as (dst' & E9 & Vdst' & Adst'); [unfold len in *; lia|].
  destruct (copy_keeps dst' (flipd G) B3 Vdst' V3) as (B4 & E10 & K10).
  exists c, d, C4, B4. split; [|split; [|split; [|split]]]; [| | |done..].
  - unfold InsertBottom. do 19 run1.
    erewrite set_flipd_run by lookup_solve. done.
  - assert (keeps nowhere C C2) as K02.
    { apply (keeps_step _ _ _ _ _ K1 K2). by intros ? ? []. }
    assert (keeps nowhere C C3) as K03.
    { apply (keeps_step _ _ _ _ _ K02 K3). intros a k [-> _]. by left. }
    apply (keeps_step _ _ _ _ _ K03 K5). intros a k [-> _]. left. by rewrite Adst.
  - assert (keeps nowhere B B2) as K02.
    { apply (keeps_step _ _ _ _ _ K6 K7). by intros ? ? []. }
    assert (keeps nowhere B B3) as K03.
    { apply (keeps_step _ _ _ _ _ K02 K8). intros a k [-> _]. by left. }
    apply (keeps_step _ _ _ _ _ K03 K10). intros a k [-> _]. left. by rewrite Adst'.
Qed.

(** [InsertAt] writes into new arrays only.  It panics when the receiver
    has no direction at the place of the insertion. *)
Lemma InsertAt_run (i : Z) :
  InsertAt g i h (Store C B Gs) = None ∧
    ¬ (slen (cards G) ≤ slen (flipd G))%nat ∨
  ∃ c d C' B',
    InsertAt g i h (Store C B Gs) =
      Some (tt, Store C' B' (<[g := mkgroup c d]>
                               (<[g := mkgroup c (flipd G)]> Gs))) ∧
    keeps nowhere C C' ∧ keeps nowhere B B' ∧
    C !! arr c = None ∧ B !! arr d = None.
Proof.
  pose proof VGc as V1. pose proof VHc as V2.
  pose proof VGd as V3. pose proof VHd as V4.
  pose (i1 := if i <? 0 then i + len (cards G) else i).
  pose (I := if i1 <? 0 then 0
             else if i1 >? len (cards G) then len (cards G) else i1).
  assert (0 ≤ I ≤ len (cards G)) as HI.
  { unfold I, len. clearbody i1. zbool. }
  assert (len (cards G) ≤ Z.of_nat (scap (cards G))) as Capc.
  { destruct V1 as (? & _ & _ & ?). unfold len. lia. }
  assert (len (flipd G) ≤ Z.of_nat (scap (flipd G))) as Capd.
  { destruct V3 as (? & _ & _ & ?). unfold len. lia. }
  (* the cards *)
  destruct (make_keeps nilCard (len (cards G) + len (cards H)) C)
    as (c & C1 & E1 & Fc & Vc & Lc & _ & K1); [unfold len; lia|].
  advance K1.
  destruct (reslice_to_cases C1 (cards G) I V1)
    as [[_ N]|(src1 & E2 & Vsrc1 & _)]; [lia|].
  destruct (copy_keeps c src1 C1 Vc Vsrc1) as (C2 & E3 & K3).
  advance K3.
  destruct (reslice_from_cases C2 c I Vc)
    as [[_ N]|(dst1 & E4 & Vdst1 & Adst1)]; [unfold len in *; lia|].
  destruct (Cards_run h C2 B Gs H Hh V2) as (t & C3 & E5 & K5 & Vt & Ft & Ct).
  advance K5.
  destruct (copy_keeps dst1 t C3 Vdst1 Vt) as (C4 & E6 & K6).
  advance K6.
  destruct (reslice_from_cases C4 c (I + len (cards H)) Vc)
    as [[_ N]|(dst2 & E7 & Vdst2 & Adst2)]; [unfold len in *; lia|].
  destruct (reslice_from_cases C4 (cards G) I V1)
    as [[_ N]|(src2 & E8 & Vsrc2 & _)]; [lia|].
  destruct (copy_keeps dst2 src2 C4 Vdst2 Vsrc2) as (C5 & E9 & K9).
  pose (Gs1 := <[g := mkgroup c (flipd G)]> Gs).
  assert (Gs1 !! h = Some H) as Hh1 by (unfold Gs1; lookup_solve).
  unfold Gs1 in *. clear Gs1.
  (* the directions *)
  destruct (make_keeps false (len (flipd G) + len (cards H)) B)
    as (d & B1 & E10 & Fd & Vd & Ld & _ & K10); [unfold len; lia|].
  advance K10.
  destruct (reslice_to_cases B1 (flipd G) I V3)
    as [[E11 N]|(src3 & E11 & Vsrc3 & _)].
  { left. split; [|unfold len in *; lia].
    unfold InsertAt. repeat run1. by apply run_panic. }
  destruct (copy_keeps d src3 B1 Vd Vsrc3) as (B2 & E12 & K12).
  advance K12.
  destruct (reslice_from_cases B2 d I Vd)
    as [[E13 N]|(dst3 & E13 & Vdst3 & Adst3)].
  { left. split; [|unfold len in *; lia].
    unfold InsertAt. repeat run1. by apply run_panic. }
  destruct (FlippedArray_run h C5 B2 _ H Hh1 V4)
    as (u & B3 & E14 & K14 & Vu & Fu & Cu).
  advance K14.
  destruct (copy_keeps dst3 u B3 Vdst3 Vu) as (B4 & E15 & K15).
  advance K15.
  destruct (reslice_from_cases B4 d (I + len (cards H)) Vd)
    as [[E16 N]|(dst4 & E16 & Vdst4 & Adst4)].
  { left. split; [|unfold len in *; lia].
    unfold InsertAt. repeat run1. by apply run_panic. }
  destruct (reslice_from_cases B4 (flipd G) I V3)
    as [[E17 N]|(src4 & E17 & Vsrc4 & _)].
  { left. split; [|unfold len in *; lia].
    unfold InsertAt. repeat run1. by apply run_panic. }
  destruct (copy_keeps dst4 src4 B4 Vdst4 Vsrc4) as (B5 & E18 & K18).
  right. exists c, d, C5, B5.
  split; [|split; [|split; [|split]]]; [| | |done..].
  - unfold InsertAt. repeat run1.
    erewrite set_flipd_run by lookup_solve. done.
  - assert (keeps nowhere C C2) as K02.
    { apply (keeps_step _ _ _ _ _ K1 K3). intros a k [-> _]. by left. }
    assert (keeps nowhere C C3) as K03.
    { apply (keeps_step _ _ _ _ _ K02 K5). by intros ? ? []. }
    assert (keeps nowhere C C4) as K04.
    { apply (keeps_step _ _ _ _ _ K03 K6). intros a k [-> _]. left.
      by rewrite Adst1. }
    apply (keeps_step _ _ _ _ _ K04 K9). intros a k [-> _]. left.
    by rewrite Adst2.
  - assert (keeps nowhere B B2) as K02.
    { apply (keeps_step _ _ _ _ _ K10 K12). intros a k [-> _]. by left. }
    assert (keeps nowhere B B3) as K03.
    { apply (keeps_step _ _ _ _ _ K02 K14). by intros ? ? []. }
    assert (keeps nowhere B B4) as K04.
    { apply (keeps_step _ _ _ _ _ K03 K15). intros a k [-> _]. left.
      by rewrite Adst3. }
    apply (keeps_step _ _ _ _ _ K04 K18). intros a k [-> _]. left.
    by rewrite Adst4.
Qed.

(** What the three run lemmas give for the argument. *)
Lemma untouched_intro (Wc Wb : positive → nat → Prop)
    (C' : mem Card) (B' : mem bool) (c d : sliceval) (X : group) :
  keeps Wc C C' → keeps Wb B B' →
  (∀ k, ¬ (window (cards H) (arr (cards H)) k ∧ Wc (arr (cards H)) k)) →
  (∀ k, ¬ (window (flipd H) (arr (flipd H)) k ∧ Wb (arr (flipd H)) k)) →
  ¬ shares c (cards H) → ¬ shares d (flipd H) →
  untouched (Store C B Gs)
            (Store C' B' (<[g := mkgroup c d]> (<[g := X]> Gs))) g h.
Proof.
  intros Kc Kb Oc Ob Sc Sd.
  destruct (elems_valid C (cards H) VHc) as (hc & Ec & _).
  destruct (elems_valid B (flipd H) VHd) as (hd & Ed & _).
  assert ((<[g := mkgroup c d]> (<[g := X]> Gs)) !! h = Some H) as Hh'.
  { by rewrite !lookup_insert_ne. }
  split; [|split].
  - cbn [groups]. by rewrite Hh'.
  - exists hc, hd. unfold shown. cbn [groups cmem bmem]. rewrite Hh, Hh'.
    rewrite (elems_keeps Wc C C'), (elems_keeps Wb B B') by done.
    by rewrite Ec, Ed.
  - exists (mkgroup c d), H. cbn [groups].
    rewrite lookup_insert_eq. by repeat split.
Qed.

End Inserts.

End StorageFacts.

(** ** C10 *)

(** C10, as it is stated, fails in two ways.  It fails when the argument is
    the receiver: [g.Insert(g)], [g.InsertBottom(g)] and [g.InsertAt(0, g)]
    on a group of one card leave two cards in it.  And it fails for two
    groups that share a backing array: with [s] a slice of the three cards
    AS 2S 3S and of capacity 5, [g := NewGroup(s[:2]...)] and
    [h := NewGroup(s...)], the call [g.Insert(h)] appends the copy of the
    cards of [h] into the array behind the two cards of [g], and [h]
    shows AS 2S AS.  The slices of the two groups lie within their arrays;
    their card slices share the array. *)
Lemma Insert_changes_argument_sharing_storage :
  let growslice := λ old n : nat, (2 * old)%nat in
  let AS := card Ace Spades in
  let S2 := card Two Spades in
  let S3 := card Three Spades in
  (∃ σ1 σ2 σ3 g h,
     Storage.NewGroup (Storage.Slice 1 0 2 5)
       (Storage.Store {[ 1%positive := [AS; S2; S3; nilCard; nilCard] ]} ∅ ∅)
       = Some (g, σ1) ∧
     Storage.NewGroup (Storage.Slice 1 0 3 5) σ1 = Some (h, σ2) ∧
     g ≠ h ∧
     Storage.shown σ2 g = Some ([AS; S2], [false; false]) ∧
     Storage.shown σ2 h = Some ([AS; S2; S3], [false; false; false]) ∧
     Storage.Insert growslice g h σ2 = Some (tt, σ3) ∧
     Storage.shown σ3 g =
       Some ([AS; S2; AS; S2; S3], [false; false; false; false; false]) ∧
     Storage.shown σ3 h = Some ([AS; S2; AS], [false; false; false]) ∧
     ∃ G H,
       Storage.groups σ2 !! g = Some G ∧ Storage.groups σ2 !! h = Some H ∧
       Storage.sound σ2 G ∧ Storage.sound σ2 H ∧
       Storage.shares (Storage.cards G) (Storage.cards H)) ∧
  (∃ σ1 σ2 σ3 σ4 g,
     Storage.NewGroup (Storage.Slice 1 0 1 1)
       (Storage.Store {[ 1%positive := [S2] ]} ∅ ∅) = Some (g, σ1) ∧
     Storage.shown σ1 g = Some ([S2], [false]) ∧
     Storage.Insert growslice g g σ1 = Some (tt, σ2) ∧
     Storage.shown σ2 g = Some ([S2; S2], [false; false]) ∧
     Storage.InsertBottom g g σ1 = Some (tt, σ3) ∧
     Storage.shown σ3 g = Some ([S2; S2], [false; false; false]) ∧
     Storage.InsertAt g 0 g σ1 = Some (tt, σ4) ∧
     Storage.shown σ4 g = Some ([S2; S2], [false; false; false])).
Proof.
  intros growslice AS S2 S3. split.
  - do 5 eexists.
    split; [vm_compute; reflexivity|]. split; [vm_compute; reflexivity|].
    split; [discriminate|].
    split; [vm_compute; reflexivity|]. split; [vm_compute; reflexivity|].
    split; [vm_compute; reflexivity|].
    split; [vm_compute; reflexivity|].
    split; [vm_compute; reflexivity|].
    do 2 eexists.
    split; [vm_compute; reflexivity|]. split; [vm_compute; reflexivity|].
    split; [|split].
    + split; eexists; (split; [vm_compute; reflexivity|simpl; lia]).
    + split; eexists; (split; [vm_compute; reflexivity|simpl; lia]).
    + split; [reflexivity|]. exists 0%nat. simpl. lia.
  - do 5 eexists.
    split; [vm_compute; reflexivity|]. split; [vm_compute; reflexivity|].
    split; [vm_compute; reflexivity|]. split; [vm_compute; reflexivity|].
    split; [vm_compute; reflexivity|]. split; [vm_compute; reflexivity|].
    split; vm_compute; reflexivity.
Qed.

(** C10, amended.  When the argument [h] is another group than the
    receiver [g], and for [Insert] shares no storage with it, each insert
    method leaves [h] as it was: after [g.Insert(h)], [g.InsertBottom(h)]
    or [g.InsertAt(i, h)] the group [h] shows its former cards and
    directions, and shares no storage with [g].  [Insert] and
    [InsertBottom] return; [InsertAt] returns when the receiver has a
    direction for each card. *)
Theorem insert_leaves_argument_without_shared_storage
    (growslice : nat → nat → nat) (σ : Storage.store) (g h : ptr)
    (G H : Storage.group) (i : Z) :
  Storage.groups σ !! g = Some G → Storage.groups σ !! h = Some H →
  g ≠ h →
  Storage.sound σ G → Storage.sound σ H →
  (Storage.apart G H →
     ∃ σ', Storage.Insert growslice g h σ = Some (tt, σ') ∧
           Storage.untouched σ σ' g h) ∧
  (∃ σ', Storage.InsertBottom g h σ = Some (tt, σ') ∧
         Storage.untouched σ σ' g h) ∧
  (∀ σ', Storage.InsertAt g i h σ = Some (tt, σ') →
         Storage.untouched σ σ' g h) ∧
  ((Storage.slen (Storage.cards G) ≤ Storage.slen (Storage.flipd G))%nat →
     is_Some (Storage.InsertAt g i h σ)).
Proof.
  destruct σ as [C B Gs]. cbn [Storage.groups].
  intros Hg Hh Hne [VGc VGd] [VHc VHd].
  cbn [Storage.cmem Storage.bmem] in VGc, VGd, VHc, VHd.
  split; [|split].
  - intros [Ac Ad].
    destruct (StorageFacts.Insert_run g h C B Gs G H Hg Hh Hne VGc VGd VHc VHd
                growslice)
      as (c & d & C' & B' & E & Kc & Kb & Sc & Sd & _).
    eexists. split; [exact E|].
    apply (StorageFacts.untouched_intro g h C B Gs H Hh Hne VHc VHd
             _ _ _ _ _ _ _ Kc Kb).
    + by apply (StorageFacts.window_spare _ _ C).
    + by apply (StorageFacts.window_spare _ _ B).
    + destruct Sc as [Sc|Sc].
      * by apply (StorageFacts.same_place_apart (Storage.cards G)).
      * by apply (StorageFacts.fresh_apart _ _ C).
    + destruct Sd as [Sd|Sd].
      * by apply (StorageFacts.same_place_apart (Storage.flipd G)).
      * by apply (StorageFacts.fresh_apart _ _ B).
  - destruct (StorageFacts.InsertBottom_run g h C B Gs G H Hg Hh Hne
                VGc VGd VHc VHd)
      as (c & d & C' & B' & E & Kc & Kb & Fc & Fd).
    eexists. split; [exact E|].
    apply (StorageFacts.untouched_intro g h C B Gs H Hh Hne VHc VHd
             _ _ _ _ _ _ _ Kc Kb).
    + by intros k [_ []].
    + by intros k [_ []].
    + by apply (StorageFacts.fresh_apart _ _ C).
    + by apply (StorageFacts.fresh_apart _ _ B).
  - destruct (StorageFacts.InsertAt_run g h C B Gs G H Hg Hh Hne
                VGc VGd VHc VHd i)
      as [[E N]|(c & d & C' & B' & E & Kc & Kb & Fc & Fd)].
    { split; [intros σ' E'; congruence|done]. }
    split; [|by rewrite E].
    intros σ' E'. assert (σ' = Storage.Store C' B'
      (<[g := Storage.mkgroup c d]>
         (<[g := Storage.mkgroup c (Storage.flipd G)]> Gs))) as ->
      by congruence.
    apply (StorageFacts.untouched_intro g h C B Gs H Hh Hne VHc VHd
             _ _ _ _ _ _ _ Kc Kb).
    + by intros k [_ []].
    + by intros k [_ []].
    + by apply (StorageFacts.fresh_apart _ _ C).
    + by apply (StorageFacts.fresh_apart _ _ B).
Qed.

Lemma insert_leaves_argument_without_shared_storage_witness :
  let σ := Storage.Store
             {[ 1%positive := [card Ace Hearts; joker; nilCard; nilCard];
                2%positive := [card King Clubs] ]}
             {[ 1%positive := [false; true]; 2%positive := [true] ]}
             {[ 1%positive := Storage.mkgroup (Storage.Slice 1 0 2 4)
                                              (Storage.Slice 1 0 2 2);
                2%positive := Storage.mkgroup (Storage.Slice 2 0 1 1)
                                              (Storage.Slice 2 0 1 1) ]} in
  ∃ σ',
    Storage.Insert (λ old n : nat, (2 * old)%nat) 1%positive 2%positive σ =
      Some (tt, σ') ∧
    Storage.shown σ' 2%positive = Some ([card King Clubs], [true]).
Proof.
  intros σ.
  destruct (insert_leaves_argument_without_shared_storage
              (λ old n : nat, (2 * old)%nat) σ 1%positive 2%positive
              (Storage.mkgroup (Storage.Slice 1 0 2 4) (Storage.Slice 1 0 2 2))
              (Storage.mkgroup (Storage.Slice 2 0 1 1) (Storage.Slice 2 0 1 1))
              0)
    as (Ins & _).
  - reflexivity.
  - reflexivity.
  - discriminate.
  - split; eexists; (split; [reflexivity|simpl; lia]).
  - split; eexists; (split; [reflexivity|simpl; lia]).
  - destruct Ins as (σ' & E & _ & (c & d & S0 & S1) & _).
    + split; intros [Ar _]; discriminate Ar.
    + exists σ'. split; [exact E|].
      rewrite S1, <- S0. reflexivity.
Defined.
(** ** The layers agree on the receiver of [Insert] *)

(** Over backing arrays, as over a heap of elements, [g.Insert(h)] leaves
    in [g] its former cards followed by those of [h], and likewise the
    directions: [append] writes behind the length of the slice of [g], or
    into a new array, and [h.Cards()] is read before.  This holds whether
    or not the two groups share an array. *)
Lemma Insert_appends_over_arrays_and_elements
    (growslice : nat → nat → nat) (σ : Storage.store) (τ : heap)
    (g h : ptr) (G H : Storage.group) (gc hc : list Card)
    (gd hd : list bool) :
  Storage.groups σ !! g = Some G → Storage.groups σ !! h = Some H →
  g ≠ h →
  Storage.sound σ G → Storage.sound σ H →
  Storage.shown σ g = Some (gc, gd) → Storage.shown σ h = Some (hc, hd) →
  τ !! g = Some (mkgroup gc gd) → τ !! h = Some (mkgroup hc hd) →
  ∃ σ' τ',
    Storage.Insert growslice g h σ = Some (tt, σ') ∧
    Group.Insert g h τ = Some (tt, τ') ∧
    Storage.shown σ' g = Some (gc ++ hc, gd ++ hd) ∧
    τ' !! g = Some (mkgroup (gc ++ hc) (gd ++ hd)).
Proof.
  destruct σ as [C B Gs]. unfold Storage.shown. cbn [Storage.groups].
  intros Hg Hh Hne [VGc VGd] [VHc VHd]. rewrite Hg, Hh.
  cbn [Storage.cmem Storage.bmem] in *.
  intros Sg Sh Tg Th.
  destruct (Storage.elems C (Storage.cards G)) as [gc'|] eqn:Egc; [|done].
  destruct (Storage.elems B (Storage.flipd G)) as [gd'|] eqn:Egd; [|done].
  destruct (Storage.elems C (Storage.cards H)) as [hc'|] eqn:Ehc; [|done].
  destruct (Storage.elems B (Storage.flipd H)) as [hd'|] eqn:Ehd; [|done].
  simplify_eq.
  destruct (StorageFacts.Insert_run g h C B Gs G H Hg Hh Hne VGc VGd VHc VHd
              growslice)
    as (c & d & C' & B' & E & _ & _ & _ & _ & Cc & Cd).
  eexists _, _. split; [exact E|]. split.
  { by apply (Insert_spec g h (mkgroup gc gd) (mkgroup hc hd)). }
  cbn [Storage.groups Storage.cmem Storage.bmem cards flipd].
  rewrite !lookup_insert_eq. cbn [Storage.cards Storage.flipd].
  by rewrite (Cc gc hc), (Cd gd hd).
Qed.

(** ** C4 *)

(** C4 fails when a group is inserted into itself at the bottom or at a
    position: [ng.Len()] is asked again after [g.cards] has been assigned,
    and then counts the cards of the receiver as it has become.  On a
    group of one card, [g.InsertBottom(g)] and [g.InsertAt(0, g)] leave two
    cards and three directions.  [g.Insert(g)] keeps the invariant. *)
Theorem InsertBottom_InsertAt_self_break_alignment :
  let G := mkgroup [card Two Spades] [true] in
  let σ : heap := {[ 1%positive := G ]} in
  aligned G ∧
  Group.InsertBottom 1%positive 1%positive σ =
    Some (tt, {[ 1%positive := mkgroup [card Two Spades; card Two Spades]
                                       [true; false; true] ]}) ∧
  Group.InsertAt 1%positive 0 1%positive σ =
    Some (tt, {[ 1%positive := mkgroup [card Two Spades; card Two Spades]
                                       [true; false; true] ]}) ∧
  ¬ aligned (mkgroup [card Two Spades; card Two Spades] [true; false; true]) ∧
  Group.Insert 1%positive 1%positive σ =
    Some (tt, {[ 1%positive := mkgroup [card Two Spades; card Two Spades]
                                       [true; true] ]}).
Proof.
  repeat split; try (vm_compute; reflexivity).
  unfold aligned. simpl. lia.
Qed.

(** Apart from an insert of a group into itself, the operations keep the
    invariant, and a card takes its direction along. *)

Lemma slice_valid {A} (s w : list A) (i j : Z) :
  slice s i j = Some w → 0 ≤ i ≤ j ∧ j ≤ len s.
Proof.
  unfold slice. intros E.
  destruct (Z.leb_spec 0 i), (Z.leb_spec i j), (Z.leb_spec j (len s));
    simpl in E; try done; lia.
Qed.

Lemma fill_loop (b : bool) (k : nat) : ∀ (i : nat) (d : list bool),
  (i + k ≤ length d)%nat →
  ∃ d',
    for_each (λ n d, set_at d n b) (seqZ (Z.of_nat i) (Z.of_nat k)) d =
      Some d' ∧
    length d' = length d.
Proof.
  induction k as [|k IH]; intros i d Hik.
  - by exists d.
  - rewrite seqZ_cons by lia. simpl.
    rewrite set_at_in by (unfold len; lia). simpl.
    replace (Z.succ (Z.of_nat i)) with (Z.of_nat (S i)) by lia.
    replace (Z.pred (Z.of_nat (S k))) with (Z.of_nat k) by lia.
    destruct (IH (S i) (<[Z.to_nat (Z.of_nat i) := b]> d)) as (d' & E & L).
    { rewrite length_insert. lia. }
    exists d'. split; [done|]. by rewrite length_insert in L.
Qed.

Lemma Swap_keeps_aligned (g g' : group) (i j : Z) :
  aligned g → Impl.Swap g i j = Some g' → aligned g'.
Proof.
  intros Hal E. unfold Impl.Swap in E.
  assert (∀ A (s s' : list A) a b,
            Impl.exchange s a b = Some s' → length s' = length s) as Hex.
  { intros A s s' a b Hs. unfold Impl.exchange, set_at in Hs.
    destruct (at_ s b); [|done]. destruct (at_ s a); [|done]. simpl in Hs.
    destruct (_ && _); [|done]. simpl in Hs.
    destruct (_ && _); [|done]. simplify_eq. by rewrite !length_insert. }
  destruct (Impl.exchange (cards g) _ _) as [c|] eqn:Ec; [|done].
  destruct (Impl.exchange (flipd g) _ _) as [d|] eqn:Ed; [|done].
  simplify_eq/=. unfold aligned in *. simpl.
  rewrite (Hex _ _ _ _ _ Ec), (Hex _ _ _ _ _ Ed). done.
Qed.

Lemma flip_keeps_aligned (g g' : group) (i j : Z) :
  aligned g → Impl.flip g i j = Some g' → aligned g'.
Proof.
  intros Hal E.
  assert (0 ≤ i ≤ j ∧ j ≤ len (cards g)) as Hr.
  { unfold Impl.flip in E.
    destruct (for_each _ (upto i j) _); [|done]. simpl in E.
    destruct (slice (cards g) i j) eqn:Es; [|done].
    by apply slice_valid in Es. }
  destruct (flip_spec g (Z.to_nat i) (Z.to_nat j) Hal)
    as (g1 & E1 & Lc & Ld & _); [unfold len in Hr; lia|].
  rewrite !Z2Nat.id in E1 by lia.
  unfold aligned in *. simplify_eq. lia.
Qed.

Lemma FlipEach_keeps_aligned (g : group) (faceup : bool) :
  aligned g →
  ∃ g', Impl.FlipEach g faceup = Some g' ∧ aligned g' ∧ cards g' = cards g.
Proof.
  intros Hal. unfold Impl.FlipEach, upto.
  destruct (fill_loop faceup (length (flipd g)) 0 (flipd g)) as (d & E & L);
    [lia|].
  rewrite Z.sub_0_r. change 0 with (Z.of_nat 0). unfold len. rewrite E.
  simpl. eexists. split; [done|]. unfold aligned in *. simpl. split; [lia|done].
Qed.

Lemma drawAt_keeps_aligned (g ng g' : group) (i j : Z) :
  aligned g → Impl.drawAt g i j = Some (ng, g') →
  aligned ng ∧ aligned g' ∧
  ∃ k : nat, faces g = take k (faces g') ++ faces ng ++ drop k (faces g').
Proof.
  intros Hal E.
  assert (0 ≤ i ≤ j ∧ j ≤ len (cards g)) as Hr.
  { unfold Impl.drawAt in E.
    destruct (make nilCard (j - i)); [|done]. simpl in E.
    destruct (make false (j - i)); [|done]. simpl in E.
    destruct (slice (cards g) i j) eqn:Es; [|done].
    by apply slice_valid in Es. }
  unfold len in Hr.
  pose proof (drawAt_spec g (Z.to_nat i) (Z.to_nat j) Hal ltac:(lia)) as E1.
  rewrite !Z2Nat.id in E1 by lia. rewrite E1 in E. clear E1.
  unfold aligned, faces in *. simplify_eq/=.
  rewrite !length_take, !length_drop, !length_app, !length_take, !length_drop.
  split; [lia|]. split; [lia|].
  exists (Z.to_nat i).
  rewrite zip_with_app by (rewrite !length_take; lia).
  rewrite take_app_length', drop_app_length'
    by (rewrite length_zip_with, !length_take; lia).
  rewrite <- !zip_with_take, <- !zip_with_drop.
  set (z := zip_with pair (cards g) (flipd g)).
  rewrite <- (take_drop (Z.to_nat i) z) at 1. f_equal.
  rewrite <- (take_drop (Z.to_nat j - Z.to_nat i) (drop (Z.to_nat i) z)) at 1.
  f_equal. rewrite drop_drop. f_equal. lia.
Qed.

Lemma faces_app (c c' : list Card) (d d' : list bool) :
  length c = length d → zip (c ++ c') (d ++ d') = zip c d ++ zip c' d'.
Proof. intros. by apply zip_with_app. Qed.

Lemma Insert_keeps_aligned (g ng : ptr) (G NG : group) (σ : heap) :
  σ !! g = Some G → σ !! ng = Some NG → aligned G → aligned NG →
  ∃ G', Group.Insert g ng σ = Some (tt, <[g := G']> σ) ∧
        aligned G' ∧ faces G' = faces G ++ faces NG.
Proof.
  intros Hg Hng HG HNG. eexists. split; [by apply Insert_spec|].
  unfold aligned, faces in *. simpl.
  rewrite !length_app. split; [lia|by apply faces_app].
Qed.

Lemma InsertBottom_keeps_aligned (g ng : ptr) (G NG : group) (σ : heap) :
  σ !! g = Some G → σ !! ng = Some NG → g ≠ ng → aligned G → aligned NG →
  ∃ G', Group.InsertBottom g ng σ = Some (tt, <[g := G']> σ) ∧
        aligned G' ∧ faces G' = faces NG ++ faces G.
Proof.
  intros Hg Hng Hne HG HNG. eexists. split; [by apply InsertBottom_spec|].
  unfold aligned, faces in *. simpl.
  rewrite !length_app. split; [lia|by apply faces_app].
Qed.

Lemma InsertAt_keeps_aligned (g ng : ptr) (i : Z) (G NG : group) (σ : heap) :
  σ !! g = Some G → σ !! ng = Some NG → g ≠ ng → aligned G → aligned NG →
  ∃ G', Group.InsertAt g i ng σ = Some (tt, <[g := G']> σ) ∧
        aligned G' ∧
        faces G' = take (insert_point G i) (faces G) ++ faces NG ++
                   drop (insert_point G i) (faces G).
Proof.
  intros Hg Hng Hne HG HNG. eexists. split; [by apply InsertAt_spec|].
  unfold aligned, faces in *. simpl.
  rewrite !length_app, !length_take, !length_drop. split; [lia|].
  rewrite !faces_app by (rewrite ?length_take; lia).
  by rewrite zip_with_take, zip_with_drop.
Qed.

(** What [InsertBottom] makes of a group that is inserted into itself:
    twice the cards, and between the two copies of the directions as many
    zero values as there were cards. *)
Lemma InsertBottom_self_spec (g : ptr) (G : group) (σ : heap) :
  σ !! g = Some G → aligned G →
  Group.InsertBottom g g σ =
    Some (tt,
      <[g := mkgroup (cards G ++ cards G)
               (flipd G ++ replicate (length (cards G)) false ++ flipd G)]> σ).
Proof.
  intros Hg Hal. unfold aligned in Hal.
  unfold Group.InsertBottom, Group.Cards, Group.FlippedArray, Group.Len.
  run. run_make. run. rewrite Cards_copy.
  replace (Z.to_nat (len (cards G) + Impl.Len G))
    with (length (cards G) + length (cards G))%nat
    by (unfold Impl.Len, len; lia).
  run_lifted (build_bottom nilCard (cards G) (cards G)).
  run. run_make. run. rewrite FlippedArray_copy. cbn [cards flipd].
  rewrite copy_zeros by (unfold Impl.Len, len; simpl; lia).
  replace (Z.to_nat (len (flipd G) + Impl.Len (mkgroup (cards G ++ cards G)
                                                       (flipd G)))
           - length (flipd G))%nat
    with (length (cards G) + length (cards G))%nat
    by (unfold Impl.Len, len; simpl; rewrite length_app; lia).
  rewrite replicate_add, app_assoc.
  erewrite run_bind; cycle 1.
  { apply run_lift. apply copy_from_app.
    - unfold Impl.Len, len. simpl.
      rewrite !length_app, length_replicate. lia.
    - rewrite length_replicate. lia. }
  cbv beta. erewrite run_set_flipd by heap_lookup. cbn [cards flipd].
  rewrite insert_insert_eq. rewrite (drop_ge (replicate _ _))
    by (rewrite length_replicate; lia).
  by rewrite app_nil_r, <- app_assoc.
Qed.

(** So every group with a card loses the invariant when it is inserted
    into itself at the bottom. *)
Lemma InsertBottom_self_misaligns (g : ptr) (G : group) (σ : heap) :
  σ !! g = Some G → aligned G → cards G ≠ [] →
  ∃ G', Group.InsertBottom g g σ = Some (tt, <[g := G']> σ) ∧ ¬ aligned G'.
Proof.
  intros Hg Hal Hne. eexists. split; [by apply InsertBottom_self_spec|].
  unfold aligned in *. simpl.
  rewrite !length_app, length_replicate.
  destruct (cards G); [done|]. simpl in *. lia.
Qed.

(** * Further properties of the code *)

(** ** [Swap] *)

Lemma exchange_out {A} (s : list A) (p q : Z) :
  ¬ (0 ≤ p < len s) ∨ ¬ (0 ≤ q < len s) → Impl.exchange s p q = None.
Proof.
  intros Hout. unfold Impl.exchange.
  destruct (at_ s q) as [x|] eqn:Eq; [|done]. simpl.
  destruct (at_ s p) as [y|] eqn:Ep; [|done]. simpl.
  unfold at_ in Eq, Ep.
  destruct (Z.leb_spec 0 q); [|done]. destruct (Z.leb_spec 0 p); [|done].
  apply lookup_lt_Some in Eq, Ep. unfold len in Hout. lia.
Qed.

Lemma exchange_at {A} (s s' : list A) (p q : Z) :
  0 ≤ p < len s → 0 ≤ q < len s → Impl.exchange s p q = Some s' →
  length s' = length s ∧
  at_ s' p = at_ s q ∧ at_ s' q = at_ s p ∧
  ∀ k : Z, 0 ≤ k → k ≠ p → k ≠ q → at_ s' k = at_ s k.
Proof.
  intros Hp Hq E.
  destruct (exchange_in s p q Hp Hq) as (s1 & E1 & L & P).
  assert (s1 = s') as -> by congruence.
  split; [done|]. rewrite !at_in by lia. rewrite !P.
  split; [|split].
  - repeat case_decide; try done; try lia. by replace p with q by lia.
  - by rewrite decide_True by done.
  - intros k Hk Hkp Hkq. rewrite !at_in, P by lia.
    by rewrite !decide_False by lia.
Qed.

Lemma exchange_twice {A} (s s' : list A) (p q : Z) :
  Impl.exchange s p q = Some s' → Impl.exchange s' p q = Some s.
Proof.
  intros E.
  assert (0 ≤ p < len s ∧ 0 ≤ q < len s) as [Hp Hq].
  { destruct (decide (0 ≤ p < len s)), (decide (0 ≤ q < len s)); try done;
      rewrite exchange_out in E by tauto; done. }
  destruct (exchange_at s s' p q Hp Hq E) as (L & Ep & Eq & Eo).
  destruct (exchange_in s' p q) as (s2 & E2 & L2 & _);
    [unfold len in *; lia..|].
  destruct (exchange_at s' s2 p q) as (_ & Ep' & Eq' & Eo');
    [unfold len in *; lia..|done|].
  rewrite E2. f_equal. apply at_ext. intros k Hk.
  destruct (decide (k = p)) as [->|]; [congruence|].
  destruct (decide (k = q)) as [->|]; [congruence|].
  rewrite Eo' by done. by apply Eo.
Qed.

(** X1.  With both indices, once normalised, inside the group, [Swap(i, j)]
    exchanges the cards at the two positions and their directions with
    them, and leaves every other position; the invariant and the length
    are kept.  With an index that stays outside, [Swap] panics. *)
Theorem Swap_exchanges_two_positions (g : group) (i j : Z) :
  aligned g →
  (0 ≤ Impl.index g i < Impl.Len g → 0 ≤ Impl.index g j < Impl.Len g →
   ∃ g', Impl.Swap g i j = Some g' ∧
     aligned g' ∧ Impl.Len g' = Impl.Len g ∧
     at_ (cards g') (Impl.index g i) = at_ (cards g) (Impl.index g j) ∧
     at_ (flipd g') (Impl.index g i) = at_ (flipd g) (Impl.index g j) ∧
     at_ (cards g') (Impl.index g j) = at_ (cards g) (Impl.index g i) ∧
     at_ (flipd g') (Impl.index g j) = at_ (flipd g) (Impl.index g i) ∧
     ∀ k : Z, 0 ≤ k → k ≠ Impl.index g i → k ≠ Impl.index g j →
       at_ (cards g') k = at_ (cards g) k ∧
       at_ (flipd g') k = at_ (flipd g) k) ∧
  (¬ (0 ≤ Impl.index g i < Impl.Len g) ∨
   ¬ (0 ≤ Impl.index g j < Impl.Len g) →
   Impl.Swap g i j = None).
Proof.
  intros Hal. unfold aligned in Hal. unfold Impl.Swap, Impl.Len.
  set (a := Impl.index g i). set (b := Impl.index g j). split.
  - intros Ha Hb.
    destruct (exchange_in (cards g) a b Ha Hb) as (c & Ec & _).
    destruct (exchange_in (flipd g) a b) as (d & Ed & _);
      [unfold len in *; lia..|].
    rewrite Ec, Ed. simpl. eexists. split; [done|].
    destruct (exchange_at _ _ _ _ Ha Hb Ec) as (Lc & C1 & C2 & C3).
    destruct (exchange_at (flipd g) d a b) as (Ld & D1 & D2 & D3);
      [unfold len in *; lia..|done|].
    unfold aligned, len. simpl.
    repeat split; try done; try lia; auto.
  - intros Hout. by rewrite (exchange_out (cards g)).
Qed.

Lemma Swap_exchanges_two_positions_witness :
  (∃ g', Impl.Swap (mkgroup [card Ace Hearts; joker; card King Clubs]
                            [false; true; false]) 0 (-1) = Some g' ∧
         at_ (cards g') 0 = Some (card King Clubs) ∧
         at_ (flipd g') 2 = Some false) ∧
  Impl.Swap (mkgroup [card Ace Hearts; joker; card King Clubs]
                     [false; true; false]) 0 3 = None.
Proof.
  split.
  - destruct (proj1 (Swap_exchanges_two_positions
                (mkgroup [card Ace Hearts; joker; card King Clubs]
                         [false; true; false]) 0 (-1) eq_refl))
      as (g' & E & _ & _ & C & _ & _ & D & _).
    + vm_compute. split; [discriminate|reflexivity].
    + vm_compute. split; [discriminate|reflexivity].
    + exists g'. split; [exact E|]. split; [exact C|exact D].
  - apply (Swap_exchanges_two_positions
             (mkgroup [card Ace Hearts; joker; card King Clubs]
                      [false; true; false]) 0 3 eq_refl).
    right. vm_compute. intros [_ H]. discriminate H.
Defined.

(** X2.  A [Swap] that returns is undone by the same [Swap]: the group is
    again what it was. *)
Theorem Swap_twice_restores (g g' : group) (i j : Z) :
  Impl.Swap g i j = Some g' → Impl.Swap g' i j = Some g.
Proof.
  intros E. unfold Impl.Swap in *.
  destruct (Impl.exchange (cards g) _ _) as [c|] eqn:Ec; [|done].
  destruct (Impl.exchange (flipd g) _ _) as [d|] eqn:Ed; [|done].
  simplify_eq/=.
  assert (length c = length (cards g)) as L.
  { destruct (decide (0 ≤ Impl.index g i < len (cards g))) as [Hi|],
             (decide (0 ≤ Impl.index g j < len (cards g))) as [Hj|];
      try (rewrite exchange_out in Ec by tauto; done).
    by destruct (exchange_at _ _ _ _ Hi Hj Ec). }
  rewrite !(index_same_len g (mkgroup c d)) by done.
  rewrite (exchange_twice _ _ _ _ Ec), (exchange_twice _ _ _ _ Ed).
  by destruct g.
Qed.

Lemma Swap_twice_restores_witness :
  Impl.Swap (mkgroup [card King Clubs; joker; card Ace Hearts]
                     [false; true; true]) 0 (-1) =
    Some (mkgroup [card Ace Hearts; joker; card King Clubs]
                  [true; true; false]).
Proof.
  apply (Swap_twice_restores
           (mkgroup [card Ace Hearts; joker; card King Clubs]
                    [true; true; false])).
  reflexivity.
Defined.

(** ** [Flipped], [SetFlipped] and [FlipEach] *)

(** X3.  [SetFlipped(i, faceup)] on a position inside the group sets the
    direction that [Flipped(i)] then reports, keeps the cards and keeps
    the direction of every other position; negative indices count from
    the top.  On a position outside [0 .. len(flipd)-1], once normalised,
    both [Flipped] and [SetFlipped] panic. *)
Theorem SetFlipped_then_Flipped (g : group) (i : Z) (faceup : bool) :
  (0 ≤ Impl.index g i < len (flipd g) →
   ∃ g', Impl.SetFlipped g i faceup = Some g' ∧
     cards g' = cards g ∧ length (flipd g') = length (flipd g) ∧
     Impl.Flipped g' i = Some faceup ∧
     ∀ k : Z, Impl.index g k ≠ Impl.index g i →
       Impl.Flipped g' k = Impl.Flipped g k) ∧
  (¬ (0 ≤ Impl.index g i < len (flipd g)) →
   Impl.SetFlipped g i faceup = None ∧ Impl.Flipped g i = None).
Proof.
  unfold Impl.SetFlipped, Impl.Flipped. split.
  - intros Hi. rewrite set_at_in by done. simpl. eexists. split; [done|].
    assert (∀ k, Impl.index (mkgroup (cards g)
                   (<[Z.to_nat (Impl.index g i) := faceup]> (flipd g))) k =
                 Impl.index g k) as Ek by done.
    rewrite !Ek. cbn [cards flipd].
    split; [done|]. split; [by rewrite length_insert|]. split.
    + rewrite at_in by lia. apply list_lookup_insert_eq. unfold len in Hi. lia.
    + intros k Hk. rewrite Ek. unfold at_.
      destruct (Z.leb_spec 0 (Impl.index g k)); [|done].
      apply list_lookup_insert_ne. lia.
  - intros Hout. unfold set_at, at_.
    destruct (Z.leb_spec 0 (Impl.index g i)); simpl; [|done].
    destruct (Z.ltb_spec (Impl.index g i) (len (flipd g))); [lia|].
    split; [done|]. apply lookup_ge_None_2. unfold len in *. lia.
Qed.

Lemma SetFlipped_then_Flipped_witness :
  (∃ g', Impl.SetFlipped (mkgroup [card Ace Hearts; joker; card King Clubs]
                                  [false; true; false]) (-1) true = Some g' ∧
         Impl.Flipped g' (-1) = Some true) ∧
  Impl.Flipped (mkgroup [card Ace Hearts; joker; card King Clubs]
                        [false; true; false]) 3 = None.
Proof.
  split.
  - destruct (proj1 (SetFlipped_then_Flipped
                (mkgroup [card Ace Hearts; joker; card King Clubs]
                         [false; true; false]) (-1) true))
      as (g' & E & _ & _ & F & _).
    + vm_compute. split; [discriminate|reflexivity].
    + exists g'. split; [exact E|exact F].
  - apply (SetFlipped_then_Flipped
             (mkgroup [card Ace Hearts; joker; card King Clubs]
                      [false; true; false]) 3 true).
    vm_compute. intros [_ H]. discriminate H.
Defined.

Lemma fill_loop_all (b : bool) (k : nat) : ∀ (i : nat) (d : list bool),
  (i + k = length d)%nat →
  for_each (λ n d, set_at d n b) (seqZ (Z.of_nat i) (Z.of_nat k)) d =
    Some (take i d ++ replicate k b).
Proof.
  induction k as [|k IH]; intros i d Hik.
  - simpl. by rewrite app_nil_r, take_ge by lia.
  - rewrite seqZ_cons by lia. simpl.
    rewrite set_at_in by (unfold len; lia). simpl.
    replace (Z.succ (Z.of_nat i)) with (Z.of_nat (S i)) by lia.
    replace (Z.pred (Z.of_nat (S k))) with (Z.of_nat k) by lia.
    rewrite Nat2Z.id, IH by (rewrite length_insert; lia).
    f_equal. rewrite (take_S_r _ i b)
      by (apply list_lookup_insert_eq; lia).
    rewrite take_insert_ge by lia. by rewrite <- app_assoc.
Qed.

(** X4.  [FlipEach(faceup)] never panics: it leaves the cards as they are
    and gives every position the direction [faceup], whatever the group
    was; through a pointer it returns the receiver. *)
Theorem FlipEach_sets_every_direction :
  (∀ (g : group) (faceup : bool),
     Impl.FlipEach g faceup =
       Some (mkgroup (cards g) (replicate (length (flipd g)) faceup))) ∧
  (∀ (σ : heap) (g : ptr) (G : group) (faceup : bool),
     σ !! g = Some G →
     Group.FlipEach g faceup σ =
       Some (g, <[g := mkgroup (cards G)
                         (replicate (length (flipd G)) faceup)]> σ)).
Proof.
  assert (∀ (g : group) (faceup : bool),
     Impl.FlipEach g faceup =
       Some (mkgroup (cards g) (replicate (length (flipd g)) faceup))) as Pure.
  { intros g faceup. unfold Impl.FlipEach, upto, len.
    rewrite Z.sub_0_r. change 0 with (Z.of_nat 0).
    by rewrite fill_loop_all. }
  split; [done|].
  intros σ g G faceup Hg. unfold Group.FlipEach.
  erewrite run_bind; [done|].
  by apply run_changes with G.
Qed.

Lemma FlipEach_sets_every_direction_witness :
  Group.FlipEach 1%positive true
    {[ 1%positive := mkgroup [card Ace Hearts; joker] [false; true] ]} =
  Some (1%positive,
        <[ 1%positive := mkgroup [card Ace Hearts; joker] [true; true] ]>
          {[ 1%positive := mkgroup [card Ace Hearts; joker] [false; true] ]}).
Proof.
  apply (proj2 FlipEach_sets_every_direction
           {[ 1%positive := mkgroup [card Ace Hearts; joker] [false; true] ]}
           1%positive (mkgroup [card Ace Hearts; joker] [false; true]) true).
  reflexivity.
Defined.

(** ** [FlipAll] and [Reverse] *)

(** [FlipAll] in closed form. *)
Lemma FlipAll_spec (g : group) :
  aligned g →
  Impl.FlipAll g =
    Some (mkgroup (reverse (cards g)) (negb <$> reverse (flipd g))).
Proof.
  intros Hal. unfold Impl.FlipAll, len. change 0 with (Z.of_nat 0).
  destruct (flip_spec g 0 (length (cards g)) Hal) as (g' & -> & Lc & Ld & P);
    [lia|].
  unfold aligned in Hal. f_equal. destruct g' as [c' d']. simpl in *. f_equal.
  - apply list_eq. intros p. rewrite (proj1 (P p)).
    case_decide.
    + rewrite reverse_lookup by lia. f_equal. lia.
    + rewrite !lookup_ge_None_2; [done|rewrite length_reverse|]; lia.
  - apply list_eq. intros p. rewrite (proj2 (P p)).
    rewrite list_lookup_fmap. case_decide.
    + rewrite reverse_lookup by lia. do 2 f_equal. lia.
    + rewrite !lookup_ge_None_2; [done|rewrite length_reverse|]; lia.
Qed.

Lemma for_each_cons {S I} (body : I → S → option S) (i : I) (l : list I)
    (s : S) :
  for_each body (i :: l) s = (s' ← body i s; for_each body l s').
Proof. done. Qed.

Lemma Swap_nonneg (c : list Card) (d : list bool) (i j : Z) :
  0 ≤ i → 0 ≤ j →
  Impl.Swap (mkgroup c d) i j =
    (c' ← Impl.exchange c i j; d' ← Impl.exchange d i j;
     Some (mkgroup c' d')).
Proof. intros. unfold Impl.Swap. by rewrite !index_nonneg by done. Qed.

(** The swaps of [Reverse], seen on the two slices. *)
Lemma swaps_as_exchanges (l : list Z) : ∀ (c : list Card) (d : list bool),
  length d = length c → Forall (λ i, 0 ≤ i < len c) l →
  for_each (λ i G, Impl.Swap G i (Impl.Len G - 1 - i)) l (mkgroup c d) =
  (λ cd : list Card * list bool, mkgroup cd.1 cd.2) <$>
    for_each (λ p '(c, d),
                let q := len c - 1 - p in
                c ← Impl.exchange c p q;
                d ← Impl.exchange d p q;
                Some (c, d)) l (c, d).
Proof.
  induction l as [|i l IH]; intros c d Hd Hl; [done|].
  apply Forall_cons in Hl as [Hi Hl].
  rewrite !for_each_cons. cbv beta iota zeta.
  change (Impl.Len (mkgroup c d)) with (len c).
  rewrite Swap_nonneg by lia.
  destruct (exchange_in c i (len c - 1 - i)) as (c1 & -> & Lc & _); [lia..|].
  destruct (exchange_in d i (len c - 1 - i)) as (d1 & -> & Ld & _);
    [unfold len in *; lia..|].
  cbn [mbind option_bind]. apply IH; [lia|].
  unfold len in *. by rewrite Lc.
Qed.

Lemma Reverse_spec (σ : heap) (g : ptr) (G : group) :
  σ !! g = Some G → aligned G →
  Reverse g σ =
    Some (tt, <[g := mkgroup (reverse (cards G)) (reverse (flipd G))]> σ).
Proof.
  intros Hg Hal. unfold aligned in Hal. unfold Reverse, Group.Len.
  rewrite (run_bind _ _ _ _ _ (run_reads _ _ _ _ Hg)).
  rewrite (for_heap_changes g
             (λ i G, Impl.Swap G i (Impl.Len G - 1 - i)) _) with (G := G);
    [|intros i σ' G' Hg'|done].
  - destruct G as [c d]. simpl in Hal.
    rewrite swaps_as_exchanges; [|done|].
    + unfold Impl.Len. simpl. by rewrite mirror_all.
    + unfold downfrom. apply Forall_reverse, Forall_seqZ.
      intros i Hi. unfold Impl.Len, len in *. simpl in *.
      pose proof (Z.quot_le_mono 0 (Z.of_nat (length c)) 2).
      assert (Z.of_nat (length c) ÷ 2 ≤ Z.of_nat (length c)).
      { rewrite Z.quot_div_nonneg by lia.
        apply Z.div_le_upper_bound; lia. }
      lia.
  - rewrite (run_bind _ _ _ _ _ (run_reads _ _ _ _ Hg')).
    cbv zeta. unfold Group.Swap. by rewrite (changes_run g _ G' σ' Hg').
Qed.

(** X5.  On a group that keeps the invariant, [FlipAll] leaves the cards in
    reverse order and each direction negated along with its card; through
    a pointer it returns the receiver.  [Reverse] leaves the cards in the
    same reverse order and each direction as it was, along with its card:
    [FlipAll] is [Reverse] with every direction toggled. *)
Theorem FlipAll_is_Reverse_with_toggle (σ : heap) (g : ptr) (G : group) :
  σ !! g = Some G → aligned G →
  Group.FlipAll g σ =
    Some (g, <[g := mkgroup (reverse (cards G))
                      (negb <$> reverse (flipd G))]> σ) ∧
  Reverse g σ =
    Some (tt, <[g := mkgroup (reverse (cards G)) (reverse (flipd G))]> σ).
Proof.
  intros Hg Hal. split; [|by apply Reverse_spec].
  unfold Group.FlipAll. erewrite run_bind; [done|].
  apply run_changes with G; [done|]. by apply FlipAll_spec.
Qed.

Lemma FlipAll_is_Reverse_with_toggle_witness :
  Reverse 1%positive
    {[ 1%positive := mkgroup [card Ace Hearts; joker; card King Clubs]
                             [false; true; true] ]} =
  Some (tt,
        <[ 1%positive := mkgroup [card King Clubs; joker; card Ace Hearts]
                                 [true; true; false] ]>
          {[ 1%positive := mkgroup [card Ace Hearts; joker; card King Clubs]
                                   [false; true; true] ]}).
Proof.
  apply (FlipAll_is_Reverse_with_toggle
           {[ 1%positive := mkgroup [card Ace Hearts; joker; card King Clubs]
                                    [false; true; true] ]}
           1%positive
           (mkgroup [card Ace Hearts; joker; card King Clubs]
                    [false; true; true])); reflexivity.
Defined.

(** X6.  [Reverse] applied twice gives the group as it was, and on a group
    of at most one card a single [Reverse] changes nothing. *)
Theorem Reverse_twice_restores (σ : heap) (g : ptr) (G : group) :
  σ !! g = Some G → aligned G →
  (∃ σ1, Reverse g σ = Some (tt, σ1) ∧ Reverse g σ1 = Some (tt, σ)) ∧
  (Impl.Len G ≤ 1 → Reverse g σ = Some (tt, σ)).
Proof.
  intros Hg Hal. split.
  - eexists. split; [by apply Reverse_spec|].
    erewrite Reverse_spec; [|apply lookup_insert_eq|].
    + simpl. rewrite insert_insert_eq, !reverse_involutive.
      destruct G. by rewrite insert_id.
    + unfold aligned in *. simpl. by rewrite !length_reverse.
  - intros Hn. rewrite (Reverse_spec σ g G Hg Hal). f_equal. f_equal.
    apply insert_id. rewrite Hg. f_equal.
    unfold aligned, Impl.Len, len in *.
    destruct G as [[|c [|c' cs]] [|d [|d' ds]]]; simpl in *; try done; lia.
Qed.

Lemma Reverse_twice_restores_witness :
  ∃ σ1,
    Reverse 1%positive
      {[ 1%positive := mkgroup [card Ace Hearts; joker; card King Clubs]
                               [false; true; true] ]} = Some (tt, σ1) ∧
    Reverse 1%positive σ1 =
      Some (tt, {[ 1%positive := mkgroup [card Ace Hearts; joker; card King Clubs]
                                         [false; true; true] ]}).
Proof.
  apply (Reverse_twice_restores
           {[ 1%positive := mkgroup [card Ace Hearts; joker; card King Clubs]
                                    [false; true; true] ]}
           1%positive
           (mkgroup [card Ace Hearts; joker; card King Clubs]
                    [false; true; true])); reflexivity.
Defined.

(** ** Drawing and inserting *)

Lemma drawAt_invalid (g : group) (i j : Z) :
  ¬ (0 ≤ i ≤ j ∧ j ≤ len (cards g)) → Impl.drawAt g i j = None.
Proof.
  intros Hbad. unfold Impl.drawAt, make, slice.
  destruct (Z.leb_spec 0 (j - i)); simpl; [|done].
  destruct (Z.leb_spec 0 i); simpl; [|done].
  destruct (Z.leb_spec i j); simpl; [|lia].
  destruct (Z.leb_spec j (len (cards g))); simpl; [lia|done].
Qed.

Lemma faces_window (g : group) (i j : nat) :
  aligned g → (i ≤ j ≤ length (cards g))%nat →
  faces g =
    take i (zip (take i (cards g) ++ drop j (cards g))
                (take i (flipd g) ++ drop j (flipd g))) ++
    zip (take (j - i) (drop i (cards g))) (take (j - i) (drop i (flipd g))) ++
    drop i (zip (take i (cards g) ++ drop j (cards g))
                (take i (flipd g) ++ drop j (flipd g))).
Proof.
  intros Hal Hij. unfold aligned, faces in *.
  rewrite zip_with_app by (rewrite !length_take; lia).
  rewrite take_app_length', drop_app_length'
    by (rewrite length_zip_with, !length_take; lia).
  rewrite <- !zip_with_take, <- !zip_with_drop.
  set (z := zip_with pair (cards g) (flipd g)).
  rewrite <- (take_drop i z) at 1. f_equal.
  rewrite <- (take_drop (j - i) (drop i z)) at 1.
  f_equal. rewrite drop_drop. f_equal. lia.
Qed.

(** X7.  On a group that keeps the invariant, [DrawAt(i, j)] returns
    exactly when the normalised range is valid, [0 <= i <= j <= Len()],
    and panics otherwise.  When it returns, the new group holds the [j - i]
    cards of the range with their directions, in order, and the receiver
    keeps the rest, closed up: putting the new group's cards back between
    the first [i] cards of the receiver and the others gives what the
    group showed before. *)
Theorem DrawAt_takes_a_valid_range (g : group) (i j : Z) :
  aligned g →
  (0 ≤ Impl.index g i ≤ Impl.index g j → Impl.index g j ≤ Impl.Len g →
   ∃ ng g', Impl.DrawAt g i j = Some (ng, g') ∧
     aligned ng ∧ aligned g' ∧
     Impl.Len ng = Impl.index g j - Impl.index g i ∧
     Impl.Len g' = Impl.Len g - Impl.Len ng ∧
     faces g = take (Z.to_nat (Impl.index g i)) (faces g') ++ faces ng ++
               drop (Z.to_nat (Impl.index g i)) (faces g')) ∧
  (¬ (0 ≤ Impl.index g i ≤ Impl.index g j ∧ Impl.index g j ≤ Impl.Len g) →
   Impl.DrawAt g i j = None).
Proof.
  intros Hal. unfold Impl.DrawAt, Impl.Len.
  set (a := Impl.index g i). set (b := Impl.index g j). split.
  - intros Hab Hb. unfold len in Hb.
    pose proof (drawAt_spec g (Z.to_nat a) (Z.to_nat b) Hal ltac:(lia)) as E.
    rewrite !Z2Nat.id in E by lia. rewrite E. eexists _, _. split; [done|].
    unfold aligned in *. unfold faces at 2 3 4. unfold len. simpl.
    rewrite !length_app, !length_take, !length_drop.
    repeat split; try lia.
    apply faces_window; [done|lia].
  - intros Hbad. by apply drawAt_invalid.
Qed.

Lemma DrawAt_takes_a_valid_range_witness :
  (∃ ng g', Impl.DrawAt (mkgroup [card Ace Hearts; joker; card King Clubs]
                                 [false; true; false]) (-2) 3 = Some (ng, g') ∧
            Impl.Len ng = 2 ∧ Impl.Len g' = 1) ∧
  Impl.DrawAt (mkgroup [card Ace Hearts; joker; card King Clubs]
                       [false; true; false]) 2 1 = None.
Proof.
  split.
  - destruct (proj1 (DrawAt_takes_a_valid_range
                (mkgroup [card Ace Hearts; joker; card King Clubs]
                         [false; true; false]) (-2) 3 eq_refl))
      as (ng & g' & E & _ & _ & L1 & L2 & _).
    + vm_compute. split; discriminate.
    + vm_compute. discriminate.
    + exists ng, g'. split; [exact E|]. split; [exact L1|].
      rewrite L2, L1. reflexivity.
  - apply (DrawAt_takes_a_valid_range
             (mkgroup [card Ace Hearts; joker; card King Clubs]
                      [false; true; false]) 2 1 eq_refl).
    vm_compute. intros [[_ H] _]. exact (H eq_refl).
Defined.

(** X8.  For [0 <= i <= j <= Len()], [h := g.DrawAt(i, j)] followed by
    [g.InsertAt(i, h)] gives the group as it was, cards and directions. *)
Theorem DrawAt_then_InsertAt_restores
    (σ : heap) (g : ptr) (G : group) (i j : Z) :
  σ !! g = Some G → aligned G →
  0 ≤ i ≤ j → j ≤ Impl.Len G →
  ∃ h σ1 σ2,
    Group.DrawAt g i j σ = Some (h, σ1) ∧
    Group.InsertAt g i h σ1 = Some (tt, σ2) ∧
    σ2 !! g = Some G.
Proof.
  intros Hg Hal Hij Hj. pose proof (fresh_ne σ g G Hg) as Hne.
  unfold aligned in Hal. unfold Impl.Len, len in Hj.
  destruct G as [c d]. simpl in *.
  assert (Impl.DrawAt (mkgroup c d) i j =
          Some (mkgroup (take (Z.to_nat j - Z.to_nat i) (drop (Z.to_nat i) c))
                        (take (Z.to_nat j - Z.to_nat i) (drop (Z.to_nat i) d)),
                mkgroup (take (Z.to_nat i) c ++ drop (Z.to_nat j) c)
                        (take (Z.to_nat i) d ++ drop (Z.to_nat j) d))) as E.
  { unfold Impl.DrawAt. rewrite !index_nonneg by lia.
    rewrite <- (Z2Nat.id i), <- (Z2Nat.id j) at 1 by lia.
    apply (drawAt_spec (mkgroup c d)); [done|simpl; lia]. }
  eexists _, _, _. split; [|split].
  - unfold Group.DrawAt. eapply run_draws; [done|exact E].
  - apply InsertAt_spec; [heap_lookup|heap_lookup|done|..].
    + unfold aligned. simpl. rewrite !length_app, !length_take, !length_drop.
      lia.
    + unfold aligned. simpl. rewrite !length_take, !length_drop. lia.
  - rewrite lookup_insert_eq. simpl.
    assert (insert_point (mkgroup (take (Z.to_nat i) c ++ drop (Z.to_nat j) c)
                                  (take (Z.to_nat i) d ++ drop (Z.to_nat j) d)) i
            = Z.to_nat i) as ->.
    { unfold insert_point, Impl.Len, len. rewrite index_nonneg by lia.
      simpl. rewrite length_app, length_take, length_drop. lia. }
    rewrite !take_app_length', !drop_app_length'
      by (rewrite length_take; lia).
    f_equal. f_equal.
    + rewrite <- (take_drop (Z.to_nat i) c) at 4. f_equal.
      rewrite <- (take_drop (Z.to_nat j - Z.to_nat i) (drop (Z.to_nat i) c))
        at 2.
      f_equal. rewrite drop_drop. f_equal. lia.
    + rewrite <- (take_drop (Z.to_nat i) d) at 4. f_equal.
      rewrite <- (take_drop (Z.to_nat j - Z.to_nat i) (drop (Z.to_nat i) d))
        at 2.
      f_equal. rewrite drop_drop. f_equal. lia.
Qed.

Lemma DrawAt_then_InsertAt_restores_witness :
  ∃ h σ1 σ2,
    Group.DrawAt 1%positive 1 2
      {[ 1%positive := mkgroup [card Ace Hearts; joker; card King Clubs]
                               [false; true; false] ]} = Some (h, σ1) ∧
    Group.InsertAt 1%positive 1 h σ1 = Some (tt, σ2) ∧
    σ2 !! 1%positive =
      Some (mkgroup [card Ace Hearts; joker; card King Clubs]
                    [false; true; false]).
Proof.
  apply (DrawAt_then_InsertAt_restores
           {[ 1%positive := mkgroup [card Ace Hearts; joker; card King Clubs]
                                    [false; true; false] ]}
           1%positive
           (mkgroup [card Ace Hearts; joker; card King Clubs]
                    [false; true; false]) 1 2).
  - reflexivity.
  - reflexivity.
  - lia.
  - vm_compute. discriminate.
Defined.

(** X9.  [g.Insert(h)] puts what [h] shows on top of what [g] showed, and
    [g.InsertBottom(h)] puts it below, cards and directions in [h]'s
    order; the receiver grows by [h.Len()] and keeps the invariant.  For
    [Insert] this also holds when [h] is [g] itself, which is then
    doubled; for [InsertBottom] the two groups have to differ. *)
Theorem Insert_on_top_InsertBottom_below
    (σ : heap) (g h : ptr) (G H : group) :
  σ !! g = Some G → σ !! h = Some H → aligned G → aligned H →
  (∃ G', Group.Insert g h σ = Some (tt, <[g := G']> σ) ∧
         aligned G' ∧ faces G' = faces G ++ faces H ∧
         Impl.Len G' = Impl.Len G + Impl.Len H) ∧
  (g ≠ h →
   ∃ G', Group.InsertBottom g h σ = Some (tt, <[g := G']> σ) ∧
         aligned G' ∧ faces G' = faces H ++ faces G ∧
         Impl.Len G' = Impl.Len G + Impl.Len H).
Proof.
  intros Hg Hh HG HH. unfold aligned in *. split; [|intros Hne].
  - eexists. split; [by apply Insert_spec|].
    unfold aligned, faces, Impl.Len, len. simpl. rewrite !length_app.
    split; [lia|]. split; [by apply faces_app|lia].
  - eexists. split; [by apply InsertBottom_spec|].
    unfold aligned, faces, Impl.Len, len. simpl. rewrite !length_app.
    split; [lia|]. split; [by apply faces_app|lia].
Qed.

Lemma Insert_on_top_InsertBottom_below_witness :
  ∃ G', Group.InsertBottom 1%positive 2%positive
          {[ 1%positive := mkgroup [card Ace Hearts; joker] [false; true];
             2%positive := mkgroup [card King Clubs] [true] ]} =
        Some (tt, <[ 1%positive := G' ]>
          {[ 1%positive := mkgroup [card Ace Hearts; joker] [false; true];
             2%positive := mkgroup [card King Clubs] [true] ]}) ∧
        faces G' = [(card King Clubs, true); (card Ace Hearts, false);
                    (joker, true)].
Proof.
  destruct (Insert_on_top_InsertBottom_below
              {[ 1%positive := mkgroup [card Ace Hearts; joker] [false; true];
                 2%positive := mkgroup [card King Clubs] [true] ]}
              1%positive 2%positive
              (mkgroup [card Ace Hearts; joker] [false; true])
              (mkgroup [card King Clubs] [true])) as [_ B];
    [reflexivity..|].
  destruct B as (G' & E & _ & F & _); [discriminate|].
  exists G'. split; [exact E|exact F].
Defined.

(** X10.  With [h] another group than [g], [g.InsertAt(i, h)] never panics
    on groups that keep the invariant.  It puts what [h] shows between the
    first [k] positions of [g] and the rest, where [k] is [i] once
    normalised and brought into [0 .. Len()]; the receiver grows by
    [h.Len()] and keeps the invariant. *)
Theorem InsertAt_splices_at_clamped_index
    (σ : heap) (g h : ptr) (G H : group) (i : Z) :
  σ !! g = Some G → σ !! h = Some H → g ≠ h → aligned G → aligned H →
  ∃ (G' : group) (k : nat),
    Z.of_nat k = Z.min (Z.max (Impl.index G i) 0) (Impl.Len G) ∧
    Group.InsertAt g i h σ = Some (tt, <[g := G']> σ) ∧
    aligned G' ∧
    faces G' = take k (faces G) ++ faces H ++ drop k (faces G) ∧
    Impl.Len G' = Impl.Len G + Impl.Len H.
Proof.
  intros Hg Hh Hne HG HH. pose proof (insert_point_le G i) as Hk.
  eexists _, (insert_point G i). split.
  { unfold insert_point, Impl.Len, len. lia. }
  split; [by apply InsertAt_spec|].
  unfold aligned, faces, Impl.Len, len in *. simpl.
  rewrite !length_app, !length_take, !length_drop.
  split; [lia|]. split; [|lia].
  rewrite !faces_app by (rewrite ?length_take; lia).
  by rewrite zip_with_take, zip_with_drop.
Qed.

Lemma InsertAt_splices_at_clamped_index_witness :
  ∃ (G' : group) (k : nat),
    Z.of_nat k = 1 ∧
    Group.InsertAt 1%positive (-1) 2%positive
      {[ 1%positive := mkgroup [card Ace Hearts; joker] [false; true];
         2%positive := mkgroup [card King Clubs] [true] ]} =
    Some (tt, <[ 1%positive := G' ]>
      {[ 1%positive := mkgroup [card Ace Hearts; joker] [false; true];
         2%positive := mkgroup [card King Clubs] [true] ]}) ∧
    Impl.Len G' = 3.
Proof.
  destruct (InsertAt_splices_at_clamped_index
              {[ 1%positive := mkgroup [card Ace Hearts; joker] [false; true];
                 2%positive := mkgroup [card King Clubs] [true] ]}
              1%positive 2%positive
              (mkgroup [card Ace Hearts; joker] [false; true])
              (mkgroup [card King Clubs] [true]) (-1))
    as (G' & k & Ek & E & _ & _ & L); try reflexivity; [discriminate|].
  exists G', k. split; [exact Ek|]. split; [exact E|exact L].
Defined.



(** X12.  On a group that keeps the invariant and for [0 <= n <= Len()],
    [Draw(n)] and [DrawBottom(Len() - n)] cut the group at the same place:
    what one of them returns is what the other leaves in the receiver. *)
Theorem Draw_and_DrawBottom_cut_alike (g : group) (n : Z) :
  aligned g → 0 ≤ n ≤ Impl.Len g →
  ∃ below above,
    Impl.Draw g n = Some (above, below) ∧
    Impl.DrawBottom g (Impl.Len g - n) = Some (below, above).
Proof.
  intros Hal Hn. rewrite (Draw_spec g n Hal), (DrawBottom_spec g _ Hal).
  eexists _, _. split; [done|].
  assert (clamp g (Impl.Len g - n) = (length (cards g) - clamp g n)%nat) as ->.
  { unfold clamp, Impl.Len, len in *. lia. }
  done.
Qed.

Lemma Draw_and_DrawBottom_cut_alike_witness :
  ∃ below above,
    Impl.Draw (mkgroup [card Ace Hearts; joker; card King Clubs]
                       [false; true; false]) 1 = Some (above, below) ∧
    Impl.DrawBottom (mkgroup [card Ace Hearts; joker; card King Clubs]
                             [false; true; false]) 2 = Some (below, above).
Proof.
  apply (Draw_and_DrawBottom_cut_alike
           (mkgroup [card Ace Hearts; joker; card King Clubs]
                    [false; true; false]) 1).
  - reflexivity.
  - vm_compute. split; discriminate.
Defined.

(** [flip] on a valid range, in closed form. *)
Lemma flip_closed (g : group) (i j : nat) :
  aligned g → (i ≤ j ≤ length (cards g))%nat →
  Impl.flip g (Z.of_nat i) (Z.of_nat j) =
    Some (mkgroup
      (take i (cards g) ++ reverse (take (j - i) (drop i (cards g))) ++
         drop j (cards g))
      (take i (flipd g) ++
         (negb <$> reverse (take (j - i) (drop i (flipd g)))) ++
         drop j (flipd g))).
Proof.
  intros Hal Hij.
  destruct (flip_spec g i j Hal Hij) as (g' & -> & Lc & Ld & P).
  unfold aligned in Hal. f_equal. destruct g' as [c' d']. simpl in *.
  assert (∀ A (s : list A) (f : A → A) (p : nat),
    (i ≤ j ≤ length s)%nat →
    (take i s ++ (f <$> reverse (take (j - i) (drop i s))) ++ drop j s) !! p =
    if decide (i ≤ p < j)%nat then f <$> s !! (i + j - 1 - p)%nat
    else s !! p) as Look.
  { intros A s f p Hs.
    assert (length (take (j - i) (drop i s)) = (j - i)%nat) as Lw
      by (rewrite length_take, length_drop; lia).
    destruct (decide (p < i)%nat).
    - rewrite lookup_app_l by (rewrite length_take; lia).
      rewrite lookup_take_lt by done. by rewrite decide_False by lia.
    - rewrite lookup_app_r by (rewrite length_take; lia).
      rewrite length_take_le by lia. case_decide.
      + rewrite lookup_app_l
          by (rewrite length_fmap, length_reverse; lia).
        rewrite list_lookup_fmap, reverse_lookup by lia.
        rewrite Lw, lookup_window by lia.
        rewrite decide_True by lia. do 2 f_equal. lia.
      + rewrite lookup_app_r
          by (rewrite length_fmap, length_reverse; lia).
        rewrite length_fmap, length_reverse, Lw, lookup_drop.
        f_equal. lia. }
  f_equal.
  - apply list_eq. intros p. rewrite (proj1 (P p)).
    rewrite <- (list_fmap_id (reverse _)), Look by lia.
    case_decide; [|done]. by rewrite option_fmap_id.
  - apply list_eq. intros p. rewrite (proj2 (P p)).
    by rewrite Look by lia.
Qed.

(** X13.  For [0 <= i <= j <= Len()], on a group that keeps the invariant,
    [g.Flip(i, j)] leaves [g] as these three calls do: [h := g.DrawAt(i, j)],
    [h.FlipAll()], [g.InsertAt(i, h)].  Flipping a range is taking the
    range out, turning the pile over and putting it back. *)
Theorem Flip_is_draw_FlipAll_insert
    (σ : heap) (g : ptr) (G : group) (i j : Z) :
  σ !! g = Some G → aligned G →
  0 ≤ i ≤ j → j ≤ Impl.Len G →
  ∃ G' h σ1 σ2 σ3,
    Impl.Flip G i j = Some G' ∧
    Group.DrawAt g i j σ = Some (h, σ1) ∧
    Group.FlipAll h σ1 = Some (h, σ2) ∧
    Group.InsertAt g i h σ2 = Some (tt, σ3) ∧
    σ3 !! g = Some G'.
Proof.
  intros Hg Hal Hij Hj. pose proof (fresh_ne σ g G Hg) as Hne.
  unfold Impl.Len, len in Hj.
  assert (∃ a b : nat, i = Z.of_nat a ∧ j = Z.of_nat b ∧
            (a ≤ b ≤ length (cards G))%nat) as (a & b & -> & -> & Hab).
  { exists (Z.to_nat i), (Z.to_nat j). lia. }
  unfold aligned in Hal.
  eexists _, _, _, _, _. split; [|split; [|split; [|split]]].
  - unfold Impl.Flip. rewrite !index_nonneg by lia.
    by apply flip_closed.
  - unfold Group.DrawAt. eapply run_draws; [done|].
    unfold Impl.DrawAt. rewrite !index_nonneg by lia.
    by apply drawAt_spec.
  - unfold Group.FlipAll. erewrite run_bind; [done|].
    eapply run_changes; [heap_lookup|].
    apply FlipAll_spec. unfold aligned. simpl.
    rewrite !length_take, !length_drop. lia.
  - apply InsertAt_spec; [heap_lookup|heap_lookup|done|..].
    + unfold aligned. simpl. rewrite !length_app, !length_take, !length_drop.
      lia.
    + unfold aligned. simpl.
      rewrite length_fmap, !length_reverse, !length_take, !length_drop. lia.
  - rewrite lookup_insert_eq. simpl.
    assert (insert_point (mkgroup (take a (cards G) ++ drop b (cards G))
                                  (take a (flipd G) ++ drop b (flipd G)))
              (Z.of_nat a) = a) as ->.
    { unfold insert_point, Impl.Len, len. rewrite index_nonneg by lia.
      simpl. rewrite length_app, length_take, length_drop. lia. }
    by rewrite !take_app_length', !drop_app_length'
      by (rewrite length_take; lia).
Qed.

Lemma Flip_is_draw_FlipAll_insert_witness :
  ∃ G' h σ1 σ2 σ3,
    Impl.Flip (mkgroup [card Ace Hearts; joker; card King Clubs]
                       [false; true; false]) 1 3 = Some G' ∧
    Group.DrawAt 1%positive 1 3
      {[ 1%positive := mkgroup [card Ace Hearts; joker; card King Clubs]
                               [false; true; false] ]} = Some (h, σ1) ∧
    Group.FlipAll h σ1 = Some (h, σ2) ∧
    Group.InsertAt 1%positive 1 h σ2 = Some (tt, σ3) ∧
    σ3 !! 1%positive = Some G'.
Proof.
  apply (Flip_is_draw_FlipAll_insert
           {[ 1%positive := mkgroup [card Ace Hearts; joker; card King Clubs]
                                    [false; true; false] ]}
           1%positive
           (mkgroup [card Ace Hearts; joker; card King Clubs]
                    [false; true; false]) 1 3).
  - reflexivity.
  - reflexivity.
  - lia.
  - vm_compute. discriminate.
Defined.

(** ** [Less] *)

(** X14.  [Less(i, j)] returns exactly when both positions, once
    normalised, are inside the group and hold cards; on a position outside
    the group or one that holds nil it panics. *)
Theorem Less_returns_on_cards_only (g : group) (i j : Z) :
  is_Some (Impl.Less g i j) ↔
  ∃ ci cj, at_ (cards g) (Impl.index g i) = Some ci ∧
           at_ (cards g) (Impl.index g j) = Some cj ∧
           ci ≠ nilCard ∧ cj ≠ nilCard.
Proof.
  split.
  - intros [b E]. unfold Impl.Less in E.
    destruct (at_ (cards g) (Impl.index g i)) as [ci|]; [|done].
    destruct (at_ (cards g) (Impl.index g j)) as [cj|]; [|done].
    exists ci, cj. split; [done|]. split; [done|].
    destruct ci, cj; simpl in E; done.
  - intros (ci & cj & Hi & Hj & Ni & Nj).
    rewrite (Less_cases g i j ci cj Hi Hj).
    destruct ci, cj; done.
Qed.

(** X15.  On positions that hold cards, [Less] is a strict weak order, as
    a sort needs it: no position is less than itself; of two positions at
    most one is less than the other; less is transitive, and so is not
    being less.  Two cards that are not jokers and differ in rank or suit
    are always ordered one way or the other. *)
Theorem Less_is_a_strict_weak_order (g : group) (i j k : Z) (ci cj ck : Card) :
  at_ (cards g) (Impl.index g i) = Some ci → ci ≠ nilCard →
  at_ (cards g) (Impl.index g j) = Some cj → cj ≠ nilCard →
  at_ (cards g) (Impl.index g k) = Some ck → ck ≠ nilCard →
  Impl.Less g i i = Some false ∧
  (Impl.Less g i j = Some true → Impl.Less g j i = Some false) ∧
  (Impl.Less g i j = Some true → Impl.Less g j k = Some true →
   Impl.Less g i k = Some true) ∧
  (Impl.Less g i j = Some false → Impl.Less g j k = Some false →
   Impl.Less g i k = Some false) ∧
  (ci ≠ joker → cj ≠ joker → ci ≠ cj →
   Impl.Less g i j = Some true ∨ Impl.Less g j i = Some true).
Proof.
  intros Hi Ni Hj Nj Hk Nk.
  rewrite (Less_cases g i i ci ci Hi Hi), (Less_cases g i j ci cj Hi Hj),
    (Less_cases g j i cj ci Hj Hi), (Less_cases g j k cj ck Hj Hk),
    (Less_cases g i k ci ck Hi Hk).
  destruct ci as [ri si| |], cj as [rj sj| |], ck as [rk sk| |];
    try done; repeat split; try done; intros;
    repeat match goal with
      | |- context [?a =? ?b] => destruct (Z.eqb_spec a b)
      | H : context [?a =? ?b] |- _ => destruct (Z.eqb_spec a b)
      | |- context [?a <? ?b] => destruct (Z.ltb_spec a b)
      | H : context [?a <? ?b] |- _ => destruct (Z.ltb_spec a b)
      end;
    simplify_eq; try done; try lia;
    try (left; f_equal; lia); try (right; f_equal; lia).
  all: destruct (decide (ri = rj)); [congruence|].
  all: first [by left; f_equal; lia | by right; f_equal; lia | lia].
Qed.

Lemma Less_is_a_strict_weak_order_witness :
  Impl.Less (mkgroup [joker; card King Spades; card Ace Hearts]
                     [false; false; false]) 0 0 = Some false ∧
  (Impl.Less (mkgroup [joker; card King Spades; card Ace Hearts]
                      [false; false; false]) 1 2 = Some true ∨
   Impl.Less (mkgroup [joker; card King Spades; card Ace Hearts]
                      [false; false; false]) 2 1 = Some true).
Proof.
  destruct (Less_is_a_strict_weak_order
              (mkgroup [joker; card King Spades; card Ace Hearts]
                       [false; false; false]) 1 2 0
              (card King Spades) (card Ace Hearts) joker)
    as (_ & _ & _ & _ & T); try reflexivity; try discriminate.
  destruct (Less_is_a_strict_weak_order
              (mkgroup [joker; card King Spades; card Ace Hearts]
                       [false; false; false]) 0 1 2
              joker (card King Spades) (card Ace Hearts))
    as (I & _); try reflexivity; try discriminate.
  split; [exact I|]. apply T; discriminate.
Defined.

Lemma Less_returns_on_cards_only_witness :
  is_Some (Impl.Less (mkgroup [joker; card King Spades] [false; false]) 0 (-1)).
Proof.
  apply (Less_returns_on_cards_only
           (mkgroup [joker; card King Spades] [false; false]) 0 (-1)).
  exists joker, (card King Spades).
  split; [reflexivity|]. split; [reflexivity|]. split; discriminate.
Defined.

(** What [NewStandardDeck] returns, on any heap. *)
Lemma NewStandardDeck_run (σ : heap) :
  NewStandardDeck σ =
    Some (fresh (dom σ),
          <[fresh (dom σ) := mkgroup suit_major (replicate 52 false)]> σ).
Proof.
  unfold NewStandardDeck.
  run_make. run_make.
  unfold bind at 1, alloc. cbv beta zeta iota.
  set (deck := fresh (dom σ)).
  set (G0 := mkgroup (replicate (Z.to_nat 52) nilCard)
                     (replicate (Z.to_nat 52) false)).
  erewrite run_bind; [reflexivity|].
  erewrite (for_heap_changes deck
    (λ suit G,
       for_each (λ rank G,
         c ← set_at (cards G) ((suit - 1) * 13 + (rank - 1))
               (NewCard (byte_of_int rank) (byte_of_int suit));
         Some (mkgroup c (flipd G)))
       (upto 1 (13 + 1)) G)); [|..|apply lookup_insert_eq].
  - set (loops := for_each _ _ _).
    assert (loops = Some (mkgroup suit_major (replicate 52 false))) as ->
      by (vm_compute; reflexivity).
    simpl. by rewrite insert_insert_eq.
  - intros suit σ' G Hd.
    apply (for_heap_changes deck
      (λ rank G,
         c ← set_at (cards G) ((suit - 1) * 13 + (rank - 1))
               (NewCard (byte_of_int rank) (byte_of_int suit));
         Some (mkgroup c (flipd G)))); [|done].
    intros rank σ'' G'' Hd''. by apply deck_assign.
Qed.

(** X16.  The deck that [NewStandardDeck] returns is in the order of
    [Less]: for any two of its positions, [Less(i, j)] holds exactly when
    [i < j].  A sort with this comparator finds nothing to move. *)
Theorem NewStandardDeck_is_in_Less_order (σ : heap) :
  ∃ (deck : ptr) (G : group),
    NewStandardDeck σ = Some (deck, <[deck := G]> σ) ∧
    (∀ i j : Z, 0 ≤ i < 52 → 0 ≤ j < 52 →
       Impl.Less G i j = Some (i <? j)) ∧
    in_order G.
Proof.
  eexists _, _. split; [apply NewStandardDeck_run|].
  set (G := mkgroup suit_major (replicate 52 false)).
  assert (∀ i j : Z, 0 ≤ i < 52 → 0 ≤ j < 52 →
            Impl.Less G i j = Some (i <? j)) as Hless.
  { assert (forallb (λ a, forallb (λ b,
              bool_decide (Impl.Less G (Z.of_nat a) (Z.of_nat b) =
                           Some (Z.of_nat a <? Z.of_nat b)))
              (seq 0 52)) (seq 0 52) = true) as Hall
      by (vm_compute; reflexivity).
    intros i j Hi Hj.
    rewrite forallb_forall in Hall.
    specialize (Hall (Z.to_nat i)). rewrite forallb_forall in Hall.
    specialize (Hall ltac:(apply in_seq; lia) (Z.to_nat j)
                     ltac:(apply in_seq; lia)).
    apply bool_decide_eq_true in Hall.
    by rewrite !Z2Nat.id in Hall by lia. }
  split; [exact Hless|].
  intros i j Hij Hj. change (Impl.Len G) with 52 in Hj.
  rewrite Hless by lia. f_equal. lia.
Qed.

Lemma NewStandardDeck_is_in_Less_order_witness :
  ∃ (deck : ptr) (G : group),
    NewStandardDeck ∅ = Some (deck, <[deck := G]> ∅) ∧
    Impl.Less G 12 13 = Some true.
Proof.
  destruct (NewStandardDeck_is_in_Less_order ∅) as (deck & G & E & L & _).
  exists deck, G. split; [exact E|].
  apply (L 12 13); lia.
Defined.

(** ** Names of cards *)

Lemma proper_enum (c : Card) : proper c → c ∈ suit_major ++ [joker].
Proof.
  destruct c as [r s| |]; simpl; [|intros _|done].
  - unfold Ace, King, Spades, Clubs. intros [Hr Hs].
    assert (r = 1 ∨ r = 2 ∨ r = 3 ∨ r = 4 ∨ r = 5 ∨ r = 6 ∨ r = 7 ∨
            r = 8 ∨ r = 9 ∨ r = 10 ∨ r = 11 ∨ r = 12 ∨ r = 13) as Hc by lia.
    assert (s = 1 ∨ s = 2 ∨ s = 3 ∨ s = 4) as Hd by lia.
    repeat destruct Hc as [->|Hc]; try subst r;
      repeat destruct Hd as [->|Hd]; try subst s;
      refine (bool_decide_unpack _ _); vm_compute; exact I.
  - refine (bool_decide_unpack _ _). vm_compute. exact I.
Qed.

(** X17.  Among the fifty-two cards of the deck and the joker, the short
    name tells the cards apart, and so does the long name.  A rank outside
    Ace..King prints as "Null" and [?], a suit outside Spades..Clubs as
    "Nulls" and [?]. *)
Theorem names_tell_cards_apart :
  (∀ c1 c2 : Card, proper c1 → proper c2 →
     Card_Short c1 = Card_Short c2 → c1 = c2) ∧
  (∀ c1 c2 : Card, proper c1 → proper c2 →
     Card_String c1 = Card_String c2 → c1 = c2) ∧
  (∀ r : Rank, ¬ (Ace ≤ r ≤ King) →
     Rank_String r = "Null" ∧ Rank_Short r = "?"%char) ∧
  (∀ s : Suit, ¬ (Spades ≤ s ≤ Clubs) →
     Suit_String s = "Nulls" ∧ Suit_Short s = "?"%char).
Proof.
  assert (Forall (λ c1, Forall (λ c2,
            (Card_Short c1 = Card_Short c2 → c1 = c2) ∧
            (Card_String c1 = Card_String c2 → c1 = c2))
            (suit_major ++ [joker])) (suit_major ++ [joker])) as Hall.
  { refine (bool_decide_unpack _ _). vm_compute. exact I. }
  rewrite Forall_forall in Hall.
  split; [|split; [|split]].
  - intros c1 c2 H1%proper_enum H2%proper_enum.
    specialize (Hall c1 H1). rewrite Forall_forall in Hall.
    apply (Hall c2 H2).
  - intros c1 c2 H1%proper_enum H2%proper_enum.
    specialize (Hall c1 H1). rewrite Forall_forall in Hall.
    apply (Hall c2 H2).
  - intros r Hr. unfold Rank_String, Rank_Short, Ace, Two, Three, Four, Five,
      Six, Seven, Eight, Nine, Ten, Jack, Queen, King in *.
    split;
      repeat match goal with
        | |- context [r =? ?k] => destruct (Z.eqb_spec r k); [lia|]
        end; done.
  - intros s Hs. unfold Suit_String, Suit_Short, Spades, Hearts, Diamonds,
      Clubs in *.
    split;
      repeat match goal with
        | |- context [s =? ?k] => destruct (Z.eqb_spec s k); [lia|]
        end; done.
Qed.

Lemma names_tell_cards_apart_witness :
  card Ten Diamonds = card Ten Diamonds ∧ Rank_String 0 = "Null".
Proof.
  destruct names_tell_cards_apart as (S & _ & R & _).
  split.
  - apply S; [vm_compute; repeat split; discriminate..|reflexivity].
  - apply (R 0). vm_compute. intros [H _]. exact (H eq_refl).
Defined.

(** ** [String] of a group *)

(** The loop of [String] collects the short names of the cards. *)
Lemma short_loop (cs : list Card) (k : nat) : ∀ (i : nat) (s : list string),
  (i + k = length cs)%nat → length s = length cs →
  for_each (λ i s, c ← at_ cs i; sh ← Card_Short c; set_at s i sh)
    (seqZ (Z.of_nat i) (Z.of_nat k)) s =
  (names ← mapM Card_Short (drop i cs); Some (take i s ++ names)).
Proof.
  induction k as [|k IH]; intros i s Hik Hs.
  - rewrite drop_ge by lia. simpl. by rewrite app_nil_r, take_ge by lia.
  - rewrite seqZ_cons by lia. rewrite for_each_cons. rewrite at_nat.
    destruct (lookup_lt_is_Some_2 cs i) as [c Hc]; [lia|].
    rewrite Hc, (drop_S cs c i Hc). cbn [mbind option_bind mapM].
    destruct (Card_Short c) as [sh|]; [|done]. cbn [mbind option_bind].
    rewrite set_at_in by (unfold len; lia). cbn [mbind option_bind].
    replace (Z.succ (Z.of_nat i)) with (Z.of_nat (S i)) by lia.
    replace (Z.pred (Z.of_nat (S k))) with (Z.of_nat k) by lia.
    rewrite Nat2Z.id, IH by (rewrite ?length_insert; lia).
    destruct (mapM Card_Short (drop (S i) cs)) as [names|]; [|done].
    cbn [mbind option_bind mret option_ret]. f_equal.
    rewrite (take_S_r _ i sh) by (apply list_lookup_insert_eq; lia).
    rewrite take_insert_ge by lia. by rewrite <- app_assoc.
Qed.

Lemma String_spec (g : group) :
  Impl.String g =
    (names ← mapM Card_Short (cards g);
     Some ("[ " +:+ Join names " " +:+ " ]")).
Proof.
  unfold Impl.String. rewrite make_in by apply len_nonneg. cbn [mbind option_bind].
  unfold upto, len. rewrite Z.sub_0_r, Nat2Z.id. change 0 with (Z.of_nat 0).
  rewrite short_loop by (rewrite ?length_replicate; lia).
  rewrite drop_0. by destruct (mapM Card_Short (cards g)).
Qed.

Lemma string_length_app (x y : string) :
  String.length (x +:+ y) = (String.length x + String.length y)%nat.
Proof.
  induction x as [|a x IH]; [reflexivity|].
  change (String a x +:+ y) with (String a (x +:+ y)).
  simpl. by rewrite IH.
Qed.

Lemma string_app_cancel_r (x y z : string) :
  x +:+ z = y +:+ z → x = y.
Proof.
  intros E.
  assert (String.length x = String.length y) as L.
  { apply (f_equal String.length) in E. rewrite !string_length_app in E. lia. }
  revert y E L. induction x as [|a x IH]; intros [|b y] E L;
    simpl in L; try done.
  change (String a (x +:+ z) = String b (y +:+ z)) in E.
  injection E as -> E. f_equal. apply IH; [done|lia].
Qed.

(** Short names have two characters. *)
Lemma Card_Short_two (c : Card) (sh : string) :
  Card_Short c = Some sh → ∃ a b, sh = String a (String b EmptyString).
Proof. destruct c; intros [= <-]; eauto. Qed.

Lemma names_two (cs : list Card) (names : list string) :
  mapM Card_Short cs = Some names →
  length names = length cs ∧
  Forall (λ sh, ∃ a b, sh = String a (String b EmptyString)) names.
Proof.
  intros E%mapM_Some_1.
  induction E as [|c sh cs names Ec _ [L F]]; [done|].
  split; [simpl; lia|].
  constructor; [by eapply Card_Short_two|done].
Qed.

Lemma Join_length (names : list string) :
  Forall (λ sh, ∃ a b, sh = String a (String b EmptyString)) names →
  String.length (Join names " ") = (3 * length names - 1)%nat.
Proof.
  induction 1 as [|sh names (a & b & ->) F IH]; [done|].
  destruct names as [|sh' names]; [done|].
  change (Join (String a (String b "") :: sh' :: names) " ")
    with (String a (String b "") +:+ " " +:+ Join (sh' :: names) " ").
  rewrite !string_length_app, IH. simpl. lia.
Qed.

Lemma Join_inj (l1 : list string) : ∀ l2 : list string,
  Forall (λ sh, ∃ a b, sh = String a (String b EmptyString)) l1 →
  Forall (λ sh, ∃ a b, sh = String a (String b EmptyString)) l2 →
  Join l1 " " = Join l2 " " → l1 = l2.
Proof.
  induction l1 as [|x l1 IH]; intros l2 F1 F2 E.
  - destruct l2 as [|y l2]; [done|].
    apply (f_equal String.length) in E.
    rewrite (Join_length (y :: l2) F2) in E. simpl in E. lia.
  - destruct l2 as [|y l2].
    { apply (f_equal String.length) in E.
      rewrite (Join_length (x :: l1) F1) in E. simpl in E. lia. }
    apply Forall_cons in F1 as [(a & b & ->) F1].
    apply Forall_cons in F2 as [(a' & b' & ->) F2].
    destruct l1 as [|x' l1], l2 as [|y' l2].
    + by simplify_eq/=.
    + cbn in E. by simplify_eq.
    + cbn in E. by simplify_eq.
    + change (String a (String b "") +:+ " " +:+ Join (x' :: l1) " " =
              String a' (String b' "") +:+ " " +:+ Join (y' :: l2) " ") in E.
      cbn in E. simplify_eq. f_equal. by apply IH.
Qed.

(** X18.  [String()] returns exactly when no card of the group is nil, and
    panics otherwise; the directions play no part.  The string has four
    characters for the empty group, ["[  ]"], and [3 * n + 3] for a group
    of [n >= 1] cards: every short name has two characters, also that of a
    card whose rank or suit is outside the enumeration. *)
Theorem String_length_of_a_group (g : group) :
  (is_Some (Impl.String g) ↔ Forall (λ c, c ≠ nilCard) (cards g)) ∧
  (∀ s, Impl.String g = Some s →
     (cards g = [] → s = "[  ]") ∧
     (cards g ≠ [] →
      String.length s = (3 * length (cards g) + 3)%nat) ∧
     ∀ d : list bool, Impl.String (mkgroup (cards g) d) = Some s).
Proof.
  rewrite String_spec. split.
  - assert (∀ c, is_Some (Card_Short c) ↔ c ≠ nilCard) as Hc.
    { intros []; split; try done; by intros []. }
    split.
    + intros [s E].
      assert (is_Some (mapM Card_Short (cards g))) as Hm
        by (destruct (mapM Card_Short (cards g)); [by eexists|done]).
      apply mapM_is_Some_1 in Hm.
      eapply Forall_impl; [exact Hm|]. intros c. apply Hc.
    + intros Hall.
      destruct (mapM_is_Some_2 Card_Short (cards g)) as [names ->];
        [|by eexists].
      eapply Forall_impl; [exact Hall|]. intros c. apply Hc.
  - intros s E.
    destruct (mapM Card_Short (cards g)) as [names|] eqn:En; [|done].
    injection E as <-. destruct (names_two _ _ En) as [L F].
    split; [|split].
    + intros Hnil. rewrite Hnil in L. by destruct names.
    + intros Hne. rewrite !string_length_app, (Join_length names F), L.
      destruct (cards g); [done|]. simpl. lia.
    + intros d. rewrite String_spec. cbn [cards]. by rewrite En.
Qed.

Lemma String_length_of_a_group_witness :
  String.length "[ AH JO ]" = 9%nat ∧
  Impl.String (mkgroup [card Ace Hearts; joker] []) = Some "[ AH JO ]".
Proof.
  destruct (String_length_of_a_group
              (mkgroup [card Ace Hearts; joker] [false; true])) as [_ H].
  destruct (H "[ AH JO ]" eq_refl) as (_ & L & D).
  split.
  - apply L. discriminate.
  - apply (D []).
Defined.

Lemma Card_Short_inj (c1 c2 : Card) :
  proper c1 → proper c2 → Card_Short c1 = Card_Short c2 → c1 = c2.
Proof.
  assert (Forall (λ c1, Forall (λ c2, Card_Short c1 = Card_Short c2 → c1 = c2)
            (suit_major ++ [joker])) (suit_major ++ [joker])) as Hall.
  { refine (bool_decide_unpack _ _). vm_compute. exact I. }
  rewrite Forall_forall in Hall.
  intros H1%proper_enum H2%proper_enum.
  specialize (Hall c1 H1). rewrite Forall_forall in Hall.
  apply (Hall c2 H2).
Qed.

(** X19.  The string of a group tells its cards: two groups of cards of
    the deck and jokers that print as the same string hold the same cards
    in the same order. *)
Theorem String_tells_the_cards (g1 g2 : group) :
  Forall proper (cards g1) → Forall proper (cards g2) →
  Impl.String g1 = Impl.String g2 → cards g1 = cards g2.
Proof.
  intros P1 P2. rewrite !String_spec.
  assert (∀ cs, Forall proper cs → is_Some (mapM Card_Short cs)) as Hsome.
  { intros cs P. apply mapM_is_Some_2.
    eapply Forall_impl; [exact P|]. intros []; simpl; by eauto. }
  destruct (Hsome _ P1) as [n1 E1]. destruct (Hsome _ P2) as [n2 E2].
  rewrite E1, E2. cbn [mbind option_bind]. intros [= E].
  change (Join n1 " " +:+ " ]" = Join n2 " " +:+ " ]") in E.
  apply string_app_cancel_r in E.
  apply Join_inj in E; [|by eapply names_two..]. subst n2.
  apply mapM_Some_1 in E1, E2.
  clear Hsome. revert P1 P2 E1 E2. generalize (cards g1) (cards g2).
  clear g1 g2. intros l1 l2 P1 P2 E1. revert l2 P2.
  induction E1 as [|c sh cs names Ec _ IH]; intros l2 P2 E2.
  - by inversion E2.
  - inversion E2 as [|c' ? cs' ? Ec' E2']; subst.
    apply Forall_cons in P1 as [Pc P1]. apply Forall_cons in P2 as [Pc' P2].
    f_equal.
    + apply Card_Short_inj; [done..|congruence].
    + by apply IH.
Qed.

Lemma String_tells_the_cards_witness :
  cards (mkgroup [card Ace Hearts; joker] [false; true]) =
  cards (mkgroup [card Ace Hearts; joker] [true; true]).
Proof.
  apply String_tells_the_cards.
  - repeat constructor; vm_compute; discriminate.
  - repeat constructor; vm_compute; discriminate.
  - reflexivity.
Defined.

(** ** What [PerfectShuffle] can reach *)

Lemma exchange_app_l {A} (p s : list A) (i j : Z) :
  0 ≤ i < len p → 0 ≤ j < len p →
  Impl.exchange (p ++ s) i j = (λ p', p' ++ s) <$> Impl.exchange p i j.
Proof.
  intros Hi Hj. unfold Impl.exchange, len in *.
  rewrite !at_in by lia. rewrite !lookup_app_l by lia.
  destruct (lookup_lt_is_Some_2 p (Z.to_nat j)) as [x ->]; [lia|].
  destruct (lookup_lt_is_Some_2 p (Z.to_nat i)) as [y ->]; [lia|].
  cbn [mbind option_bind].
  rewrite !set_at_in by (unfold len; rewrite ?length_app; lia).
  cbn [mbind option_bind].
  rewrite !set_at_in
    by (unfold len; rewrite ?length_insert, ?length_app; lia).
  cbn [fmap option_fmap option_map]. f_equal.
  rewrite <- !insert_app_l by (rewrite ?length_insert; lia). done.
Qed.

Lemma exchange_length {A} (s s' : list A) (i j : Z) :
  Impl.exchange s i j = Some s' → length s' = length s.
Proof.
  intros E.
  destruct (decide (0 ≤ i < len s)) as [Hi|],
           (decide (0 ≤ j < len s)) as [Hj|];
    try (rewrite exchange_out in E by tauto; done).
  by destruct (exchange_at _ _ _ _ Hi Hj E).
Qed.

(** A run of exchanges inside a prefix leaves what follows the prefix. *)
Lemma exchanges_in_prefix {A} (r r' : Z → Z) (s : list A) (l : list Z) :
  ∀ p : list A,
  Forall (λ i, 0 ≤ i < len p ∧ 0 ≤ r' (i + 1) < len p ∧
               r (i + 1) = r' (i + 1)) l →
  for_each (λ i s, Impl.exchange s i (r (i + 1))) l (p ++ s) =
  (λ p', p' ++ s) <$>
    for_each (λ i s, Impl.exchange s i (r' (i + 1))) l p.
Proof.
  induction l as [|i l IH]; intros p Hl; [done|].
  apply Forall_cons in Hl as [(Hi & Hj & Hr) Hl].
  rewrite !for_each_cons, Hr, exchange_app_l by done.
  destruct (Impl.exchange p i (r' (i + 1))) as [p1|] eqn:E; [|done].
  cbn [fmap option_fmap option_map mbind option_bind].
  apply IH. unfold len in *. by rewrite (exchange_length _ _ _ _ E).
Qed.

(** The exchanges of the shuffle can put a list into any order. *)
Lemma exchanges_reach {A} (m : nat) : ∀ P T : list A,
  length P = m → P ≡ₚ T →
  ∃ r : Z → Z,
    (∀ i : Z, 0 < i < Z.of_nat m → 0 ≤ r (i + 1) ≤ i) ∧
    for_each (λ i s, Impl.exchange s i (r (i + 1)))
      (downto1 (Z.of_nat m - 1)) P = Some T.
Proof.
  induction m as [|m IH]; intros P T Lm HPT.
  { destruct P; [|done]. apply Permutation_nil_l in HPT as <-.
    exists (λ _, 0). split; [lia|done]. }
  destruct m as [|m].
  { destruct P as [|x [|??]]; try done.
    apply Permutation_singleton_l in HPT as <-.
    exists (λ _, 0). split; [lia|done]. }
  assert (length T = S (S m)) as LT by (by rewrite <- HPT).
  destruct (lookup_lt_is_Some_2 T (S m)) as [t Ht]; [lia|].
  assert (T = take (S m) T ++ [t]) as ET.
  { rewrite <- (take_drop (S m) T) at 1. f_equal.
    rewrite (drop_S _ t _ Ht), drop_ge by lia. done. }
  assert (t ∈ P) as Hin.
  { rewrite HPT. apply list_elem_of_lookup. eauto. }
  apply list_elem_of_lookup in Hin as [j Hj].
  pose proof (lookup_lt_Some _ _ _ Hj) as Hjlt.
  destruct (exchange_in P (Z.of_nat (S m)) (Z.of_nat j))
    as (P1 & E1 & L1 & Look); [unfold len; lia..|].
  assert (P1 !! S m = Some t) as Hlast.
  { rewrite Look, !Nat2Z.id. case_decide; [|by rewrite decide_True].
    by subst. }
  assert (P1 = take (S m) P1 ++ [t]) as EP1.
  { rewrite <- (take_drop (S m) P1) at 1. f_equal.
    rewrite (drop_S _ t _ Hlast), drop_ge by lia. done. }
  assert (P1 ≡ₚ P) as HP1.
  { apply Permutation_inj. split; [done|].
    exists (λ k, if decide (k = Z.to_nat (Z.of_nat j))
                 then Z.to_nat (Z.of_nat (S m))
                 else if decide (k = Z.to_nat (Z.of_nat (S m)))
                      then Z.to_nat (Z.of_nat j) else k).
    split; [|intros k; rewrite Look; by repeat case_decide].
    intros a b. repeat case_decide; lia. }
  assert (take (S m) P1 ≡ₚ take (S m) T) as Hrest.
  { apply (inj (.++ [t])). rewrite <- EP1, <- ET. by rewrite HP1. }
  destruct (IH (take (S m) P1) (take (S m) T)) as (r' & Hr' & Er');
    [rewrite length_take; lia|done|].
  pose (rr := λ mx : Z,
          if mx =? Z.of_nat (S (S m)) then Z.of_nat j else r' mx).
  assert (∀ i, i + 1 ≠ Z.of_nat (S (S m)) → rr (i + 1) = r' (i + 1)) as Hrr.
  { intros i Hi. unfold rr. by destruct (Z.eqb_spec (i + 1) (Z.of_nat (S (S m)))). }
  exists rr. split.
  - intros i Hi.
    destruct (decide (i + 1 = Z.of_nat (S (S m)))) as [Heq|Hne].
    + unfold rr. rewrite Heq, Z.eqb_refl. lia.
    + rewrite Hrr by done. apply Hr'. lia.
  - unfold downto1.
    replace (Z.of_nat (S (S m)) - 1) with (Z.of_nat (S m)) by lia.
    rewrite seqZ_S, reverse_snoc, for_each_cons.
    replace (1 + Z.of_nat m) with (Z.of_nat (S m)) by lia.
    assert (rr (Z.of_nat (S m) + 1) = Z.of_nat j) as ->.
    { unfold rr. replace (Z.of_nat (S m) + 1) with (Z.of_nat (S (S m))) by lia.
      by rewrite Z.eqb_refl. }
    rewrite E1. cbn [mbind option_bind].
    rewrite EP1, ET.
    rewrite (exchanges_in_prefix rr r').
    + unfold downto1 in Er'.
      replace (Z.of_nat (S m) - 1) with (Z.of_nat m) in Er' by lia.
      by rewrite Er'.
    + apply Forall_reverse, Forall_seqZ. intros i Hi.
      unfold len. rewrite length_take.
      rewrite Hrr by lia. specialize (Hr' i). lia.
Qed.

Lemma exchange_zip {A B} (c c' : list A) (d d' : list B) (i j : Z) :
  length c = length d →
  Impl.exchange c i j = Some c' → Impl.exchange d i j = Some d' →
  Impl.exchange (zip c d) i j = Some (zip c' d').
Proof.
  intros L Ec Ed.
  assert (0 ≤ i < len c ∧ 0 ≤ j < len c) as [Hi Hj].
  { destruct (decide (0 ≤ i < len c)), (decide (0 ≤ j < len c)); try done;
      rewrite exchange_out in Ec by tauto; done. }
  destruct (exchange_in c i j Hi Hj) as (c1 & Ec1 & Lc & Pc).
  destruct (exchange_in d i j) as (d1 & Ed1 & Ld & Pd);
    [unfold len in *; lia..|].
  destruct (exchange_in (zip c d) i j) as (z & -> & Lz & Pz);
    [unfold len in *; rewrite length_zip_with; lia..|].
  simplify_eq. f_equal. apply list_eq. intros k.
  rewrite Pz, !lookup_zip_with, Pc, Pd. by repeat case_decide.
Qed.

(** The swaps of the shuffle, seen on what the group shows. *)
Lemma swaps_on_faces (r : Z → Z) (l : list Z) : ∀ G G1 : group,
  aligned G → Forall (λ i, 0 ≤ i ∧ 0 ≤ r (i + 1)) l →
  for_each (λ i G, Impl.Swap G i (r (i + 1))) l G = Some G1 →
  for_each (λ i s, Impl.exchange s i (r (i + 1))) l (faces G) =
    Some (faces G1).
Proof.
  induction l as [|i l IH]; intros G G1 Hal Hl E.
  - by simplify_eq/=.
  - apply Forall_cons in Hl as [[Hi Hj] Hl].
    rewrite for_each_cons. rewrite for_each_cons in E.
    destruct G as [c d]. cbv beta in E.
    rewrite Swap_nonneg in E by done.
    destruct (Impl.exchange c i _) as [c1|] eqn:Ec; [|done].
    destruct (Impl.exchange d i _) as [d1|] eqn:Ed; [|done].
    cbn [mbind option_bind] in E. unfold faces at 1. cbn [cards flipd].
    rewrite (exchange_zip c c1 d d1) by done. cbn [mbind option_bind].
    apply (IH (mkgroup c1 d1)); [|done..].
    unfold aligned in *. simpl in *.
    by rewrite (exchange_length _ _ _ _ Ec), (exchange_length _ _ _ _ Ed).
Qed.

Lemma faces_inj (g1 g2 : group) :
  aligned g1 → aligned g2 → faces g1 = faces g2 → g1 = g2.
Proof.
  unfold aligned, faces. destruct g1 as [c1 d1], g2 as [c2 d2]. simpl.
  intros L1 L2 E. f_equal.
  - rewrite <- (fst_zip c1 d1), <- (fst_zip c2 d2) by lia. by rewrite E.
  - rewrite <- (snd_zip c1 d1), <- (snd_zip c2 d2) by lia. by rewrite E.
Qed.

(** X20.  [PerfectShuffle] can leave the group in any order: for every
    arrangement of what the group shows there are numbers, each in the
    range [0 .. i] of its round, that make the shuffle produce it.  No
    arrangement is out of the reach of the random source. *)
Theorem PerfectShuffle_reaches_every_order
    (σ : heap) (g : ptr) (G G' : group) :
  σ !! g = Some G → aligned G → aligned G' → faces G' ≡ₚ faces G →
  ∃ rand_Int : Z → Z,
    (∀ i : Z, 0 < i < Impl.Len G → 0 ≤ rand_Int (i + 1) ≤ i) ∧
    PerfectShuffle rand_Int g σ = Some (tt, <[g := G']> σ).
Proof.
  intros Hg Hal Hal' Hperm.
  assert (length (faces G) = length (cards G)) as Lf.
  { unfold faces, aligned in *. rewrite length_zip_with. lia. }
  destruct (exchanges_reach (length (cards G)) (faces G) (faces G') Lf)
    as (r & Hr & Er); [done|].
  exists r. split; [exact Hr|].
  assert (Forall (λ i, 0 ≤ i < Impl.Len G ∧ 0 ≤ r (i + 1) < Impl.Len G)
            (downto1 (Impl.Len G - 1))) as Hin.
  { unfold downto1. apply Forall_reverse, Forall_seqZ.
    intros i Hi. unfold Impl.Len, len in *. specialize (Hr i). lia. }
  destruct (swaps_permute r (downto1 (Impl.Len G - 1)) G Hal Hin)
    as (G1 & E & Hal1 & _ & _).
  assert (G1 = G') as ->.
  { apply faces_inj; [done..|].
    assert (for_each (λ i s, Impl.exchange s i (r (i + 1)))
              (downto1 (Impl.Len G - 1)) (faces G) = Some (faces G1)) as Hs.
    { apply swaps_on_faces; [done| |done].
      eapply Forall_impl; [exact Hin|]. simpl. lia. }
    unfold Impl.Len, len in Hs. rewrite Hs in Er. by simplify_eq. }
  unfold PerfectShuffle, Group.Len.
  rewrite (run_bind _ _ _ _ _ (run_reads _ _ _ _ Hg)).
  rewrite (for_heap_changes g
             (λ i G, Impl.Swap G i (r (i + 1))) _
             (λ i σ G Hp, changes_run g _ G σ Hp) _ σ G Hg).
  by rewrite E.
Qed.

Lemma PerfectShuffle_reaches_every_order_witness :
  ∃ rand_Int : Z → Z,
    PerfectShuffle rand_Int 1%positive
      {[ 1%positive := mkgroup [card Ace Hearts; joker] [false; true] ]} =
    Some (tt,
      <[ 1%positive := mkgroup [joker; card Ace Hearts] [true; false] ]>
        {[ 1%positive := mkgroup [card Ace Hearts; joker] [false; true] ]}).
Proof.
  destruct (PerfectShuffle_reaches_every_order
              {[ 1%positive := mkgroup [card Ace Hearts; joker] [false; true] ]}
              1%positive
              (mkgroup [card Ace Hearts; joker] [false; true])
              (mkgroup [joker; card Ace Hearts] [true; false]))
    as (r & _ & E).
  - reflexivity.
  - reflexivity.
  - reflexivity.
  - apply perm_swap.
  - exists r. exact E.
Defined.

(** X21.  On a group of at most one card [PerfectShuffle] changes nothing
    and does not panic, whatever the random source would return. *)
Theorem PerfectShuffle_of_one_card
    (rand_Int : Z → Z) (σ : heap) (g : ptr) (G : group) :
  σ !! g = Some G → Impl.Len G ≤ 1 →
  PerfectShuffle rand_Int g σ = Some (tt, σ).
Proof.
  intros Hg Hn. unfold PerfectShuffle, Group.Len.
  rewrite (run_bind _ _ _ _ _ (run_reads _ _ _ _ Hg)).
  unfold downto1. by rewrite seqZ_nil by lia.
Qed.

Lemma PerfectShuffle_of_one_card_witness :
  PerfectShuffle (λ _, 7) 1%positive
    {[ 1%positive := mkgroup [joker] [true] ]} =
  Some (tt, {[ 1%positive := mkgroup [joker] [true] ]}).
Proof.
  apply (PerfectShuffle_of_one_card (λ _, 7)
           {[ 1%positive := mkgroup [joker] [true] ]} 1%positive
           (mkgroup [joker] [true])).
  - reflexivity.
  - vm_compute. discriminate.
Defined.

(** ** [NewGroup] *)

(** X22.  [NewGroup(cards...)] returns a group that no pointer of the heap
    referred to before, with exactly the given cards, all face-down; the
    groups that exist are left as they are.  On the new group [Len()] is
    the number of the cards, [Cards()] gives the cards back, and
    [FlippedArray()] is false throughout; none of the three changes the
    heap. *)
Theorem NewGroup_is_face_down (σ : heap) (cs : list Card) :
  ∃ (p : ptr) (σ' : heap),
    NewGroup cs σ = Some (p, σ') ∧
    σ !! p = None ∧
    (∀ q : ptr, q ≠ p → σ' !! q = σ !! q) ∧
    σ' !! p = Some (mkgroup cs (replicate (length cs) false)) ∧
    Group.Len p σ' = Some (len cs, σ') ∧
    Group.Cards p σ' = Some (cs, σ') ∧
    Group.FlippedArray p σ' = Some (replicate (length cs) false, σ').
Proof.
  eexists _, _. split.
  { unfold NewGroup. run_make. reflexivity. }
  unfold len. rewrite Nat2Z.id.
  split; [apply fresh_ptr|]. split; [|split].
  - intros q Hq. by apply lookup_insert_ne.
  - apply lookup_insert_eq.
  - unfold Group.Len, Group.Cards, Group.FlippedArray. split; [|split].
    + by erewrite run_reads by apply lookup_insert_eq.
    + erewrite run_reads by apply lookup_insert_eq.
      by rewrite Cards_copy.
    + erewrite run_reads by apply lookup_insert_eq.
      by rewrite FlippedArray_copy.
Qed.

(** ** No card is lost *)

Lemma exchange_Permutation {A} (s s' : list A) (i j : Z) :
  Impl.exchange s i j = Some s' → s' ≡ₚ s.
Proof.
  intros E.
  assert (0 ≤ i < len s ∧ 0 ≤ j < len s) as [Hi Hj].
  { destruct (decide (0 ≤ i < len s)), (decide (0 ≤ j < len s)); try done;
      rewrite exchange_out in E by tauto; done. }
  destruct (exchange_in s i j Hi Hj) as (s1 & E1 & L & Look).
  assert (s1 = s') as -> by congruence.
  apply Permutation_inj. split; [done|].
  exists (λ k, if decide (k = Z.to_nat j) then Z.to_nat i
               else if decide (k = Z.to_nat i) then Z.to_nat j else k).
  split; [|intros k; rewrite Look; by repeat case_decide].
  intros a b. repeat case_decide; lia.
Qed.

Lemma split_three {A} (s : list A) (i j : nat) :
  (i ≤ j)%nat → s = take i s ++ take (j - i) (drop i s) ++ drop j s.
Proof.
  intros Hij. rewrite <- (take_drop i s) at 1. f_equal.
  rewrite <- (take_drop (j - i) (drop i s)) at 1. f_equal.
  rewrite drop_drop. f_equal. lia.
Qed.

(** X23.  No operation on one group loses a card or makes a second one of
    it.  On a group that keeps the invariant, the cards after a [Swap] or
    a [Flip] that returns are the cards before, in another order, and
    [FlipEach] leaves them in place; the cards before a [DrawAt], [Draw]
    or [DrawBottom] are those of the new group together with those that
    stay. *)
Theorem no_card_is_lost (g : group) :
  aligned g →
  (∀ i j g', Impl.Swap g i j = Some g' → cards g' ≡ₚ cards g) ∧
  (∀ i j g', Impl.Flip g i j = Some g' → cards g' ≡ₚ cards g) ∧
  (∀ faceup g', Impl.FlipEach g faceup = Some g' → cards g' = cards g) ∧
  (∀ i j ng g', Impl.DrawAt g i j = Some (ng, g') →
     cards g ≡ₚ cards ng ++ cards g') ∧
  (∀ n ng g', Impl.Draw g n = Some (ng, g') →
     cards g ≡ₚ cards ng ++ cards g') ∧
  (∀ n ng g', Impl.DrawBottom g n = Some (ng, g') →
     cards g ≡ₚ cards ng ++ cards g').
Proof.
  intros Hal.
  assert (∀ i j ng g', Impl.drawAt g i j = Some (ng, g') →
            cards g ≡ₚ cards ng ++ cards g') as Hdraw.
  { intros i j ng g' E.
    destruct (decide (0 ≤ i ≤ j ∧ j ≤ len (cards g))) as [Hr|Hr];
      [|by rewrite drawAt_invalid in E].
    unfold len in Hr.
    pose proof (drawAt_spec g (Z.to_nat i) (Z.to_nat j) Hal ltac:(lia)) as E1.
    rewrite !Z2Nat.id in E1 by lia. rewrite E1 in E. simplify_eq/=.
    set (w := take (Z.to_nat j - Z.to_nat i) (drop (Z.to_nat i) (cards g))).
    rewrite app_assoc, (Permutation_app_comm w), <- app_assoc.
    unfold w. by rewrite <- split_three by lia. }
  repeat split.
  - intros i j g' E. unfold Impl.Swap in E.
    destruct (Impl.exchange (cards g) _ _) as [c|] eqn:Ec; [|done].
    destruct (Impl.exchange (flipd g) _ _) as [d|]; [|done].
    simplify_eq/=. by eapply exchange_Permutation.
  - intros i j g' E. unfold Impl.Flip in E.
    set (a := Impl.index g i) in *. set (b := Impl.index g j) in *.
    assert (0 ≤ a ≤ b ∧ b ≤ len (cards g)) as Hr.
    { unfold Impl.flip in E.
      destruct (for_each _ (upto a b) _); [|done]. simpl in E.
      destruct (slice (cards g) a b) eqn:Es; [|done].
      by apply slice_valid in Es. }
    unfold len in Hr.
    pose proof (flip_closed g (Z.to_nat a) (Z.to_nat b) Hal ltac:(lia)) as E1.
    rewrite !Z2Nat.id in E1 by lia. rewrite E1 in E. simplify_eq/=.
    rewrite reverse_Permutation. by rewrite <- split_three by lia.
  - intros faceup g' E.
    destruct (FlipEach_keeps_aligned g faceup Hal) as (g1 & E1 & _ & C).
    congruence.
  - intros i j ng g'. apply Hdraw.
  - intros n ng g'. apply Hdraw.
  - intros n ng g'. apply Hdraw.
Qed.

Lemma no_card_is_lost_witness :
  [card King Clubs; joker; card Ace Hearts] ≡ₚ
  [card Ace Hearts; joker; card King Clubs].
Proof.
  destruct (no_card_is_lost
              (mkgroup [card Ace Hearts; joker; card King Clubs]
                       [false; true; false]) eq_refl) as (_ & F & _).
  apply (F 0 3 (mkgroup [card King Clubs; joker; card Ace Hearts]
                        [true; false; true])).
  reflexivity.
Defined.
